(** * Lumina: sequence packing, position ids and shape bookkeeping

    A shallow embedding of the index-level parts of
    [src/models/lumina/model.py]: the patchify / unpatchify transforms, the
    position-id grid, the validity mask, the grouped-query head repetition,
    the rotary table life cycle and the list-or-tensor output convention.

    Tensors are modelled the way the framework stores a contiguous tensor: a
    shape and the row-major list of its elements.  Operations that only
    reinterpret the buffer ([view], [flatten], [unsqueeze]) keep the data
    list; operations that move elements ([permute], [repeat]) rebuild it
    from the multi-index of every output cell.  Numeric kernels (linear
    layers, attention, normalisation) do floating-point work and are taken
    as parameters. *)

From Stdlib Require Import List Arith PeanoNat Lia Bool ZArith.
Import ListNotations.

Notation "'let?' x ':=' a 'in' b" :=
  (match a with Some x => b | None => None end)
  (at level 10, x pattern, a at level 100, b at level 200).

(** ** Row-major index arithmetic *)

Definition numel (sh : list nat) : nat := fold_right Nat.mul 1 sh.

Fixpoint ravel (sh idx : list nat) : nat :=
  match sh, idx with
  | _ :: sh', i :: idx' => i * numel sh' + ravel sh' idx'
  | _, _ => 0
  end.

Fixpoint unravel (sh : list nat) (k : nat) : list nat :=
  match sh with
  | [] => []
  | _ :: sh' => k / numel sh' :: unravel sh' (k mod numel sh')
  end.

(** [pick l js] is [[l[j] for j in js]]. *)
Definition pick (l js : list nat) : list nat := map (fun j => nth j l 0) js.

Fixpoint index_of (m : nat) (l : list nat) : nat :=
  match l with
  | [] => 0
  | x :: l' => if x =? m then 0 else S (index_of m l')
  end.

Definition invperm (perm : list nat) : list nat :=
  map (fun m => index_of m perm) (seq 0 (length perm)).

(** Python's negative dimension numbers. *)
Definition dim_index (rank : nat) (d : Z) : nat :=
  if (d <? 0)%Z then Z.to_nat (Z.of_nat rank + d) else Z.to_nat d.

(** Python's [a // b] on non-negative integers; [b = 0] raises. *)
Definition floordiv (a b : nat) : option nat :=
  if b =? 0 then None else Some (a / b).

(** Python's slice bounds [a:b] on a sequence of length [n]. *)
Definition clamp (n a : nat) : nat := Nat.min a n.

Definition slice {X : Type} (a b : nat) (l : list X) : list X :=
  firstn (b - a) (skipn a l).

Module Tensor.
Section Elements.

Variable A : Type.
(** The element [torch.zeros] fills with; also what reading past a buffer
    yields in the model (never reached on well-formed tensors). *)
Variable zero : A.

Record tensor : Type := mk { shape : list nat; data : list A }.

Definition wf (t : tensor) : Prop := length (data t) = numel (shape t).

Definition tget (t : tensor) (idx : list nat) : A :=
  nth (ravel (shape t) idx) (data t) zero.

Definition tabulate (sh : list nat) (f : list nat -> A) : tensor :=
  mk sh (map (fun k => f (unravel sh k)) (seq 0 (numel sh))).

Definition zeros (sh : list nat) : tensor := mk sh (repeat zero (numel sh)).

(** [t.view(sh)]: same buffer, new shape; the element counts must agree.
    (Tensors are contiguous here; on a tensor with permuted strides the
    framework can refuse a view even when the counts agree.) *)
Definition view (sh : list nat) (t : tensor) : option tensor :=
  if numel sh =? length (data t) then Some (mk sh (data t)) else None.

(** [t.permute(perm)], materialised: output cell [idx] holds the input
    cell whose coordinate on axis [perm[j]] is [idx[j]]. *)
Definition permute (perm : list nat) (t : tensor) : tensor :=
  tabulate (pick (shape t) perm)
           (fun idx => tget t (pick idx (invperm perm))).

(** [t.flatten(start_dim, end_dim)]. *)
Definition flatten (start_dim end_dim : Z) (t : tensor) : tensor :=
  let r := length (shape t) in
  let s := dim_index r start_dim in
  let e := dim_index r end_dim in
  mk (firstn s (shape t)
        ++ numel (firstn (S e - s) (skipn s (shape t)))
        :: skipn (S e) (shape t))
     (data t).

(** [t.unsqueeze(d)]. *)
Definition unsqueeze (d : nat) (t : tensor) : tensor :=
  mk (firstn d (shape t) ++ 1 :: skipn d (shape t)) (data t).

(** Broadcasting of a value of shape [vs] onto a target of shape [ts] of
    the same rank: every dimension agrees or the value's is 1.  Cell [idx]
    of the target then reads cell [bindex idx vs] of the value. *)
Definition broadcastable (vs ts : list nat) : bool :=
  (length vs =? length ts)
  && forallb (fun '(dv, dt) => (dv =? dt) || (dv =? 1)) (combine vs ts).

Definition bindex (idx vs : list nat) : list nat :=
  map (fun '(i, dv) => i mod dv) (combine idx vs).

(** [t.repeat(reps)] with as many repeat counts as dimensions. *)
Definition repeat_t (reps : list nat) (t : tensor) : tensor :=
  tabulate (map (fun '(d, r) => d * r) (combine (shape t) reps))
           (fun idx => tget t (bindex idx (shape t))).


(** [t[a:b]] along the first dimension.  On a tensor without dimensions
    the framework raises where this returns the tensor: the embedding can
    return where the code raises there, never the converse. *)
Definition rows (a b : nat) (t : tensor) : tensor :=
  match shape t with
  | [] => t
  | n :: sh' =>
      let a' := clamp n a in
      let b' := clamp n b in
      mk ((b' - a') :: sh') (slice (a' * numel sh') (b' * numel sh') (data t))
  end.

(** [t[i]] along the first dimension; out of range raises. *)
Definition select (i : nat) (t : tensor) : option tensor :=
  match shape t with
  | [] => None
  | n :: sh' =>
      if i <? n
      then Some (mk sh' (slice (i * numel sh') (S i * numel sh') (data t)))
      else None
  end.

(** [torch.stack(ts, dim=0)]: a non-empty list of equally shaped tensors. *)
Definition same_shape (sh : list nat) (t : tensor) : bool :=
  if list_eq_dec Nat.eq_dec (shape t) sh then true else false.

Definition stack (ts : list tensor) : option tensor :=
  match ts with
  | [] => None
  | t0 :: _ =>
      if forallb (same_shape (shape t0)) ts
      then Some (mk (length ts :: shape t0) (concat (map data ts)))
      else None
  end.

(** [t[i, a:b] = v] ([c = None]) and [t[i, a:b, c] = v] ([c = Some _]).
    The slice bounds are clamped as Python does; [i] or [c] out of range
    and a value that does not broadcast raise. *)
Definition setitem (t : tensor) (i a b : nat) (c : option nat) (v : tensor)
    : option tensor :=
  match shape t with
  | B :: T :: rest =>
      let a' := clamp T a in
      let b' := clamp T b in
      match c with
      | None =>
          if (i <? B) && broadcastable (shape v) ((b' - a') :: rest)
          then Some (tabulate (shape t) (fun idx =>
                 match idx with
                 | i' :: s :: r =>
                     if (i' =? i) && (a' <=? s) && (s <? b')
                     then tget v (bindex ((s - a') :: r) (shape v))
                     else tget t idx
                 | _ => tget t idx
                 end))
          else None
      | Some c =>
          match rest with
          | [K] =>
              if (i <? B) && (c <? K) && broadcastable (shape v) [b' - a']
              then Some (tabulate (shape t) (fun idx =>
                     match idx with
                     | [i'; s; c'] =>
                         if (i' =? i) && (a' <=? s) && (s <? b') && (c' =? c)
                         then tget v (bindex [s - a'] (shape v))
                         else tget t idx
                     | _ => tget t idx
                     end))
              else None
          | _ => None
          end
      end
  | _ => None
  end.

(** A Python scalar on the right-hand side of an assignment. *)
Definition scalar (x : A) : tensor := mk [1] [x].

(** [t[..., a:a+n]] on the last of three dimensions (one piece of
    [torch.split]). *)
Definition narrow_last (a n : nat) (t : tensor) : option tensor :=
  match shape t with
  | [B; T; K] =>
      if a + n <=? K
      then Some (tabulate [B; T; n] (fun idx =>
             match idx with
             | [b; s; k] => tget t [b; s; a + k]
             | _ => zero
             end))
      else None
  | _ => None
  end.

(** [torch.cat(parts, dim=-1)] of three-dimensional tensors. *)
Fixpoint cat_get (parts : list tensor) (b s d : nat) : A :=
  match parts with
  | [] => zero
  | p :: ps =>
      let D := nth 2 (shape p) 0 in
      if d <? D then tget p [b; s; d] else cat_get ps b s (d - D)
  end.

Definition cat_last (parts : list tensor) : option tensor :=
  match parts with
  | [] => None
  | p0 :: _ =>
      match shape p0 with
      | [B; T; _] =>
          if forallb (fun p => match shape p with
                               | [B'; S'; _] => (B' =? B) && (S' =? T)
                               | _ => false
                               end) parts
          then Some (tabulate
                       [B; T; list_sum (map (fun p => nth 2 (shape p) 0) parts)]
                       (fun idx => match idx with
                                   | [b; s; d] => cat_get parts b s d
                                   | _ => zero
                                   end))
          else None
      | _ => None
      end
  end.

End Elements.

Arguments mk {A} _ _.
Arguments shape {A} _.
Arguments data {A} _.
Arguments wf {A} _.
Arguments tget {A} _ _ _.
Arguments tabulate {A} _ _.
Arguments zeros {A} _ _.
Arguments view {A} _ _.
Arguments permute {A} _ _ _.
Arguments flatten {A} _ _ _.
Arguments unsqueeze {A} _ _.
Arguments repeat_t {A} _ _ _.
Arguments rows {A} _ _ _.
Arguments select {A} _ _.
Arguments same_shape {A} _ _.
Arguments stack {A} _.
Arguments setitem {A} _ _ _ _ _ _ _.
Arguments scalar {A} _.
Arguments narrow_last {A} _ _ _ _.
Arguments cat_last {A} _ _.
Arguments cat_get {A} _ _ _ _ _.

End Tensor.
Import Tensor.


(** [torch.arange(n)] as a one-dimensional tensor. *)
Definition arange (n : nat) : tensor nat := mk [n] (seq 0 n).

(** [max(...)] of a Python iterable; empty raises. *)
Definition max_list (l : list nat) : option nat :=
  match l with
  | [] => None
  | x :: l' => Some (fold_left Nat.max l' x)
  end.

Fixpoint mapM {X Y : Type} (f : X -> option Y) (l : list X) : option (list Y) :=
  match l with
  | [] => Some []
  | x :: l' =>
      let? y := f x in
      let? ys := mapM f l' in
      Some (y :: ys)
  end.

(** [for i in range(n): acc = body(acc, i)], stopping at the first raise. *)
Fixpoint for_range {X : Type} (body : X -> nat -> option X) (acc : X)
    (js : list nat) : option X :=
  match js with
  | [] => Some acc
  | i :: js' => let? acc' := body acc i in for_range body acc' js'
  end.

Inductive device : Type := cpu | cuda (n : nat).

(** ** Rotary tables *)

Module RopeEmbedder.
Section Rope.

Variable F : Type.   (* real scalars: [theta] *)
Variable E : Type.   (* complex64 entries *)
Variable zero_e : E.
(** [cis theta d p k]: the complex64 value
    [polar(1, float32(p * (1.0 / theta ** (2k / d))))] of lines 40-47. *)
Variable cis : F -> nat -> nat -> nat -> E.

(** Lines 38-50.  [zip] stops at the shorter list; [arange(0, d, 2)] has
    [ceil(d / 2)] entries. *)
Definition precompute_freqs_cis (dim end_ : list nat) (theta : F)
    : list (tensor E) :=
  map (fun '(d, e) =>
         tabulate [e; (d + 1) / 2]
           (fun idx => match idx with
                       | [p; k] => cis theta d p k
                       | _ => zero_e
                       end))
      (combine dim end_).

(** A table together with the device it currently lives on. *)
Record t : Type := {
  theta : F;
  axes_dims : list nat;
  axes_lens : list nat;
  freqs_cis : list (device * tensor E)
}.

(** [RopeEmbedder.__init__]: the tables are built on the CPU. *)
Definition init (theta : F) (axes_dims axes_lens : list nat) : t :=
  {| theta := theta;
     axes_dims := axes_dims;
     axes_lens := axes_lens;
     freqs_cis :=
       map (fun tb => (cpu, tb)) (precompute_freqs_cis axes_dims axes_lens theta) |}.

(** Lines 489-500 for one axis: [out[b, s, d] = table[ids[b, s, i], d]];
    [torch.gather] raises on an index outside the table. *)
Definition gather_axis (tb : tensor E) (ids : tensor nat) (i : nat)
    : option (tensor E) :=
  match shape ids, shape tb with
  | [B; T; K], [L; D] =>
      let n := clamp K (i + 1) - clamp K i in
      if forallb (fun k => tget 0 ids (unravel [B; T] k ++ [i]) <? L)
                 (seq 0 (if n * D =? 0 then 0 else B * T))
      then Some (tabulate [B; T; n * D] (fun idx =>
             match idx with
             | [b; s; d] => tget zero_e tb [tget 0 ids [b; s; i]; d]
             | _ => zero_e
             end))
      else None
  | _, _ => None
  end.

(** [RopeEmbedder.__call__]: line 486 rebinds [self.freqs_cis] to the tables
    moved to the device of [ids]; the new embedder is returned next to the
    result, also when the gather raises. *)
Definition call (self : t) (dev : device) (ids : tensor nat)
    : t * option (tensor E) :=
  let fc := map (fun '(_, tb) => (dev, tb)) (freqs_cis self) in
  let self' := {| theta := theta self;
                  axes_dims := axes_dims self;
                  axes_lens := axes_lens self;
                  freqs_cis := fc |} in
  (self',
   let? result :=
     mapM (fun i => let? (_, tb) := nth_error fc i in gather_axis tb ids i)
          (seq 0 (length (axes_dims self))) in
   cat_last zero_e result).

(** The entries of the tables, whatever device holds them. *)
Definition tables (self : t) : list (tensor E) := map snd (freqs_cis self).

End Rope.

Arguments theta {F E} _.
Arguments axes_dims {F E} _.
Arguments axes_lens {F E} _.
Arguments freqs_cis {F E} _.
Arguments tables {F E} _.
Arguments call {F E} _ _ _ _.
Arguments gather_axis {E} _ _ _ _.

End RopeEmbedder.

(** ** Grouped-query attention *)

Module JointAttention.
Section Attention.

Variable A : Type.   (* activations *)
Variable E : Type.   (* rotary entries *)
Variable zero : A.

(** Floating-point kernels of the framework, taken as given: the two
    linear maps, RMS normalisation, the rotary product of lines 99-103 and
    the values computed by [F.scaled_dot_product_attention]. *)
Variable linear_qkv : tensor A -> tensor A.
Variable linear_out : tensor A -> tensor A.
Variable rms_norm : tensor A -> tensor A.
Variable apply_rotary_emb : tensor A -> tensor E -> tensor A.
Variable sdpa_values :
  tensor A -> tensor A -> tensor A -> tensor bool -> nat -> list A.

Record t : Type := {
  n_kv_heads : nat;
  n_local_heads : nat;
  n_local_kv_heads : nat;
  n_rep : nat;
  head_dim : nat;
  qk_norm : bool
}.

(** [JointAttention.__init__], lines 169-173. *)
Definition init (dim n_heads : nat) (n_kv_heads : option nat) (qk_norm : bool)
    : option t :=
  let kv := match n_kv_heads with None => n_heads | Some k => k end in
  let? n_rep := floordiv n_heads kv in
  let? head_dim := floordiv dim n_heads in
  Some {| n_kv_heads := kv;
          n_local_heads := n_heads;
          n_local_kv_heads := kv;
          n_rep := n_rep;
          head_dim := head_dim;
          qk_norm := qk_norm |}.

Definition q_norm (self : t) (x : tensor A) : tensor A :=
  if qk_norm self then rms_norm x else x.

Definition k_norm (self : t) (x : tensor A) : tensor A :=
  if qk_norm self then rms_norm x else x.

(** Lines 227-229: [x.unsqueeze(3).repeat(1, 1, 1, n_rep, 1).flatten(2, 3)]
    under the guard [n_rep >= 1]. *)
Definition repeat_kv (n_rep : nat) (x : tensor A) : tensor A :=
  if 1 <=? n_rep
  then flatten 2 3 (repeat_t zero [1; 1; 1; n_rep; 1] (unsqueeze 3 x))
  else x.

(** The shape rule of the framework's attention kernel: queries
    [B, H, L, E], keys [B, H, S, E], values [B, H, S, Ev] and a mask
    [B, H, L, S] give [B, H, L, Ev]; other shapes raise. *)
Definition scaled_dot_product_attention (q k v : tensor A)
    (attn_mask : tensor bool) (head_dim : nat) : option (tensor A) :=
  match shape q, shape k, shape v with
  | [B; H; L; Dq], [Bk; Hk; Sk; Dk], [Bv; Hv; Sv; Dv] =>
      if (Bk =? B) && (Bv =? B) && (Hk =? H) && (Hv =? H)
         && (Dk =? Dq) && (Sv =? Sk)
         && same_shape [B; H; L; Sk] attn_mask
      then Some (mk [B; H; L; Dv] (sdpa_values q k v attn_mask head_dim))
      else None
  | _, _, _ => None
  end.

(** Lines 202-244: the attention output before the output projection. *)
Definition attend (self : t) (x : tensor A) (x_mask : tensor bool)
    (freqs_cis : tensor E) : option (tensor A) :=
  match shape x with
  | [bsz; seqlen; _] =>
      let nq := n_local_heads self * head_dim self in
      let nkv := n_local_kv_heads self * head_dim self in
      let y := linear_qkv x in
      if negb (nth 2 (shape y) 0 =? nq + nkv + nkv) then None else
      let? xq := narrow_last zero 0 nq y in
      let? xk := narrow_last zero nq nkv y in
      let? xv := narrow_last zero (nq + nkv) nkv y in
      let? xq := view [bsz; seqlen; n_local_heads self; head_dim self] xq in
      let? xk := view [bsz; seqlen; n_local_kv_heads self; head_dim self] xk in
      let? xv := view [bsz; seqlen; n_local_kv_heads self; head_dim self] xv in
      let xq := q_norm self xq in
      let xk := k_norm self xk in
      let xq := apply_rotary_emb xq freqs_cis in
      let xk := apply_rotary_emb xk freqs_cis in
      if head_dim self =? 0 then None else
      let? n_rep := floordiv (n_local_heads self) (n_local_kv_heads self) in
      let xk := repeat_kv n_rep xk in
      let xv := repeat_kv n_rep xv in
      let? m := view [bsz; 1; 1; seqlen] x_mask in
      let attn_mask := repeat_t false [1; n_local_heads self; seqlen; 1] m in
      let? o := scaled_dot_product_attention
                  (permute zero [0; 2; 1; 3] xq)
                  (permute zero [0; 2; 1; 3] xk)
                  (permute zero [0; 2; 1; 3] xv)
                  attn_mask (head_dim self) in
      Some (flatten (-2) (-1) (permute zero [0; 2; 1; 3] o))
  | _ => None
  end.

(** [JointAttention.forward]. *)
Definition forward (self : t) (x : tensor A) (x_mask : tensor bool)
    (freqs_cis : tensor E) : option (tensor A) :=
  let? output := attend self x x_mask freqs_cis in
  Some (linear_out output).

End Attention.

Arguments repeat_kv {A} _ _ _.

End JointAttention.

(** ** The model object *)

(** What [forward] takes and hands back: a Python list of image tensors or
    one batched tensor. *)
Inductive images (A : Type) : Type :=
| ImgList (l : list (tensor A))
| ImgTensor (t : tensor A).
Arguments ImgList {A} _.
Arguments ImgTensor {A} _.

(** [isinstance(x, torch.Tensor)]. *)
Definition is_tensor {A : Type} (x : images A) : bool :=
  match x with
  | ImgTensor _ => true
  | ImgList _ => false
  end.

(** Whether all images of a batch share one height and width. *)
Definition same_sizes {A : Type} (imgs : list (tensor A)) : bool :=
  match imgs with
  | [] => true
  | img0 :: rest =>
      forallb (fun img =>
                 (nth 1 (shape img) 0 =? nth 1 (shape img0) 0)
                 && (nth 2 (shape img) 0 =? nth 2 (shape img0) 0))
              rest
  end.

Definition count_true (l : list bool) : nat := length (filter (fun b => b) l).

(** [cap_mask.sum(dim=1).tolist()] on a two-dimensional mask. *)
Definition sum_dim1 (m : tensor bool) : option (list nat) :=
  match shape m with
  | [B; L] =>
      Some (map (fun i => count_true (slice (i * L) ((i + 1) * L) (data m)))
                (seq 0 B))
  | _ => None
  end.

Section Model.

Variable A : Type.   (* activations and pixels *)
Variable F : Type.   (* real scalars *)
Variable E : Type.   (* rotary entries *)
Variable zero : A.
Variable zero_e : E.
Variable cis : F -> nat -> nat -> nat -> E.

(** The sub-modules of [Lumina], as the functions they compute.  The
    refiner and layer stacks stand for the whole loop over their blocks;
    gradient checkpointing changes how the value is obtained, not the
    value. *)
Record modules : Type := {
  x_embedder : tensor A -> tensor A;
  noise_refiner : tensor A -> tensor bool -> tensor E -> tensor A -> tensor A;
  context_refiner : tensor A -> tensor bool -> tensor E -> tensor A;
  t_embedder : tensor A -> tensor A;
  cap_embedder : tensor A -> tensor A;
  layers : tensor A -> tensor bool -> tensor E -> tensor A -> tensor A;
  final_layer : tensor A -> tensor A -> tensor A
}.

Record Lumina : Type := {
  in_channels : nat;
  out_channels : nat;
  patch_size : nat;
  nn : modules;
  axes_dims : list nat;
  axes_lens : list nat;
  rope_embedder : RopeEmbedder.t F E;
  dim : nat;
  n_heads : nat
}.

(** [Lumina.__init__]: [out_channels] is set from [in_channels] (line 528);
    line 603 asserts [dim // n_heads == sum(axes_dims)], and [n_heads = 0]
    makes the floor division raise. *)
Definition Lumina_init (theta : F) (nn : modules)
    (patch_size in_channels dim n_heads : nat)
    (axes_dims axes_lens : list nat) : option Lumina :=
  let? head_dim := floordiv dim n_heads in
  if head_dim =? list_sum axes_dims
  then Some {| in_channels := in_channels;
               out_channels := in_channels;
               patch_size := patch_size;
               nn := nn;
               axes_dims := axes_dims;
               axes_lens := axes_lens;
               rope_embedder := RopeEmbedder.init F E zero_e cis theta axes_dims axes_lens;
               dim := dim;
               n_heads := n_heads |}
  else None.

Definition with_rope (self : Lumina) (r : RopeEmbedder.t F E) : Lumina :=
  {| in_channels := in_channels self;
     out_channels := out_channels self;
     patch_size := patch_size self;
     nn := nn self;
     axes_dims := axes_dims self;
     axes_lens := axes_lens self;
     rope_embedder := r;
     dim := dim self;
     n_heads := n_heads self |}.

(** [len(x)], [x[i]] and iteration over a list or a batched tensor. *)
Definition samples (x : images A) : option (list (tensor A)) :=
  match x with
  | ImgList l => Some l
  | ImgTensor t =>
      let? n := hd_error (shape t) in
      mapM (fun i => select i t) (seq 0 n)
  end.

(** Lines 699-706: one image through
    [view(C, H // pH, pH, W // pW, pW).permute(1, 3, 2, 4, 0).flatten(2).flatten(0, 1)];
    [img.size()] must unpack into three numbers. *)
Definition patchify_image (pH pW : nat) (img : tensor A) : option (tensor A) :=
  match shape img with
  | [C; H; W] =>
      let? H_tokens := floordiv H pH in
      let? W_tokens := floordiv W pW in
      let? v := view [C; H_tokens; pH; W_tokens; pW] img in
      Some (flatten 0 1 (flatten 2 (-1) (permute zero [1; 3; 2; 4; 0] v)))
  | _ => None
  end.

(** Lines 758-767: one sample of [unpatchify]. *)
Definition unpatchify_image (pH pW out_ch : nat) (xi : tensor A)
    (H W begin : nat) : option (tensor A) :=
  let? H_tokens := floordiv H pH in
  let? W_tokens := floordiv W pW in
  let end_ := begin + H_tokens * W_tokens in
  let? v := view [H_tokens; W_tokens; pH; pW; out_ch] (rows begin end_ xi) in
  Some (flatten 1 2 (flatten 3 4 (permute zero [4; 0; 2; 1; 3] v))).

(** [Lumina.unpatchify]. *)
Definition unpatchify (self : Lumina) (x : tensor A)
    (img_size : list (nat * nat)) (cap_size : list nat)
    (return_tensor : bool) : option (images A) :=
  let pH := patch_size self in
  let pW := patch_size self in
  let? n := hd_error (shape x) in
  let? imgs :=
    mapM (fun i =>
            let? (H, W) := nth_error img_size i in
            let? begin := nth_error cap_size i in
            let? xi := select i x in
            unpatchify_image pH pW (out_channels self) xi H W begin)
         (seq 0 n) in
  if return_tensor
  then let? s := stack imgs in Some (ImgTensor s)
  else Some (ImgList imgs).

(** *** [patchify_and_embed], stage by stage *)

Record lengths : Type := {
  bsz : nat;
  l_effective_cap_len : list nat;
  img_sizes : list (nat * nat);
  l_effective_img_len : list nat;
  max_seq_len : nat;
  max_cap_len : nat;
  max_img_len : nat
}.

(** Lines 620-635.  [x[0].device] and the three [max] calls raise on an
    empty batch. *)
Definition pack_lengths (pH pW : nat) (imgs : list (tensor A))
    (cap_mask : tensor bool) : option lengths :=
  let? _ := hd_error imgs in
  let? l_cap := sum_dim1 cap_mask in
  let? sizes :=
    mapM (fun img => match shape img with
                     | _ :: H :: W :: _ => Some (H, W)
                     | _ => None
                     end) imgs in
  let? l_img :=
    mapM (fun '(H, W) =>
            let? h := floordiv H pH in
            let? w := floordiv W pW in
            Some (h * w)) sizes in
  let? max_seq := max_list (map (fun '(c, i) => c + i) (combine l_cap l_img)) in
  let? max_cap := max_list l_cap in
  let? max_img := max_list l_img in
  Some {| bsz := length imgs;
          l_effective_cap_len := l_cap;
          img_sizes := sizes;
          l_effective_img_len := l_img;
          max_seq_len := max_seq;
          max_cap_len := max_cap;
          max_img_len := max_img |}.

(** Lines 642-665: the body of the position-id loop for sample [i]. *)
Definition position_ids_body (pH pW : nat) (ln : lengths)
    (position_ids : tensor nat) (i : nat) : option (tensor nat) :=
  let? cap_len := nth_error (l_effective_cap_len ln) i in
  let? img_len := nth_error (l_effective_img_len ln) i in
  let? (H, W) := nth_error (img_sizes ln) i in
  let? H_tokens := floordiv H pH in
  let? W_tokens := floordiv W pW in
  if negb (H_tokens * W_tokens =? img_len) then None else
  let? p1 := setitem 0 position_ids i 0 cap_len (Some 0) (arange cap_len) in
  let? p2 := setitem 0 p1 i cap_len (cap_len + img_len) (Some 0)
               (scalar cap_len) in
  let? rv := view [H_tokens; 1] (arange H_tokens) in
  let row_ids := flatten 0 (-1) (repeat_t 0 [1; W_tokens] rv) in
  let? cv := view [1; W_tokens] (arange W_tokens) in
  let col_ids := flatten 0 (-1) (repeat_t 0 [H_tokens; 1] cv) in
  let? p3 := setitem 0 p2 i cap_len (cap_len + img_len) (Some 1) row_ids in
  setitem 0 p3 i cap_len (cap_len + img_len) (Some 2) col_ids.

(** Lines 637-665. *)
Definition pack_position_ids (pH pW : nat) (ln : lengths)
    : option (tensor nat) :=
  for_range (position_ids_body pH pW ln)
            (zeros 0 [bsz ln; max_seq_len ln; 3])
            (seq 0 (bsz ln)).

(** Lines 669-687: the caption-only and image-only slices of the rotary
    lookup. *)
Definition pack_freqs (ln : lengths) (cap_feats : tensor A)
    (freqs_cis : tensor E) : option (tensor E * tensor E) :=
  match shape freqs_cis with
  | f0 :: _ :: frest =>
      let? cap_l := nth_error (shape cap_feats) 1 in
      for_range
        (fun '(cap_fc, img_fc) i =>
           let? cap_len := nth_error (l_effective_cap_len ln) i in
           let? img_len := nth_error (l_effective_img_len ln) i in
           let? fi := select i freqs_cis in
           let? cap_fc' := setitem zero_e cap_fc i 0 cap_len None
                             (rows 0 cap_len fi) in
           let? img_fc' := setitem zero_e img_fc i 0 img_len None
                             (rows cap_len (cap_len + img_len) fi) in
           Some (cap_fc', img_fc'))
        (zeros zero_e (f0 :: cap_l :: frest),
         zeros zero_e (f0 :: max_img_len ln :: frest))
        (seq 0 (bsz ln))
  | _ => None
  end.

(** Lines 697-715: patch tokens of every image, padded to [max_img_len]. *)
Definition pack_images (pH pW : nat) (ln : lengths) (imgs : list (tensor A))
    : option (tensor A * tensor bool) :=
  let? flat_x := mapM (patchify_image pH pW) imgs in
  let? x0 := hd_error flat_x in
  let? d := hd_error (rev (shape x0)) in
  for_range
    (fun '(embed, msk) i =>
       let? img_len := nth_error (l_effective_img_len ln) i in
       let? xi := nth_error flat_x i in
       let? embed' := setitem zero embed i 0 img_len None xi in
       let? msk' := setitem false msk i 0 img_len None (scalar true) in
       Some (embed', msk'))
    (zeros zero [bsz ln; max_img_len ln; d],
     zeros false [bsz ln; max_img_len ln])
    (seq 0 (bsz ln)).

(** Lines 728-740: the joint sequence and its validity mask. *)
Definition pack_full (dim : nat) (ln : lengths)
    (cap_feats padded_img_embed : tensor A)
    : option (tensor bool * tensor A) :=
  for_range
    (fun '(mask, full) i =>
       let? cap_len := nth_error (l_effective_cap_len ln) i in
       let? img_len := nth_error (l_effective_img_len ln) i in
       let? mask' := setitem false mask i 0 (cap_len + img_len) None
                       (scalar true) in
       let? ci := select i cap_feats in
       let? full1 := setitem zero full i 0 cap_len None (rows 0 cap_len ci) in
       let? pi := select i padded_img_embed in
       let? full2 := setitem zero full1 i cap_len (cap_len + img_len) None
                       (rows 0 img_len pi) in
       Some (mask', full2))
    (zeros false [bsz ln; max_seq_len ln],
     zeros zero [bsz ln; max_seq_len ln; dim])
    (seq 0 (bsz ln)).

Definition packed : Type :=
  (tensor A * tensor bool * list (nat * nat) * list nat * tensor E)%type.

(** [Lumina.patchify_and_embed].  [dev] is [x[0].device].  The model comes
    back with its rotary embedder as the call at line 667 left it. *)
Definition patchify_and_embed (self : Lumina) (dev : device) (x : images A)
    (cap_feats : tensor A) (cap_mask : tensor bool) (t : tensor A)
    : Lumina * option packed :=
  let pH := patch_size self in
  let pW := patch_size self in
  match
    (let? imgs := samples x in
     let? ln := pack_lengths pH pW imgs cap_mask in
     let? position_ids := pack_position_ids pH pW ln in
     Some (imgs, ln, position_ids))
  with
  | None => (self, None)
  | Some (imgs, ln, position_ids) =>
      let (rope, looked_up) :=
        RopeEmbedder.call zero_e (rope_embedder self) dev position_ids in
      (with_rope self rope,
       let? freqs_cis := looked_up in
       let? (cap_freqs_cis, img_freqs_cis) := pack_freqs ln cap_feats freqs_cis in
       let cap_feats := context_refiner (nn self) cap_feats cap_mask cap_freqs_cis in
       let? (padded_img_embed, padded_img_mask) := pack_images pH pW ln imgs in
       let padded_img_embed := x_embedder (nn self) padded_img_embed in
       let padded_img_embed :=
         noise_refiner (nn self) padded_img_embed padded_img_mask img_freqs_cis t in
       let? (mask, padded_full_embed) :=
         pack_full (dim self) ln cap_feats padded_img_embed in
       Some (padded_full_embed, mask, img_sizes ln, l_effective_cap_len ln,
             freqs_cis))
  end.

(** [Lumina.forward]. *)
Definition forward (self : Lumina) (dev : device) (x : images A)
    (t cap_feats : tensor A) (cap_mask : tensor bool)
    : Lumina * option (images A) :=
  let t := t_embedder (nn self) t in
  let adaln_input := t in
  let cap_feats := cap_embedder (nn self) cap_feats in
  let x_is_tensor := is_tensor x in
  let (self', r) := patchify_and_embed self dev x cap_feats cap_mask t in
  (self',
   let? (x, mask, img_size, cap_size, freqs_cis) := r in
   let x := layers (nn self') x mask freqs_cis adaln_input in
   let x := final_layer (nn self') x adaln_input in
   unpatchify self' x img_size cap_size x_is_tensor).

(** One call of [forward], and a model taken through a sequence of calls. *)
Record call_args : Type := {
  call_device : device;
  call_x : images A;
  call_t : tensor A;
  call_cap_feats : tensor A;
  call_cap_mask : tensor bool
}.

Definition forward_call (self : Lumina) (c : call_args)
    : Lumina * option (images A) :=
  forward self (call_device c) (call_x c) (call_t c) (call_cap_feats c)
          (call_cap_mask c).

Definition run_forwards (self : Lumina) (calls : list call_args) : Lumina :=
  fold_left (fun m c => fst (forward_call m c)) calls self.

End Model.

Arguments x_embedder {A E} _ _.
Arguments noise_refiner {A E} _ _ _ _ _.
Arguments context_refiner {A E} _ _ _ _.
Arguments t_embedder {A E} _ _.
Arguments cap_embedder {A E} _ _.
Arguments layers {A E} _ _ _ _ _.
Arguments final_layer {A E} _ _ _.
Arguments in_channels {A F E} _.
Arguments out_channels {A F E} _.
Arguments patch_size {A F E} _.
Arguments nn {A F E} _.
Arguments axes_dims {A F E} _.
Arguments axes_lens {A F E} _.
Arguments rope_embedder {A F E} _.
Arguments dim {A F E} _.
Arguments n_heads {A F E} _.
Arguments Lumina_init {A F E} _ _ _ _ _ _ _ _ _ _.
Arguments with_rope {A F E} _ _.
Arguments samples {A} _.
Arguments patchify_image {A} _ _ _ _.
Arguments unpatchify_image {A} _ _ _ _ _ _ _ _.
Arguments unpatchify {A F E} _ _ _ _ _ _.
Arguments pack_lengths {A} _ _ _ _.
Arguments pack_freqs {A E} _ _ _ _.
Arguments pack_images {A} _ _ _ _ _.
Arguments pack_full {A} _ _ _ _ _.
Arguments patchify_and_embed {A F E} _ _ _ _ _ _ _ _.
Arguments forward {A F E} _ _ _ _ _ _ _ _.
Arguments call_device {A} _.
Arguments call_x {A} _.
Arguments call_t {A} _.
Arguments call_cap_feats {A} _.
Arguments call_cap_mask {A} _.
Arguments forward_call {A F E} _ _ _ _.
Arguments run_forwards {A F E} _ _ _ _.

(** ** Concrete instances used to run the model

    Pixels are integers, rotary entries are (axis dimension, position,
    frequency index) triples, and every layer returns its first input
    unchanged, so that shapes and element positions can be followed through
    a whole forward pass. *)

Definition id_modules : @modules Z (nat * nat * nat) :=
  {| x_embedder := fun x => x;
     noise_refiner := fun x _ _ _ => x;
     context_refiner := fun c _ _ => c;
     t_embedder := fun t => t;
     cap_embedder := fun c => c;
     layers := fun x _ _ _ => x;
     final_layer := fun x _ => x |}.

Definition tag_cis (_ : unit) (d p k : nat) : nat * nat * nat := (d, p, k).

Definition iota (sh : list nat) : tensor Z :=
  mk sh (map Z.of_nat (seq 1 (numel sh))).

(** The scenario of section 8 of the specification: patch size 2, one
    image of shape [4, 4, 4], caption mask [True, True, False, False]. *)
Definition scenario_model : option (@Lumina Z unit (nat * nat * nat)) :=
  Lumina_init (0, 0, 0) tag_cis tt id_modules 2 4 16 1 [4; 6; 6] [3; 2; 2].

Definition scenario_lumina : @Lumina Z unit (nat * nat * nat) :=
  {| in_channels := 4;
     out_channels := 4;
     patch_size := 2;
     nn := id_modules;
     axes_dims := [4; 6; 6];
     axes_lens := [3; 2; 2];
     rope_embedder :=
       RopeEmbedder.init unit (nat * nat * nat) (0, 0, 0) tag_cis tt [4; 6; 6] [3; 2; 2];
     dim := 16;
     n_heads := 1 |}.

Definition scenario_image : tensor Z := iota [4; 4; 4].
Definition scenario_cap_mask : tensor bool := mk [1; 4] [true; true; false; false].
Definition scenario_cap_feats : tensor Z := iota [1; 4; 16].
Definition scenario_t : tensor Z := iota [1; 16].

(** An image with no elements whose height is not a multiple of 2, and a
    batch that carries it next to the scenario's image. *)
Definition empty_image : tensor Z := mk [4; 3; 0] [].
Definition mixed_cap_mask : tensor bool :=
  mk [2; 4] [true; true; false; false; true; true; false; false].
Definition mixed_cap_feats : tensor Z := iota [2; 4; 16].
Definition mixed_t : tensor Z := iota [2; 16].

(** ** Closed forms used as loop invariants *)

(** Entry [c] of the position id of token [j] of sample [i], read off the
    assignments of lines 648-665. *)
Definition position_id_cell (p : nat) (ln : lengths) (i j c : nat) : nat :=
  match nth_error (l_effective_cap_len ln) i, nth_error (img_sizes ln) i with
  | Some cap_len, Some (H, W) =>
      if j <? cap_len then (if c =? 0 then j else 0)
      else if j <? cap_len + H / p * (W / p)
           then match c with
                | 0 => cap_len
                | 1 => (j - cap_len) / (W / p)
                | _ => (j - cap_len) mod (W / p)
                end
           else 0
  | _, _ => 0
  end.

(** Entry [j] of row [i] of the validity mask, read off line 736. *)
Definition mask_cell (ln : lengths) (i j : nat) : bool :=
  match nth_error (l_effective_cap_len ln) i,
        nth_error (l_effective_img_len ln) i with
  | Some cap_len, Some img_len => j <? cap_len + img_len
  | _, _ => false
  end.

(** The state of the position-id loop after [k] samples: the rows of the
    first [k] samples are final, the others still zero. *)
Definition ids_inv (p : nat) (ln : lengths) (k : nat) (pos : tensor nat) : Prop :=
  shape pos = [bsz ln; max_seq_len ln; 3]
  /\ k <= length (l_effective_cap_len ln)
  /\ forall i j c, i < bsz ln -> j < max_seq_len ln -> c < 3 ->
       tget 0 pos [i; j; c]
       = if i <? k then position_id_cell p ln i j c else 0.

(** The same for the mask built by the last loop of [patchify_and_embed]. *)
Definition mask_inv {A : Type} (ln : lengths) (k : nat)
    (st : tensor bool * tensor A) : Prop :=
  shape (fst st) = [bsz ln; max_seq_len ln]
  /\ wf (fst st)
  /\ k <= length (l_effective_cap_len ln)
  /\ forall i j, i < bsz ln -> j < max_seq_len ln ->
       tget false (fst st) [i; j]
       = if i <? k then mask_cell ln i j else false.

(** [position_ids[i, j]] as a triple. *)
Definition position_id (pos : tensor nat) (i j : nat) : nat * nat * nat :=
  (tget 0 pos [i; j; 0], tget 0 pos [i; j; 1], tget 0 pos [i; j; 2]).

(** The lengths and the position-id grid of the scenario. *)
Definition scenario_lengths : lengths :=
  {| bsz := 1;
     l_effective_cap_len := [2];
     img_sizes := [(4, 4)];
     l_effective_img_len := [4];
     max_seq_len := 6;
     max_cap_len := 2;
     max_img_len := 4 |}.

Definition scenario_position_ids : tensor nat :=
  mk [1; 6; 3] [0; 0; 0;  1; 0; 0;  2; 0; 0;  2; 0; 1;  2; 1; 0;  2; 1; 1].

(** The joint sequence and the rotary lookup the scenario produces. *)
Definition scenario_packed :=
  snd (patchify_and_embed 0%Z (0, 0, 0) scenario_lumina cpu
         (ImgList [scenario_image]) scenario_cap_feats scenario_cap_mask scenario_t).

Definition scenario_full : tensor Z :=
  Eval vm_compute in
    match scenario_packed with
    | Some (full, _, _, _, _) => full
    | None => zeros 0%Z []
    end.

Definition scenario_freqs : tensor (nat * nat * nat) :=
  Eval vm_compute in
    match scenario_packed with
    | Some (_, _, _, _, fc) => fc
    | None => zeros (0, 0, 0) []
    end.

(** Grouped-query attention with 8 query heads and 2 key/value heads of
    dimension 1, on one sample of two tokens: the projection numbers its
    outputs, normalisation and the rotary product pass their first input
    through, and the attention kernel returns [100 * k + v] for every key
    and value entry it is given. *)
Definition gqa_attention : JointAttention.t :=
  {| JointAttention.n_kv_heads := 2;
     JointAttention.n_local_heads := 8;
     JointAttention.n_local_kv_heads := 2;
     JointAttention.n_rep := 4;
     JointAttention.head_dim := 1;
     JointAttention.qk_norm := false |}.

Definition gqa_linear_qkv (_ : tensor Z) : tensor Z := iota [1; 2; 12].
Definition gqa_rms_norm (x : tensor Z) : tensor Z := x.
Definition gqa_rotary (x : tensor Z) (_ : tensor unit) : tensor Z := x.
Definition gqa_sdpa_values (q k v : tensor Z) (_ : tensor bool) (_ : nat)
    : list Z :=
  map (fun '(a, b) => (100 * a + b)%Z) (combine (data k) (data v)).

Definition gqa_attend (x : tensor Z) (x_mask : tensor bool) : option (tensor Z) :=
  JointAttention.attend Z unit 0%Z gqa_linear_qkv gqa_rms_norm gqa_rotary
    gqa_sdpa_values gqa_attention x x_mask (mk [1; 2; 1] [tt; tt]).

(** ** Feed-forward width *)

Module FeedForward.
Section Init.

Variable F : Type.   (* real scalars *)
(** [int(ffn_dim_multiplier * hidden_dim)] of line 272. *)
Variable int_mul : F -> Z -> Z.

(** Lines 271-273 of [FeedForward.__init__]: the width of [w1] and [w3],
    rounded up to a multiple of [multiple_of]; [multiple_of = 0] makes the
    floor division raise. *)
Definition init_hidden_dim (hidden_dim multiple_of : Z)
    (ffn_dim_multiplier : option F) : option Z :=
  let hidden_dim :=
    match ffn_dim_multiplier with
    | Some m => int_mul m hidden_dim
    | None => hidden_dim
    end in
  if (multiple_of =? 0)%Z then None
  else Some (multiple_of * ((hidden_dim + multiple_of - 1) / multiple_of))%Z.

(** Line 341: a [JointTransformerBlock] asks for [hidden_dim = 4 * dim]. *)
Definition block_hidden_dim (dim multiple_of : Z)
    (ffn_dim_multiplier : option F) : option Z :=
  init_hidden_dim (4 * dim) multiple_of ffn_dim_multiplier.

End Init.
End FeedForward.

(** ** Closed forms for the rotary lookup *)

(** The number of columns of the table of an axis of dimension [d]:
    [len(arange(0, d, 2))]. *)
Definition half_dim (d : nat) : nat := (d + 1) / 2.

(** The slice the lookup gathers for axis [i]: entry [[b, s, k]] is row
    [ids[b, s, i]], column [k] of the table of that axis. *)
Definition lookup_part {E : Type} (zero_e : E) (tables : list (tensor E))
    (dims : list nat) (ids : tensor nat) (B T : nat) (i : nat) : tensor E :=
  tabulate [B; T; 1 * half_dim (nth i dims 0)]
    (fun idx => match idx with
                | [b; s; d] =>
                    tget zero_e (nth i tables (zeros zero_e []))
                         [tget 0 ids [b; s; i]; d]
                | _ => zero_e
                end).

(** A caption mask with three valid tokens, as many as the caption axis of
    the scenario's tables has rows. *)
Definition long_cap_mask : tensor bool := mk [1; 4] [true; true; true; false].

(** ** Closed forms for the padded buffers *)

(** Entry [[i, j, k]] of [padded_img_embed] after the loop of lines
    713-715, given the patch tokens [flat_x]. *)
Definition image_cell {A : Type} (zero : A) (ln : lengths)
    (flat_x : list (tensor A)) (i j k : nat) : A :=
  match nth_error (l_effective_img_len ln) i, nth_error flat_x i with
  | Some img_len, Some xi =>
      if j <? img_len then tget zero xi (bindex [j; k] (shape xi)) else zero
  | _, _ => zero
  end.

(** Entry [[i, j]] of [padded_img_mask]. *)
Definition image_mask_cell (ln : lengths) (i j : nat) : bool :=
  match nth_error (l_effective_img_len ln) i with
  | Some img_len => j <? img_len
  | None => false
  end.

(** The state of that loop after [k] samples. *)
Definition images_inv {A : Type} (zero : A) (ln : lengths)
    (flat_x : list (tensor A)) (d : nat) (k : nat)
    (st : tensor A * tensor bool) : Prop :=
  shape (fst st) = [bsz ln; max_img_len ln; d]
  /\ shape (snd st) = [bsz ln; max_img_len ln]
  /\ (forall i j c, i < bsz ln -> j < max_img_len ln -> c < d ->
        tget zero (fst st) [i; j; c]
        = if i <? k then image_cell zero ln flat_x i j c else zero)
  /\ (forall i j, i < bsz ln -> j < max_img_len ln ->
        tget false (snd st) [i; j]
        = if i <? k then image_mask_cell ln i j else false).

(** Entry [[i, j, k]] of [padded_full_embed] after the loop of lines
    732-740. *)
Definition full_cell {A : Type} (zero : A) (ln : lengths)
    (cap_feats padded_img_embed : tensor A) (i j k : nat) : A :=
  match nth_error (l_effective_cap_len ln) i,
        nth_error (l_effective_img_len ln) i,
        select i cap_feats, select i padded_img_embed with
  | Some cap_len, Some img_len, Some ci, Some pi =>
      if j <? cap_len
      then tget zero (rows 0 cap_len ci)
                (bindex [j; k] (shape (rows 0 cap_len ci)))
      else if j <? cap_len + img_len
           then tget zero (rows 0 img_len pi)
                     (bindex [j - cap_len; k] (shape (rows 0 img_len pi)))
           else zero
  | _, _, _, _ => zero
  end.

Definition full_inv {A : Type} (zero : A) (dim : nat) (ln : lengths)
    (cap_feats padded_img_embed : tensor A) (k : nat)
    (st : tensor bool * tensor A) : Prop :=
  shape (snd st) = [bsz ln; max_seq_len ln; dim]
  /\ forall i j c, i < bsz ln -> j < max_seq_len ln -> c < dim ->
       tget zero (snd st) [i; j; c]
       = if i <? k then full_cell zero ln cap_feats padded_img_embed i j c
         else zero.

(** A batch of two images of different sizes under the caption mask
    [mixed_cap_mask], with the lengths and the buffers the packer builds for
    it. *)
Definition small_image : tensor Z := iota [4; 2; 2].
Definition pair_images : list (tensor Z) := [scenario_image; small_image].

Definition pair_lengths : lengths :=
  {| bsz := 2;
     l_effective_cap_len := [2; 2];
     img_sizes := [(4, 4); (2, 2)];
     l_effective_img_len := [4; 1];
     max_seq_len := 6;
     max_cap_len := 2;
     max_img_len := 4 |}.

Definition pair_padded : tensor Z * tensor bool :=
  Eval vm_compute in
    match pack_images 0%Z 2 2 pair_lengths pair_images with
    | Some r => r
    | None => (zeros 0%Z [], zeros false [])
    end.

Definition pair_full : tensor bool * tensor Z :=
  Eval vm_compute in
    match pack_full 0%Z 16 pair_lengths mixed_cap_feats (fst pair_padded) with
    | Some r => r
    | None => (zeros false [], zeros 0%Z [])
    end.

(** Attention with 8 query heads of dimension 2 and no [n_kv_heads], and
    an attention given more heads than dimensions. *)
Definition mha_attention : JointAttention.t :=
  {| JointAttention.n_kv_heads := 8;
     JointAttention.n_local_heads := 8;
     JointAttention.n_local_kv_heads := 8;
     JointAttention.n_rep := 1;
     JointAttention.head_dim := 2;
     JointAttention.qk_norm := false |}.

Definition thin_attention : JointAttention.t :=
  {| JointAttention.n_kv_heads := 8;
     JointAttention.n_local_heads := 8;
     JointAttention.n_local_kv_heads := 8;
     JointAttention.n_rep := 1;
     JointAttention.head_dim := 0;
     JointAttention.qk_norm := false |}.

(** The caption and image slices of the scenario's rotary lookup. *)
Definition scenario_split_freqs
    : tensor (nat * nat * nat) * tensor (nat * nat * nat) :=
  Eval vm_compute in
    match pack_freqs (0, 0, 0) scenario_lengths scenario_cap_feats
            scenario_freqs with
    | Some r => r
    | None => (zeros (0, 0, 0) [], zeros (0, 0, 0) [])
    end.

(** ** Timestep embedding *)

(** [torch.cat([a, b], dim=-1)] of two-dimensional tensors; the row counts
    must agree. *)
Definition cat_cols {A : Type} (zero : A) (a b : tensor A) : option (tensor A) :=
  match shape a, shape b with
  | [N; wa], [N'; wb] =>
      if N' =? N
      then Some (tabulate [N; wa + wb]
                   (fun idx => match idx with
                               | [n; k] => if k <? wa then tget zero a [n; k]
                                           else tget zero b [n; k - wa]
                               | _ => zero
                               end))
      else None
  | _, _ => None
  end.

(** [t[:, :n]] of a two-dimensional tensor. *)
Definition first_cols {A : Type} (zero : A) (n : nat) (t : tensor A)
    : option (tensor A) :=
  match shape t with
  | [N; w] =>
      Some (tabulate [N; clamp w n]
              (fun idx => match idx with
                          | [i; k] => tget zero t [i; k]
                          | _ => zero
                          end))
  | _ => None
  end.

(** An elementwise function ([torch.cos], [torch.sin]) and
    [torch.zeros_like]. *)
Definition map_t {A B : Type} (f : A -> B) (t : tensor A) : tensor B :=
  mk (shape t) (map f (data t)).

Definition zeros_like {A : Type} (zero : A) (t : tensor A) : tensor A :=
  zeros zero (shape t).

Module TimestepEmbedding.
Section Embedding.

Variable F : Type.   (* float32 *)
Variable zero : F.
(** [freq max_period half k]: entry [k] of
    [exp(-log(max_period) * arange(half) / half)], lines 64-68, for a
    positive [max_period]. *)
Variable freq : nat -> nat -> nat -> F.
Variable mul : F -> F -> F.
Variable cos sin : F -> F.

(** Lines 63-73, for a one-dimensional [t] given as the list of its
    entries; [math.log(0)] raises. *)
Definition timestep_embedding (t : list F) (dim max_period : nat)
    : option (tensor F) :=
  if max_period =? 0 then None else
  let half := dim / 2 in
  let freqs := mk [half] (map (freq max_period half) (seq 0 half)) in
  let args :=
    tabulate [length t; half]
      (fun idx => match idx with
                  | [n; k] => mul (nth n t zero) (tget zero freqs [k])
                  | _ => zero
                  end) in
  let? embedding := cat_cols zero (map_t cos args) (map_t sin args) in
  if negb (dim mod 2 =? 0)
  then let? first := first_cols zero 1 embedding in
       cat_cols zero embedding (zeros_like zero first)
  else Some embedding.

End Embedding.
End TimestepEmbedding.
(** ** Index lemmas *)

Lemma unravel_length sh : forall k, length (unravel sh k) = length sh.
Proof. induction sh as [|d sh IH]; intros k; simpl; [reflexivity | now rewrite IH]. Qed.

Lemma numel_cons d sh : numel (d :: sh) = d * numel sh.
Proof. reflexivity. Qed.

Lemma ravel_bound sh : forall idx, Forall2 lt idx sh -> ravel sh idx < numel sh.
Proof.
  induction sh as [|d sh IH]; intros idx Hb; inversion Hb; subst.
  - simpl. lia.
  - rewrite numel_cons. cbn [ravel].
    match goal with H : Forall2 lt _ sh |- _ => apply IH in H end.
    nia.
Qed.

Lemma unravel_ravel sh : forall idx, Forall2 lt idx sh -> unravel sh (ravel sh idx) = idx.
Proof.
  induction sh as [|d sh IH]; intros idx Hb; inversion Hb; subst.
  - reflexivity.
  - cbn [ravel unravel].
    match goal with H : Forall2 lt _ sh |- _ =>
      pose proof (ravel_bound _ _ H) as Hr; pose proof (IH _ H) as Hi end.
    assert (Hn : numel sh <> 0) by lia.
    f_equal.
    + rewrite Nat.div_add_l by exact Hn. rewrite Nat.div_small by exact Hr. lia.
    + rewrite Nat.add_comm, Nat.Div0.mod_add, Nat.mod_small by exact Hr. exact Hi.
Qed.

Lemma ravel_unravel sh : forall k, k < numel sh -> ravel sh (unravel sh k) = k.
Proof.
  induction sh as [|d sh IH]; intros k Hk.
  - simpl in *. lia.
  - rewrite numel_cons in Hk. cbn [ravel unravel].
    assert (Hn : numel sh <> 0) by nia.
    rewrite IH by (apply Nat.mod_upper_bound; exact Hn).
    pose proof (Nat.div_mod_eq k (numel sh)). nia.
Qed.

Lemma unravel_bounds sh : forall k, k < numel sh -> Forall2 lt (unravel sh k) sh.
Proof.
  induction sh as [|d sh IH]; intros k Hk.
  - constructor.
  - rewrite numel_cons in Hk. cbn [unravel].
    assert (Hn : numel sh <> 0) by nia.
    constructor.
    + apply Nat.Div0.div_lt_upper_bound. nia.
    + apply IH. apply Nat.mod_upper_bound. exact Hn.
Qed.

Lemma nth_tabulate {A} (zero : A) sh f k :
  k < numel sh ->
  nth k (data (tabulate sh f)) zero = f (unravel sh k).
Proof.
  intros Hk. unfold tabulate. cbn [data].
  rewrite nth_indep with (d' := f (unravel sh 0)) by (now rewrite length_map, length_seq).
  rewrite (map_nth (fun k => f (unravel sh k)) (seq 0 (numel sh)) 0 k).
  now rewrite seq_nth.
Qed.

Lemma tget_tabulate {A} (zero : A) sh f idx :
  Forall2 lt idx sh -> tget zero (tabulate sh f) idx = f idx.
Proof.
  intros Hb. unfold tget. cbn [shape].
  rewrite nth_tabulate by (now apply ravel_bound).
  now rewrite unravel_ravel.
Qed.

Lemma tabulate_wf {A} sh (f : list nat -> A) : wf (tabulate sh f).
Proof. unfold wf, tabulate. cbn [data shape]. now rewrite length_map, length_seq. Qed.


Lemma tabulate_data {A} (zero : A) sh f l :
  length l = numel sh ->
  (forall k, k < numel sh -> f (unravel sh k) = nth k l zero) ->
  data (tabulate sh f) = l.
Proof.
  intros Hl Hf.
  apply (nth_ext _ _ zero zero).
  - rewrite Hl. apply tabulate_wf.
  - intros k Hk.
    assert (Hk' : k < numel sh) by (rewrite <- (tabulate_wf sh f); exact Hk).
    rewrite nth_tabulate by exact Hk'. now apply Hf.
Qed.

Ltac inv_bounds :=
  repeat match goal with
         | H : Forall2 lt _ (_ :: _) |- _ => inversion H; subst; clear H
         | H : Forall2 lt _ [] |- _ => inversion H; subst; clear H
         end.

Ltac bounds := repeat (constructor; try lia).

Lemma floordiv_pos a b : b <> 0 -> floordiv a b = Some (a / b).
Proof. intros Hb. unfold floordiv. now destruct (Nat.eqb_spec b 0). Qed.

Lemma divides_eq a p : p <> 0 -> a mod p = 0 -> a = a / p * p.
Proof. intros Hp Hm. pose proof (Nat.div_mod_eq a p). nia. Qed.

Section PatchifyProofs.

Variable A : Type.
Variable zero : A.

(** The element at patch-grid cell [(hi, wi)], in-patch offset [(ph, pw)]
    and channel [c] of the permuted five-dimensional view. *)
Lemma permute_13240 (C Ht p Wt q : nat) (d : list A) hi wi ph pw c :
  hi < Ht -> wi < Wt -> ph < p -> pw < q -> c < C ->
  tget zero (permute zero [1; 3; 2; 4; 0] (mk [C; Ht; p; Wt; q] d))
       [hi; wi; ph; pw; c]
  = tget zero (mk [C; Ht; p; Wt; q] d) [c; hi; ph; wi; pw].
Proof.
  intros. unfold permute. cbn [shape pick map nth].
  rewrite tget_tabulate by bounds. reflexivity.
Qed.

Lemma tensor_eq (t1 t2 : tensor A) :
  shape t1 = shape t2 -> data t1 = data t2 -> t1 = t2.
Proof. destruct t1, t2. cbn. now intros -> ->. Qed.

Lemma permute_shape perm (t : tensor A) :
  shape (permute zero perm t) = pick (shape t) perm.
Proof. reflexivity. Qed.

Lemma permute_length perm (t : tensor A) :
  length (data (permute zero perm t)) = numel (pick (shape t) perm).
Proof. apply tabulate_wf. Qed.

Lemma flatten_data s e (t : tensor A) : data (flatten s e t) = data t.
Proof. reflexivity. Qed.

Lemma flatten_2_end a b c d e (t : tensor A) :
  shape t = [a; b; c; d; e] ->
  shape (flatten 2 (-1) t) = [a; b; c * (d * (e * 1))].
Proof. unfold flatten. intros ->. reflexivity. Qed.

Lemma flatten_0_1 a b c (t : tensor A) :
  shape t = [a; b; c] -> shape (flatten 0 1 t) = [a * (b * 1); c].
Proof. unfold flatten. intros ->. reflexivity. Qed.

Lemma flatten_3_4 a b c d e (t : tensor A) :
  shape t = [a; b; c; d; e] ->
  shape (flatten 3 4 t) = [a; b; c; d * (e * 1)].
Proof. unfold flatten. intros ->. reflexivity. Qed.

Lemma flatten_2_3 a b c d e (t : tensor A) :
  shape t = [a; b; c; d; e] ->
  shape (flatten 2 3 t) = [a; b; c * (d * 1); e].
Proof. unfold flatten. intros ->. reflexivity. Qed.


Lemma flatten_1_2 a b c d (t : tensor A) :
  shape t = [a; b; c; d] -> shape (flatten 1 2 t) = [a; b * (c * 1); d].
Proof. unfold flatten. intros ->. reflexivity. Qed.

(** What [patchify_image] returns on a well-formed image. *)
Lemma patchify_image_eq (p C H W : nat) (img : tensor A) :
  shape img = [C; H; W] -> wf img -> p <> 0 ->
  H mod p = 0 -> W mod p = 0 ->
  patchify_image zero p p img
  = Some (mk [H / p * (W / p); p * p * C]
             (data (permute zero [1; 3; 2; 4; 0]
                      (mk [C; H / p; p; W / p; p] (data img))))).
Proof.
  intros Hs Hwf Hp HH HW. unfold patchify_image. rewrite Hs.
  rewrite !floordiv_pos by exact Hp. unfold view.
  assert (Hn : numel [C; H / p; p; W / p; p] = length (data img)).
  { rewrite Hwf, Hs. cbn [numel fold_right].
    rewrite (divides_eq H p Hp HH) at 2. rewrite (divides_eq W p Hp HW) at 2. lia. }
  rewrite Hn, Nat.eqb_refl. f_equal.
  apply tensor_eq; [|reflexivity]. cbn [shape].
  erewrite flatten_0_1; [|erewrite flatten_2_end; reflexivity].
  now rewrite !Nat.mul_1_r, !Nat.mul_assoc.
Qed.

End PatchifyProofs.

Arguments permute_shape {A} _ _ _.
Arguments permute_length {A} _ _ _.

(** ** Patchify: token order and round trip *)

Lemma grid_cell t Ht Wt :
  t < Ht * Wt ->
  t / Wt < Ht /\ t mod Wt < Wt /\ t = t / Wt * Wt + t mod Wt.
Proof.
  intros Ht'. assert (Wt <> 0) by nia.
  repeat split.
  - apply Nat.Div0.div_lt_upper_bound. nia.
  - now apply Nat.mod_upper_bound.
  - pose proof (Nat.div_mod_eq t Wt). nia.
Qed.

(** C2.  For an image of shape [C, H, W] whose height and width are
    multiples of the patch size, the patchify step returns [H/p * W/p]
    tokens of [p * p * C] values each; token [t] is the patch at grid
    cell [(t div W_tokens, t mod W_tokens)], and inside a token the value
    at in-patch row [ph], in-patch column [pw] and channel [c] sits at
    offset [(ph * p + pw) * C + c]: patch row slowest, channel fastest. *)
Theorem patchify_token_order {A : Type} (zero : A) (p C H W : nat)
    (img : tensor A) :
  shape img = [C; H; W] -> wf img -> p <> 0 ->
  H mod p = 0 -> W mod p = 0 ->
  exists toks,
    patchify_image zero p p img = Some toks /\
    shape toks = [H / p * (W / p); p * p * C] /\
    forall t ph pw c,
      t < H / p * (W / p) -> ph < p -> pw < p -> c < C ->
      tget zero toks [t; (ph * p + pw) * C + c]
      = tget zero img [c; t / (W / p) * p + ph; t mod (W / p) * p + pw].
Proof.
  intros Hs Hwf Hp HH HW.
  rewrite (patchify_image_eq A zero p C H W img Hs Hwf Hp HH HW).
  eexists. split; [reflexivity|]. split; [reflexivity|].
  intros t ph pw c Ht Hph Hpw Hc.
  destruct (grid_cell t _ _ Ht) as (Hhi & Hwi & Hq).
  pose proof (divides_eq H p Hp HH) as HHe.
  pose proof (divides_eq W p Hp HW) as HWe.
  revert Hhi Hwi Hq HHe HWe Ht.
  generalize (t / (W / p)) as hi, (t mod (W / p)) as wi.
  generalize (H / p) as Htk, (W / p) as Wtk.
  intros Htk Wtk hi wi Hhi Hwi Hq HHe HWe Ht.
  transitivity
    (tget zero (permute zero [1; 3; 2; 4; 0] (mk [C; Htk; p; Wtk; p] (data img)))
          [hi; wi; ph; pw; c]).
  - unfold tget. rewrite permute_shape.
    cbn [shape data pick map nth ravel numel fold_right]. f_equal.
    rewrite Hq. ring.
  - rewrite permute_13240 by assumption.
    unfold tget. rewrite Hs. cbn [shape data ravel numel fold_right]. f_equal.
    rewrite HHe, HWe. ring.
Qed.

(** The hypotheses of [patchify_token_order] at a concrete image. *)
Lemma patchify_token_order_witness :
  exists toks,
    patchify_image 0%Z 2 2 scenario_image = Some toks /\
    shape toks = [4 / 2 * (4 / 2); 2 * 2 * 4] /\
    forall t ph pw c,
      t < 4 / 2 * (4 / 2) -> ph < 2 -> pw < 2 -> c < 4 ->
      tget 0%Z toks [t; (ph * 2 + pw) * 4 + c]
      = tget 0%Z scenario_image [c; t / (4 / 2) * 2 + ph; t mod (4 / 2) * 2 + pw].
Proof.
  apply (patchify_token_order 0%Z 2 4 4 4 scenario_image);
    [reflexivity | reflexivity | lia | reflexivity | reflexivity].
Defined.

Section RoundTrip.

Variable A : Type.
Variable zero : A.

Lemma permute_inverse (C Ht p Wt q : nat) (d : list A) :
  length d = numel [C; Ht; p; Wt; q] ->
  data (permute zero [4; 0; 2; 1; 3]
          (permute zero [1; 3; 2; 4; 0] (mk [C; Ht; p; Wt; q] d))) = d.
Proof.
  intros Hl.
  unfold permute at 1. cbn [shape tabulate pick map nth].
  apply (tabulate_data zero); [exact Hl|].
  intros k Hk.
  pose proof (unravel_bounds _ _ Hk) as Hb.
  rewrite <- (ravel_unravel _ _ Hk) at 2.
  remember (unravel [C; Ht; p; Wt; q] k) as idx eqn:Hidx. clear Hidx.
  inv_bounds.
  cbn [invperm length seq map index_of Nat.eqb pick nth].
  change (tabulate [Ht; Wt; p; q; C]
            (fun idx => tget zero (mk [C; Ht; p; Wt; q] d)
                          (pick idx (invperm [1; 3; 2; 4; 0]))))
    with (permute zero [1; 3; 2; 4; 0] (mk [C; Ht; p; Wt; q] d)).
  rewrite permute_13240 by assumption. reflexivity.
Qed.

Lemma slice_all {X} (l : list X) n : n = length l -> slice 0 n l = l.
Proof. intros ->. unfold slice. rewrite Nat.sub_0_r. apply firstn_all. Qed.

Lemma rows_all (t : tensor A) n sh' :
  shape t = n :: sh' -> wf t -> rows 0 n t = t.
Proof.
  intros Hs Hw. unfold rows, clamp. rewrite Hs.
  rewrite Nat.min_0_l, Nat.min_id, Nat.sub_0_r, Nat.mul_0_l.
  apply tensor_eq; cbn [shape data]; [now rewrite Hs|].
  apply slice_all. unfold wf in Hw. now rewrite Hw, Hs.
Qed.

Lemma unpatchify_image_patchify (p C H W : nat) (img : tensor A) :
  shape img = [C; H; W] -> wf img -> p <> 0 ->
  H mod p = 0 -> W mod p = 0 ->
  unpatchify_image zero p p C
    (mk [H / p * (W / p); p * p * C]
        (data (permute zero [1; 3; 2; 4; 0]
                 (mk [C; H / p; p; W / p; p] (data img)))))
    H W 0
  = Some img.
Proof.
  intros Hs Hwf Hp HH HW. unfold unpatchify_image.
  rewrite !floordiv_pos by exact Hp. cbn [Nat.add].
  assert (Hd : length (data img) = numel [C; H / p; p; W / p; p]).
  { rewrite Hwf, Hs. cbn [numel fold_right].
    rewrite (divides_eq H p Hp HH) at 1. rewrite (divides_eq W p Hp HW) at 1. ring. }
  set (v := mk [C; H / p; p; W / p; p] (data img)).
  assert (Hpl : length (data (permute zero [1; 3; 2; 4; 0] v))
                = numel [H / p; W / p; p; p; C]) by apply tabulate_wf.
  erewrite rows_all; [|reflexivity|].
  2:{ unfold wf. cbn [shape data]. rewrite Hpl. cbn [numel fold_right]. ring. }
  unfold view. cbn [data]. rewrite Hpl, Nat.eqb_refl.
  change (mk [H / p; W / p; p; p; C] (data (permute zero [1; 3; 2; 4; 0] v)))
    with (permute zero [1; 3; 2; 4; 0] v).
  f_equal. apply tensor_eq.
  - erewrite flatten_1_2; [|erewrite flatten_3_4; reflexivity].
    rewrite Hs, !Nat.mul_1_r, !permute_shape. subst v. cbn [shape pick map nth].
    now rewrite <- (divides_eq H p Hp HH), <- (divides_eq W p Hp HW).
  - rewrite !flatten_data. apply permute_inverse. exact Hd.
Qed.

End RoundTrip.

Lemma select_unsqueeze {A} (t : tensor A) :
  wf t -> select 0 (unsqueeze 0 t) = Some t.
Proof.
  intros Hw. unfold select, unsqueeze. cbn [shape data firstn skipn app Nat.ltb Nat.leb].
  f_equal. apply tensor_eq; [reflexivity|]. cbn [shape data].
  rewrite Nat.mul_0_l, Nat.mul_1_l. apply slice_all. now symmetry.
Qed.

(** C1.  Patchifying an image of shape [C, H, W] whose height and width
    are multiples of the patch size, and handing the tokens (as a batch of
    one) to [unpatchify] with the same [(H, W)] and caption offset 0, gives
    back the original image, element for element. *)
Theorem patchify_unpatchify_roundtrip {A F E : Type} (zero : A)
    (self : Lumina A F E) (C H W : nat) (img : tensor A) :
  shape img = [C; H; W] -> wf img ->
  patch_size self <> 0 -> out_channels self = C ->
  H mod patch_size self = 0 -> W mod patch_size self = 0 ->
  exists toks,
    patchify_image zero (patch_size self) (patch_size self) img = Some toks /\
    unpatchify zero self (unsqueeze 0 toks) [(H, W)] [0] false
    = Some (ImgList [img]).
Proof.
  intros Hs Hwf Hp Hc HH HW.
  rewrite (patchify_image_eq A zero _ C H W img Hs Hwf Hp HH HW).
  eexists. split; [reflexivity|].
  unfold unpatchify. cbn [unsqueeze shape firstn skipn app hd_error seq mapM nth_error].
  change (mk (1 :: ?s) ?d) with (unsqueeze 0 (mk s d)).
  rewrite select_unsqueeze.
  2:{ unfold wf. cbn [shape data]. rewrite permute_length.
      cbn [shape pick map nth numel fold_right]. ring. }
  rewrite Hc.
  rewrite (unpatchify_image_patchify A zero _ C H W img Hs Hwf Hp HH HW).
  reflexivity.
Qed.

(** The hypotheses of [patchify_unpatchify_roundtrip] at the scenario's
    model and image. *)
Lemma patchify_unpatchify_roundtrip_witness :
  exists toks,
    patchify_image 0%Z 2 2 scenario_image = Some toks /\
    unpatchify 0%Z scenario_lumina (unsqueeze 0 toks) [(4, 4)] [0] false
    = Some (ImgList [scenario_image]).
Proof.
  apply (patchify_unpatchify_roundtrip 0%Z scenario_lumina 4 4 4 scenario_image);
    [reflexivity | reflexivity | cbn; lia | reflexivity | reflexivity | reflexivity].
Defined.

(** ** Sizes that are not multiples of the patch size *)

Lemma mapM_none {X Y} (f : X -> option Y) (l : list X) (x : X) :
  In x l -> f x = None -> mapM f l = None.
Proof.
  induction l as [|y l IH]; intros Hin Hf; [contradiction|].
  destruct Hin as [->|Hin]; cbn [mapM].
  - now rewrite Hf.
  - rewrite (IH Hin Hf). now destruct (f y).
Qed.

Lemma patchify_image_nondivisible {A} (zero : A) (p C H W : nat)
    (img : tensor A) :
  shape img = [C; H; W] -> wf img ->
  0 < C -> 0 < H -> 0 < W ->
  H mod p <> 0 \/ W mod p <> 0 ->
  patchify_image zero p p img = None.
Proof.
  intros Hs Hwf HC HH' HW' Hnd. unfold patchify_image. rewrite Hs.
  unfold floordiv. destruct (Nat.eqb_spec p 0) as [|Hp]; [reflexivity|].
  unfold view. rewrite Hwf, Hs. cbn [numel fold_right].
  destruct (Nat.eqb_spec (C * (H / p * (p * (W / p * (p * 1))))) (C * (H * (W * 1))))
    as [Heq|]; [exfalso|reflexivity].
  pose proof (Nat.div_mod_eq H p) as EH. pose proof (Nat.div_mod_eq W p) as EW.
  revert Heq EH EW Hnd.
  generalize (H / p) as a, (W / p) as b, (H mod p) as r, (W mod p) as s.
  intros a b r s Heq EH EW Hnd.
  assert (Ha : a * p <= H) by nia. assert (Hb : b * p <= W) by nia.
  assert (Hlt : a * p * (b * p) < H * W).
  { destruct Hnd; [assert (a * p < H) by nia | assert (b * p < W) by nia]; nia. }
  nia.
Qed.

(** C7, as the code has it.  An image with at least one element whose
    height or width is not a multiple of the patch size makes the pack
    operation, and with it the forward call, fail: the [view] of the
    patchify step finds an element count that does not fit. *)
Theorem nondivisible_image_rejected {A F E : Type} (zero : A) (zero_e : E)
    (self : Lumina A F E) (dev : device) (x : images A)
    (t cap_feats : tensor A) (cap_mask : tensor bool)
    (imgs : list (tensor A)) (img : tensor A) (C H W : nat) :
  samples x = Some imgs -> In img imgs ->
  shape img = [C; H; W] -> wf img ->
  0 < C -> 0 < H -> 0 < W ->
  H mod patch_size self <> 0 \/ W mod patch_size self <> 0 ->
  snd (patchify_and_embed zero zero_e self dev x cap_feats cap_mask t) = None
  /\ snd (forward zero zero_e self dev x t cap_feats cap_mask) = None.
Proof.
  intros Hx Hin Hs Hwf HC HH HW Hnd.
  assert (Hp : forall cf t',
             snd (patchify_and_embed zero zero_e self dev x cf cap_mask t') = None).
  { intros cf t'. unfold patchify_and_embed. rewrite Hx.
    destruct (pack_lengths _ _ imgs cap_mask) as [ln|]; [|reflexivity].
    destruct (pack_position_ids _ _ ln) as [pos|]; [|reflexivity].
    destruct (RopeEmbedder.call _ _ _ _) as [rope [fc|]]; [|reflexivity].
    cbn [snd].
    destruct (pack_freqs _ ln cf fc) as [[cfc ifc]|]; [|reflexivity].
    unfold pack_images.
    now rewrite (mapM_none _ imgs img Hin
                   (patchify_image_nondivisible zero _ C H W img Hs Hwf HC HH HW Hnd)). }
  split; [apply Hp|].
  unfold forward.
  specialize (Hp (cap_embedder (nn self) cap_feats) (t_embedder (nn self) t)).
  cbv zeta.
  destruct (patchify_and_embed _ _ _ _ _ _ _ _) as [self' r].
  cbn [snd] in *. now rewrite Hp.
Qed.

(** The hypotheses of [nondivisible_image_rejected] at a [4, 3, 4] image. *)
Lemma nondivisible_image_rejected_witness :
  snd (patchify_and_embed 0%Z (0, 0, 0) scenario_lumina cpu
         (ImgList [iota [4; 3; 4]]) scenario_cap_feats scenario_cap_mask scenario_t)
  = None
  /\ snd (forward 0%Z (0, 0, 0) scenario_lumina cpu
            (ImgList [iota [4; 3; 4]]) scenario_t scenario_cap_feats scenario_cap_mask)
     = None.
Proof.
  apply (nondivisible_image_rejected 0%Z (0, 0, 0) scenario_lumina cpu
           (ImgList [iota [4; 3; 4]]) scenario_t scenario_cap_feats
           scenario_cap_mask [iota [4; 3; 4]] (iota [4; 3; 4]) 4 3 4);
    [reflexivity | now left | reflexivity | reflexivity | lia | lia | lia
    | left; cbn; lia].
Defined.

(** C7 as stated fails on an image without elements: height 3 is not a
    multiple of patch size 2, yet the patchify step accepts the image, and a
    forward call on a batch that carries it returns an image of height 2. *)
Lemma nondivisible_image_counterexample :
  shape empty_image = [4; 3; 0]
  /\ 3 mod patch_size scenario_lumina <> 0
  /\ patchify_image 0%Z 2 2 empty_image = Some (mk [0; 16] [])
  /\ snd (forward 0%Z (0, 0, 0) scenario_lumina cpu
            (ImgList [empty_image; scenario_image])
            mixed_t mixed_cap_feats mixed_cap_mask)
     = Some (ImgList [mk [4; 2; 0] []; scenario_image]).
Proof.
  split; [reflexivity|]. split; [cbn; lia|]. split; [reflexivity|].
  vm_compute. reflexivity.
Qed.

(** ** Slice assignment and loops *)

Lemma nth_repeat_same {X} (x : X) n k : nth k (repeat x n) x = x.
Proof.
  revert k. induction n as [|n IH]; intros [|k]; cbn; auto.
Qed.

Lemma tget_zeros {A} (zero : A) sh idx : tget zero (zeros zero sh) idx = zero.
Proof. unfold tget, zeros. cbn [data]. apply nth_repeat_same. Qed.

Lemma tget_vec {A} (zero : A) n (l : list A) i :
  tget zero (mk [n] l) [i] = nth i l zero.
Proof.
  unfold tget. cbn [shape data ravel numel fold_right].
  f_equal. lia.
Qed.

Lemma tget_scalar {A} (zero x : A) i : tget zero (scalar x) (bindex [i] [1]) = x.
Proof.
  unfold scalar, bindex. cbn [combine map]. rewrite Nat.mod_1_r.
  now rewrite tget_vec.
Qed.

Lemma setitem_col {A} (zero : A) (t t' v : tensor A) (i a b c B T K : nat) :
  shape t = [B; T; K] ->
  setitem zero t i a b (Some c) v = Some t' ->
  shape t' = [B; T; K]
  /\ broadcastable (shape v) [clamp T b - clamp T a] = true
  /\ forall i' s c', i' < B -> s < T -> c' < K ->
       tget zero t' [i'; s; c']
       = if (i' =? i) && (clamp T a <=? s) && (s <? clamp T b) && (c' =? c)
         then tget zero v (bindex [s - clamp T a] (shape v))
         else tget zero t [i'; s; c'].
Proof.
  intros Hs H. unfold setitem in H. rewrite Hs in H.
  destruct ((i <? B) && (c <? K) && broadcastable _ _) eqn:Hc; [|discriminate].
  apply andb_prop in Hc as [_ Hbr].
  injection H as <-. split; [reflexivity|]. split; [exact Hbr|].
  intros i' s c' Hi Hs' Hc'.
  rewrite tget_tabulate by bounds. reflexivity.
Qed.

Lemma setitem_rows {A} (zero : A) (t t' v : tensor A) (i a b B T : nat)
    (rest : list nat) :
  shape t = B :: T :: rest ->
  setitem zero t i a b None v = Some t' ->
  shape t' = B :: T :: rest
  /\ broadcastable (shape v) ((clamp T b - clamp T a) :: rest) = true
  /\ forall i' s r, i' < B -> s < T -> Forall2 lt r rest ->
       tget zero t' (i' :: s :: r)
       = if (i' =? i) && (clamp T a <=? s) && (s <? clamp T b)
         then tget zero v (bindex ((s - clamp T a) :: r) (shape v))
         else tget zero t (i' :: s :: r).
Proof.
  intros Hs H. unfold setitem in H. rewrite Hs in H.
  destruct ((i <? B) && broadcastable _ _) eqn:Hc; [|discriminate].
  apply andb_prop in Hc as [_ Hbr].
  injection H as <-. split; [reflexivity|]. split; [exact Hbr|].
  intros i' s r Hi Hs' Hr.
  rewrite tget_tabulate by (repeat (constructor; try assumption)). reflexivity.
Qed.

Lemma for_range_seq {X} (body : X -> nat -> option X) (I : nat -> X -> Prop) n :
  forall k acc r,
    I k acc ->
    (forall j a a', k <= j < k + n -> I j a -> body a j = Some a' -> I (S j) a') ->
    for_range body acc (seq k n) = Some r ->
    I (k + n) r.
Proof.
  induction n as [|n IH]; intros k acc r HI Hstep Hrun; cbn [seq for_range] in Hrun.
  - injection Hrun as <-. now rewrite Nat.add_0_r.
  - destruct (body acc k) as [acc'|] eqn:Hb; [|discriminate].
    rewrite Nat.add_succ_r, <- Nat.add_succ_l.
    apply (IH (S k) acc' r).
    + apply (Hstep k acc acc'); [lia | exact HI | exact Hb].
    + intros j a a' Hj. apply Hstep. lia.
    + exact Hrun.
Qed.

Lemma max_list_ge l m x : max_list l = Some m -> In x l -> x <= m.
Proof.
  destruct l as [|y l]; [discriminate|]. cbn [max_list]. intros [= <-].
  assert (G : forall l a, a <= fold_left Nat.max l a
                          /\ forall z, In z l -> z <= fold_left Nat.max l a).
  { clear. induction l as [|b l IH]; intros a; cbn [fold_left].
    - split; [lia | intros z []].
    - destruct (IH (Nat.max a b)) as [H1 H2]. split; [lia|].
      intros z [<-|Hz]; [lia | now apply H2]. }
  destruct (G l y) as [G1 G2]. intros [<-|Hx]; [exact G1 | now apply G2].
Qed.

(** [arange(Ht).view(-1, 1).repeat(1, Wt).flatten()] and
    [arange(Wt).view(1, -1).repeat(Ht, 1).flatten()], entry by entry. *)
Lemma row_ids_nth Ht Wt x :
  x < Ht * Wt ->
  nth x (data (repeat_t 0 [1; Wt] (mk [Ht; 1] (seq 0 Ht)))) 0 = x / Wt.
Proof.
  intros Hx. unfold repeat_t. cbn [shape combine map].
  rewrite nth_tabulate by (cbn [numel fold_right]; lia).
  cbn [unravel numel fold_right bindex combine map].
  unfold tget. cbn [shape data ravel numel fold_right].
  replace (1 * Wt * 1) with Wt by lia.
  rewrite Nat.div_1_r, Nat.mod_1_r.
  assert (Wt <> 0) by nia.
  assert (x / Wt < Ht) by (apply Nat.Div0.div_lt_upper_bound; nia).
  rewrite Nat.mod_small by assumption.
  replace (x / Wt * (1 * 1) + (0 * 1 + 0)) with (x / Wt) by lia.
  now rewrite seq_nth.
Qed.

Lemma col_ids_nth Ht Wt x :
  x < Ht * Wt ->
  nth x (data (repeat_t 0 [Ht; 1] (mk [1; Wt] (seq 0 Wt)))) 0 = x mod Wt.
Proof.
  intros Hx. unfold repeat_t. cbn [shape combine map].
  rewrite nth_tabulate by (cbn [numel fold_right]; lia).
  cbn [unravel numel fold_right bindex combine map].
  unfold tget. cbn [shape data ravel numel fold_right].
  replace (Wt * 1 * 1) with Wt by lia.
  rewrite Nat.div_1_r, Nat.mod_1_r, Nat.Div0.mod_mod.
  assert (Wt <> 0) by nia.
  replace (0 * (Wt * 1) + (x mod Wt * 1 + 0)) with (x mod Wt) by lia.
  rewrite seq_nth by (now apply Nat.mod_upper_bound). reflexivity.
Qed.

(** ** Effective lengths *)

Ltac inv_some H :=
  repeat (match type of H with
          | match ?e with Some _ => _ | None => _ end = Some _ =>
              let E := fresh "E" in destruct e eqn:E; [|discriminate H]
          | match ?e with (_, _) => _ end = Some _ => destruct e
          | (if ?b then _ else _) = Some _ =>
              let E := fresh "E" in destruct b eqn:E; try discriminate H
          end; cbn beta iota in H).

Lemma mapM_nth {X Y} (f : X -> option Y) (l : list X) (l' : list Y) i x :
  mapM f l = Some l' -> nth_error l i = Some x ->
  exists y, f x = Some y /\ nth_error l' i = Some y.
Proof.
  revert l' i. induction l as [|a l IH]; intros l' i H Hn.
  - destruct i; discriminate.
  - cbn [mapM] in H. inv_some H. injection H as <-.
    destruct i as [|i]; cbn [nth_error] in *.
    + injection Hn as ->. eauto.
    + eauto.
Qed.

Lemma mapM_length {X Y} (f : X -> option Y) (l : list X) (l' : list Y) :
  mapM f l = Some l' -> length l' = length l.
Proof.
  revert l'. induction l as [|a l IH]; intros l' H; cbn [mapM] in H.
  - now injection H as <-.
  - inv_some H. injection H as <-. cbn [length]. f_equal. now apply IH.
Qed.

Lemma nth_error_map_seq {X} (f : nat -> X) n i :
  i < n -> nth_error (map f (seq 0 n)) i = Some (f i).
Proof.
  intros Hi. rewrite nth_error_map, nth_error_seq.
  destruct (Nat.ltb_spec i n); [reflexivity | lia].
Qed.

Lemma nth_error_combine {X Y} (l1 : list X) (l2 : list Y) i a b :
  nth_error l1 i = Some a -> nth_error l2 i = Some b ->
  nth_error (combine l1 l2) i = Some (a, b).
Proof.
  revert l2 i. induction l1 as [|x l1 IH]; intros [|y l2] [|i] H1 H2;
    cbn in *; try discriminate.
  - now injection H1 as ->; injection H2 as ->.
  - now apply IH.
Qed.

(** What [pack_lengths] fixes about its result. *)
Lemma pack_lengths_spec {A} (p : nat) (imgs : list (tensor A))
    (cap_mask : tensor bool) (ln : lengths) :
  pack_lengths p p imgs cap_mask = Some ln ->
  p <> 0
  /\ bsz ln = length imgs
  /\ sum_dim1 cap_mask = Some (l_effective_cap_len ln)
  /\ length (img_sizes ln) = length imgs
  /\ length (l_effective_img_len ln) = length imgs
  /\ (forall i H W, nth_error (img_sizes ln) i = Some (H, W) ->
        nth_error (l_effective_img_len ln) i = Some (H / p * (W / p)))
  /\ (forall i img, nth_error imgs i = Some img ->
        exists H W r0 r, shape img = r0 :: H :: W :: r
                         /\ nth_error (img_sizes ln) i = Some (H, W))
  /\ (forall i c g, nth_error (l_effective_cap_len ln) i = Some c ->
        nth_error (l_effective_img_len ln) i = Some g ->
        c + g <= max_seq_len ln).
Proof.
  intros H. unfold pack_lengths in H. inv_some H. injection H as <-.
  cbn [bsz l_effective_cap_len img_sizes l_effective_img_len max_seq_len].
  match goal with
  | E1 : mapM _ imgs = Some ?sz, E2 : mapM _ ?sz = Some ?li |- _ =>
      rename E1 into Hsz; rename E2 into Hli
  end.
  assert (Hp : p <> 0).
  { destruct imgs as [|img0 imgs]; [discriminate|].
    cbn [mapM] in Hsz. inv_some Hsz. injection Hsz as <-.
    cbn [mapM] in Hli. inv_some Hli.
    destruct (Nat.eqb_spec p 0) as [->|]; [|assumption].
    unfold floordiv in *. cbn [Nat.eqb] in *.
    match goal with p0 : (nat * nat)%type |- _ => destruct p0 end. discriminate. }
  split; [exact Hp|]. split; [reflexivity|]. split; [reflexivity|].
  split; [now apply mapM_length in Hsz|].
  split; [apply mapM_length in Hli; apply mapM_length in Hsz; congruence|].
  split; [|split].
  - intros i H0 W0 Hn.
    destruct (mapM_nth _ _ _ _ _ Hli Hn) as (y & Hy & Hny).
    cbn beta iota in Hy. rewrite !floordiv_pos in Hy by exact Hp.
    now injection Hy as <-.
  - intros i img Hn.
    destruct (mapM_nth _ _ _ _ _ Hsz Hn) as (y & Hy & Hny).
    destruct (shape img) as [|r0 [|H0 [|W0 r]]] eqn:Hs; try discriminate.
    injection Hy as <-. now exists H0, W0, r0, r.
  - intros i c g Hc Hg.
    match goal with E : max_list (map _ (combine _ _)) = Some _ |- _ =>
      apply (max_list_ge _ _ (c + g) E) end.
    apply in_map_iff. exists (c, g). split; [reflexivity|].
    apply (nth_error_In _ i). apply nth_error_combine; assumption.
Qed.

(** ** Position ids *)

Lemma view_arange sh n rv :
  view sh (arange n) = Some rv -> rv = mk sh (seq 0 n).
Proof.
  unfold view, arange. cbn [data].
  destruct (numel sh =? _); [|discriminate]. now intros [= <-].
Qed.

Lemma flatten_all_2 {A} a b (t : tensor A) :
  shape t = [a; b] -> shape (flatten 0 (-1) t) = [a * (b * 1)].
Proof. unfold flatten. intros ->. reflexivity. Qed.

Lemma tget_row_ids Ht Wt x :
  x < Ht * Wt ->
  tget 0 (flatten 0 (-1) (repeat_t 0 [1; Wt] (mk [Ht; 1] (seq 0 Ht))))
       (bindex [x] (shape (flatten 0 (-1)
                             (repeat_t 0 [1; Wt] (mk [Ht; 1] (seq 0 Ht))))))
  = x / Wt.
Proof.
  intros Hx.
  rewrite (flatten_all_2 (Ht * 1) (1 * Wt)) by reflexivity.
  unfold tget.
  rewrite (flatten_all_2 (Ht * 1) (1 * Wt)) by reflexivity.
  unfold bindex. cbn [combine map ravel numel fold_right]. rewrite flatten_data.
  replace (Ht * 1 * (1 * Wt * 1)) with (Ht * Wt) by lia.
  rewrite Nat.mod_small by exact Hx.
  replace (x * 1 + 0) with x by lia. now apply row_ids_nth.
Qed.

Lemma tget_col_ids Ht Wt x :
  x < Ht * Wt ->
  tget 0 (flatten 0 (-1) (repeat_t 0 [Ht; 1] (mk [1; Wt] (seq 0 Wt))))
       (bindex [x] (shape (flatten 0 (-1)
                             (repeat_t 0 [Ht; 1] (mk [1; Wt] (seq 0 Wt))))))
  = x mod Wt.
Proof.
  intros Hx.
  rewrite (flatten_all_2 (1 * Ht) (Wt * 1)) by reflexivity.
  unfold tget.
  rewrite (flatten_all_2 (1 * Ht) (Wt * 1)) by reflexivity.
  unfold bindex. cbn [combine map ravel numel fold_right]. rewrite flatten_data.
  replace (1 * Ht * (Wt * 1 * 1)) with (Ht * Wt) by lia.
  rewrite Nat.mod_small by exact Hx.
  replace (x * 1 + 0) with x by lia. now apply col_ids_nth.
Qed.

Lemma tget_arange n x :
  x < n -> tget 0 (arange n) (bindex [x] (shape (arange n))) = x.
Proof.
  intros Hx. unfold arange, bindex. cbn [shape combine map].
  rewrite tget_vec, Nat.mod_small by exact Hx. now apply seq_nth.
Qed.

Section PositionIds.

Variable p : nat.
Variable ln : lengths.
Hypothesis Hp : p <> 0.
Hypothesis Himg : forall i H W,
  nth_error (img_sizes ln) i = Some (H, W) ->
  nth_error (l_effective_img_len ln) i = Some (H / p * (W / p)).
Hypothesis Hmax : forall i c g,
  nth_error (l_effective_cap_len ln) i = Some c ->
  nth_error (l_effective_img_len ln) i = Some g ->
  c + g <= max_seq_len ln.

Lemma ids_inv_step k pos pos' :
  ids_inv p ln k pos ->
  position_ids_body p p ln pos k = Some pos' ->
  ids_inv p ln (S k) pos'.
Proof.
  intros (Hsh & Hk & Hcell) Hb.
  unfold position_ids_body in Hb. inv_some Hb.
  rewrite (floordiv_pos _ _ Hp) in E2. rewrite (floordiv_pos _ _ Hp) in E3.
  injection E2 as <-. injection E3 as <-.
  pose proof (Himg _ _ _ E1) as Hl. rewrite Hl in E0. injection E0 as <-.
  pose proof (Hmax _ _ _ E Hl) as Hfit.
  apply view_arange in E7, E8. subst t1 t2.
  destruct (setitem_col _ _ _ _ _ _ _ _ _ _ _ Hsh E5) as (Hs1 & _ & Hv1).
  destruct (setitem_col _ _ _ _ _ _ _ _ _ _ _ Hs1 E6) as (Hs2 & _ & Hv2).
  destruct (setitem_col _ _ _ _ _ _ _ _ _ _ _ Hs2 E9) as (Hs3 & _ & Hv3).
  destruct (setitem_col _ _ _ _ _ _ _ _ _ _ _ Hs3 Hb) as (Hs4 & _ & Hv4).
  clear E5 E6 E9 Hb E4.
  split; [exact Hs4|]. split.
  { apply Nat.le_succ_l, nth_error_Some. congruence. }
  intros i j c Hi Hj Hc.
  rewrite Hv4, Hv3, Hv2, Hv1, Hcell by assumption.
  unfold clamp. rewrite !Nat.min_l by lia.
  destruct (Nat.eqb_spec i k) as [->|Hik].
  - rewrite Nat.ltb_irrefl.
    replace (k <? S k) with true by (symmetry; apply Nat.ltb_lt; lia).
    unfold position_id_cell. rewrite E, E1. cbn [andb].
    destruct (Nat.ltb_spec j n) as [Hjn|Hjn].
    + replace (n <=? j) with false by (symmetry; apply Nat.leb_gt; lia).
      cbn [andb]. cbn [Nat.leb].
      destruct (Nat.eqb_spec c 0) as [->|Hc0]; [|reflexivity].
      rewrite Nat.sub_0_r. now apply tget_arange.
    + replace (n <=? j) with true by (symmetry; apply Nat.leb_le; lia).
      cbn [andb].
      destruct (Nat.ltb_spec j (n + n1 / p * (n2 / p))) as [Hji|Hji];
        cbn [andb].
      * assert (Hx : j - n < n1 / p * (n2 / p)) by lia.
        destruct c as [|[|[|c]]]; cbn [Nat.eqb]; [| | |lia].
        -- apply tget_scalar.
        -- now apply tget_row_ids.
        -- now apply tget_col_ids.
      * now destruct (c =? 0).
  - cbn [andb].
    destruct (Nat.ltb_spec i k), (Nat.ltb_spec i (S k)); try reflexivity; lia.
Qed.

Lemma ids_inv_init : ids_inv p ln 0 (zeros 0 [bsz ln; max_seq_len ln; 3]).
Proof.
  split; [reflexivity|]. split; [lia|].
  intros i j c _ _ _. cbn [Nat.ltb Nat.leb]. apply tget_zeros.
Qed.

Lemma pack_position_ids_inv pos :
  pack_position_ids p p ln = Some pos -> ids_inv p ln (bsz ln) pos.
Proof.
  intros H. unfold pack_position_ids in H.
  apply (for_range_seq (position_ids_body p p ln) (ids_inv p ln) (bsz ln) 0 _ pos
           ids_inv_init); [|exact H].
  intros j a a' _. apply ids_inv_step.
Qed.

End PositionIds.

Lemma sum_dim1_nth (m : tensor bool) (l : list nat) i c :
  sum_dim1 m = Some l -> nth_error l i = Some c ->
  exists Bm L, shape m = [Bm; L] /\ i < Bm
               /\ c = count_true (slice (i * L) ((i + 1) * L) (data m)).
Proof.
  unfold sum_dim1. destruct (shape m) as [|Bm [|L [|? ?]]]; try discriminate.
  intros [= <-] Hn. exists Bm, L.
  assert (Hi : i < Bm).
  { assert (Hn' : nth_error
                    (map (fun i0 => count_true
                                      (slice (i0 * L) ((i0 + 1) * L) (data m)))
                         (seq 0 Bm)) i <> None) by congruence.
    apply nth_error_Some in Hn'. now rewrite length_map, length_seq in Hn'. }
  rewrite nth_error_map_seq in Hn by exact Hi. injection Hn as <-. auto.
Qed.

(** C3.  In the grid built by lines 637-665, sample [i] has caption token
    [j] at [(j, 0, 0)] for [j] below its effective caption length, the image
    token of grid cell [(row, col)] at [(cap_len, row, col)], and every
    later token of the row at [(0, 0, 0)].  The effective caption length is
    the number of [True] entries in row [i] of the caption mask and
    [(H, W)] is the size of image [i]. *)
Theorem position_ids_layout {A : Type} (p : nat) (imgs : list (tensor A))
    (cap_mask : tensor bool) (ln : lengths) (pos : tensor nat) :
  pack_lengths p p imgs cap_mask = Some ln ->
  pack_position_ids p p ln = Some pos ->
  shape pos = [length imgs; max_seq_len ln; 3]
  /\ forall i img, nth_error imgs i = Some img ->
     exists cap_len H W C r Bm L,
       shape img = C :: H :: W :: r
       /\ shape cap_mask = [Bm; L]
       /\ cap_len = count_true (slice (i * L) ((i + 1) * L) (data cap_mask))
       /\ (forall j, j < cap_len -> position_id pos i j = (j, 0, 0))
       /\ (forall row col, row < H / p -> col < W / p ->
             position_id pos i (cap_len + row * (W / p) + col)
             = (cap_len, row, col))
       /\ (forall j, cap_len + H / p * (W / p) <= j -> j < max_seq_len ln ->
             position_id pos i j = (0, 0, 0)).
Proof.
  intros Hln Hpos.
  destruct (pack_lengths_spec p imgs cap_mask ln Hln)
    as (Hp & Hb & Hsum & Hlsz & Hlimg & Himg & Hshape & Hmax).
  destruct (pack_position_ids_inv p ln Hp Himg Hmax pos Hpos) as (Hsh & Hk & Hcell).
  rewrite Hb in *. split; [exact Hsh|].
  intros i img Hi.
  assert (Hlt : i < length imgs) by (apply nth_error_Some; congruence).
  destruct (Hshape i img Hi) as (H & W & C & r & Hs & Hsz).
  destruct (nth_error (l_effective_cap_len ln) i) as [cap_len|] eqn:Hcap.
  2:{ apply nth_error_None in Hcap. lia. }
  destruct (sum_dim1_nth _ _ _ _ Hsum Hcap) as (Bm & L & Hms & _ & Hcount).
  pose proof (Hmax _ _ _ Hcap (Himg _ _ _ Hsz)) as Hfit.
  assert (Hside : forall j c, j < max_seq_len ln -> c < 3 ->
            tget 0 pos [i; j; c]
            = if j <? cap_len then (if c =? 0 then j else 0)
              else if j <? cap_len + H / p * (W / p)
                   then match c with
                        | 0 => cap_len
                        | 1 => (j - cap_len) / (W / p)
                        | _ => (j - cap_len) mod (W / p)
                        end
                   else 0).
  { intros j c Hj Hc. rewrite Hcell by assumption.
    replace (i <? length imgs) with true by (symmetry; now apply Nat.ltb_lt).
    unfold position_id_cell. now rewrite Hcap, Hsz. }
  exists cap_len, H, W, C, r, Bm, L.
  split; [exact Hs|]. split; [exact Hms|]. split; [exact Hcount|].
  unfold position_id. split; [|split].
  - intros j Hj. rewrite !Hside by lia.
    replace (j <? cap_len) with true by (symmetry; now apply Nat.ltb_lt).
    reflexivity.
  - intros row col Hrow Hcol.
    assert (Hx : row * (W / p) + col < H / p * (W / p)) by nia.
    rewrite !Hside by lia.
    replace (cap_len + row * (W / p) + col <? cap_len) with false
      by (symmetry; apply Nat.ltb_ge; lia).
    replace (cap_len + row * (W / p) + col <? cap_len + H / p * (W / p)) with true
      by (symmetry; apply Nat.ltb_lt; lia).
    replace (cap_len + row * (W / p) + col - cap_len) with (row * (W / p) + col) by lia.
    assert (W / p <> 0) by lia.
    rewrite Nat.div_add_l, Nat.div_small, Nat.add_0_r by assumption.
    rewrite Nat.add_comm, Nat.Div0.mod_add, Nat.mod_small by assumption.
    reflexivity.
  - intros j Hlo Hhi. rewrite !Hside by lia.
    replace (j <? cap_len) with false by (symmetry; apply Nat.ltb_ge; lia).
    replace (j <? cap_len + H / p * (W / p)) with false
      by (symmetry; apply Nat.ltb_ge; lia).
    reflexivity.
Qed.

(** The hypotheses of [position_ids_layout] at the scenario. *)
Lemma position_ids_layout_witness :
  shape scenario_position_ids = [1; max_seq_len scenario_lengths; 3]
  /\ forall i img, nth_error [scenario_image] i = Some img ->
     exists cap_len H W C r Bm L,
       shape img = C :: H :: W :: r
       /\ shape scenario_cap_mask = [Bm; L]
       /\ cap_len = count_true (slice (i * L) ((i + 1) * L) (data scenario_cap_mask))
       /\ (forall j, j < cap_len ->
             position_id scenario_position_ids i j = (j, 0, 0))
       /\ (forall row col, row < H / 2 -> col < W / 2 ->
             position_id scenario_position_ids i (cap_len + row * (W / 2) + col)
             = (cap_len, row, col))
       /\ (forall j, cap_len + H / 2 * (W / 2) <= j ->
             j < max_seq_len scenario_lengths ->
             position_id scenario_position_ids i j = (0, 0, 0)).
Proof.
  apply (position_ids_layout 2 [scenario_image] scenario_cap_mask
           scenario_lengths scenario_position_ids);
    vm_compute; reflexivity.
Defined.

(** The grid is always produced when the lengths are and the caption mask
    has a row for every image. *)
Lemma for_range_total {X} (body : X -> nat -> option X) (I : nat -> X -> Prop) n :
  forall k acc,
    I k acc ->
    (forall j a, k <= j < k + n -> I j a ->
                 exists a', body a j = Some a' /\ I (S j) a') ->
    exists r, for_range body acc (seq k n) = Some r /\ I (k + n) r.
Proof.
  induction n as [|n IH]; intros k acc HI Hstep; cbn [seq for_range].
  - exists acc. now rewrite Nat.add_0_r.
  - destruct (Hstep k acc) as (acc' & Hb & HI'); [lia | exact HI |].
    rewrite Hb. rewrite Nat.add_succ_r, <- Nat.add_succ_l.
    apply IH; [exact HI'|]. intros j a Hj. apply Hstep. lia.
Qed.

Lemma setitem_col_some {A} (zero : A) (t v : tensor A) (i a b c B T K : nat) :
  shape t = [B; T; K] -> i < B -> c < K ->
  broadcastable (shape v) [clamp T b - clamp T a] = true ->
  exists t', setitem zero t i a b (Some c) v = Some t' /\ shape t' = [B; T; K].
Proof.
  intros Hs Hi Hc Hbr. unfold setitem. rewrite Hs, Hbr.
  destruct (Nat.ltb_spec i B); [|lia]. destruct (Nat.ltb_spec c K); [|lia].
  cbn [andb]. eexists. split; reflexivity.
Qed.

Lemma broadcast_same n : broadcastable [n] [n] = true.
Proof. unfold broadcastable. cbn. now rewrite Nat.eqb_refl. Qed.

Lemma broadcast_one n : broadcastable [1] [n] = true.
Proof. unfold broadcastable. cbn. now rewrite orb_true_r. Qed.

Lemma pack_position_ids_total {A : Type} (p : nat) (imgs : list (tensor A))
    (cap_mask : tensor bool) (ln : lengths) :
  pack_lengths p p imgs cap_mask = Some ln ->
  length imgs <= length (l_effective_cap_len ln) ->
  exists pos, pack_position_ids p p ln = Some pos.
Proof.
  intros Hln Hrows.
  destruct (pack_lengths_spec p imgs cap_mask ln Hln)
    as (Hp & Hb & Hsum & Hlsz & Hlimg & Himg & Hshape & Hmax).
  unfold pack_position_ids.
  destruct (for_range_total (position_ids_body p p ln) (ids_inv p ln) (bsz ln) 0
              (zeros 0 [bsz ln; max_seq_len ln; 3]) (ids_inv_init p ln Hp))
    as (pos & Hpos & _); [|now exists pos].
  intros k pos Hk Hinv.
  assert (Hex : exists pos', position_ids_body p p ln pos k = Some pos').
  { destruct Hinv as (Hsh & _ & _).
    destruct (nth_error (l_effective_cap_len ln) k) as [cap|] eqn:Hcap.
    2:{ apply nth_error_None in Hcap. lia. }
    destruct (nth_error (img_sizes ln) k) as [[H W]|] eqn:Hsz.
    2:{ apply nth_error_None in Hsz. lia. }
    pose proof (Himg _ _ _ Hsz) as Hlen.
    pose proof (Hmax _ _ _ Hcap Hlen) as Hfit.
    unfold position_ids_body. rewrite Hcap, Hlen, Hsz.
    rewrite !floordiv_pos by exact Hp. rewrite Nat.eqb_refl. cbn [negb].
    destruct (setitem_col_some 0 pos (arange cap) k 0 cap 0 _ _ _ Hsh)
      as (p1 & -> & Hs1); [lia | lia | |].
    { unfold clamp. rewrite !Nat.min_l by lia. rewrite Nat.sub_0_r.
      apply broadcast_same. }
    destruct (setitem_col_some 0 p1 (scalar cap) k cap (cap + H / p * (W / p)) 0
                _ _ _ Hs1) as (p2 & -> & Hs2); [lia | lia | apply broadcast_one |].
    unfold view, arange. cbn [data numel fold_right].
    rewrite !length_seq.
    replace (H / p * (1 * 1)) with (H / p) by lia.
    replace (1 * (W / p * 1)) with (W / p) by lia.
    rewrite !Nat.eqb_refl.
    destruct (setitem_col_some 0 p2
                (flatten 0 (-1) (repeat_t 0 [1; W / p] (mk [H / p; 1] (seq 0 (H / p)))))
                k cap (cap + H / p * (W / p)) 1 _ _ _ Hs2)
      as (p3 & -> & Hs3); [lia | lia | |].
    { rewrite (flatten_all_2 (H / p * 1) (1 * (W / p))) by reflexivity.
      unfold clamp. rewrite !Nat.min_l by lia.
      replace (H / p * 1 * (1 * (W / p) * 1)) with (H / p * (W / p)) by lia.
      replace (cap + H / p * (W / p) - cap) with (H / p * (W / p)) by lia.
      apply broadcast_same. }
    destruct (setitem_col_some 0 p3
                (flatten 0 (-1) (repeat_t 0 [H / p; 1] (mk [1; W / p] (seq 0 (W / p)))))
                k cap (cap + H / p * (W / p)) 2 _ _ _ Hs3)
      as (p4 & -> & Hs4); [lia | lia | |].
    { rewrite (flatten_all_2 (1 * (H / p)) (W / p * 1)) by reflexivity.
      unfold clamp. rewrite !Nat.min_l by lia.
      replace (1 * (H / p) * (W / p * 1 * 1)) with (H / p * (W / p)) by lia.
      replace (cap + H / p * (W / p) - cap) with (H / p * (W / p)) by lia.
      apply broadcast_same. }
    now exists p4. }
  destruct Hex as (pos' & Hbody). exists pos'. split; [exact Hbody|].
  exact (ids_inv_step p ln Hp Himg Hmax k pos pos' Hinv Hbody).
Qed.

(** ** The validity mask *)

Lemma nth_slice {X} (a b j : nat) (l : list X) (d : X) :
  j < b - a -> nth j (slice a b l) d = nth (a + j) l d.
Proof.
  intros Hj. unfold slice. rewrite nth_firstn.
  destruct (Nat.ltb_spec j (b - a)); [apply nth_skipn | lia].
Qed.

Lemma length_slice {X} (a b : nat) (l : list X) :
  b <= length l -> length (slice a b l) = b - a.
Proof. intros Hb. unfold slice. rewrite length_firstn, length_skipn. lia. Qed.

Lemma nth_prefix_mask n m j :
  nth j (repeat true n ++ repeat false m) false = (j <? n).
Proof.
  destruct (Nat.ltb_spec j n) as [Hj|Hj].
  - rewrite app_nth1 by (now rewrite repeat_length).
    rewrite nth_indep with (d' := true) by (now rewrite repeat_length).
    apply nth_repeat.
  - rewrite app_nth2 by (now rewrite repeat_length). apply nth_repeat.
Qed.

Lemma count_prefix_mask n m :
  count_true (repeat true n ++ repeat false m) = n.
Proof.
  unfold count_true. rewrite filter_app, length_app.
  assert (H1 : forall k, length (filter (fun b : bool => b) (repeat true k)) = k)
    by (induction k; cbn; congruence).
  assert (H2 : forall k, length (filter (fun b : bool => b) (repeat false k)) = 0)
    by (induction k; cbn; congruence).
  rewrite H1, H2. lia.
Qed.

Lemma zeros_wf {A} (zero : A) sh : wf (zeros zero sh).
Proof. unfold wf, zeros. cbn [data shape]. apply repeat_length. Qed.

Lemma setitem_wf {A} (zero : A) (t t' v : tensor A) i a b c :
  setitem zero t i a b c v = Some t' -> wf t'.
Proof.
  unfold setitem.
  destruct (shape t) as [|B [|T rest]]; try discriminate.
  destruct c as [c|].
  - destruct rest as [|K [|? ?]]; try discriminate.
    destruct (_ && _); [|discriminate]. intros [= <-]. apply tabulate_wf.
  - destruct (_ && _); [|discriminate]. intros [= <-]. apply tabulate_wf.
Qed.

Section Mask.

Variable A : Type.
Variable zero : A.
Variable dim_ : nat.
Variable ln : lengths.
Variable cap_feats padded_img_embed : tensor A.

Lemma pack_full_inv mask full :
  (forall i c g,
     nth_error (l_effective_cap_len ln) i = Some c ->
     nth_error (l_effective_img_len ln) i = Some g ->
     c + g <= max_seq_len ln) ->
  pack_full zero dim_ ln cap_feats padded_img_embed = Some (mask, full) ->
  mask_inv ln (bsz ln) (mask, full).
Proof.
  intros Hmax H. unfold pack_full in H.
  refine (for_range_seq _ (mask_inv ln) (bsz ln) 0 _ (mask, full) _ _ H).
  - split; [reflexivity|]. split; [apply zeros_wf|]. split; [lia|].
    intros i j _ _. cbn [fst Nat.ltb Nat.leb]. apply tget_zeros.
  - intros k [m f] [m' f'] _ (Hsh & Hwf & Hk & Hcell) Hb. cbn [fst] in *.
    inv_some Hb. injection Hb as <- <-.
    match goal with
    | Hs : setitem false m k 0 _ None (scalar true) = Some _ |- _ =>
        pose proof (setitem_wf _ _ _ _ _ _ _ _ Hs) as Hwf';
        destruct (setitem_rows _ _ _ _ _ _ _ _ _ [] Hsh Hs) as (Hs1 & _ & Hv1)
    end.
    split; [exact Hs1|]. split; [exact Hwf'|].
    split; [apply Nat.le_succ_l, nth_error_Some; congruence|].
    intros i j Hi Hj. rewrite Hv1 by (assumption || constructor).
    rewrite Hcell by assumption.
    match goal with
    | Hc : nth_error (l_effective_cap_len ln) k = Some ?c,
      Hg : nth_error (l_effective_img_len ln) k = Some ?g |- _ =>
        pose proof (Hmax _ _ _ Hc Hg) as Hfit;
        unfold mask_cell; unfold clamp; rewrite !Nat.min_l by lia;
        destruct (Nat.eqb_spec i k) as [->|Hik];
        [ rewrite Hc, Hg, Nat.ltb_irrefl;
          replace (k <? S k) with true by (symmetry; apply Nat.ltb_lt; lia);
          cbn [andb Nat.leb];
          destruct (j <? c + g); [apply (tget_scalar false true)|reflexivity]
        | cbn [andb];
          destruct (Nat.ltb_spec i k), (Nat.ltb_spec i (S k));
            try reflexivity; lia ]
    end.
Qed.

End Mask.

Lemma mask_row (mask : tensor bool) B L i n :
  shape mask = [B; L] -> wf mask -> i < B -> n <= L ->
  (forall j, j < L -> tget false mask [i; j] = (j <? n)) ->
  exists row,
    select i mask = Some row
    /\ data row = repeat true n ++ repeat false (L - n).
Proof.
  intros Hs Hwf Hi Hn Hcell. unfold select. rewrite Hs.
  destruct (Nat.ltb_spec i B); [|lia].
  eexists. split; [reflexivity|]. cbn [data numel fold_right].
  assert (Hlen : length (slice (i * (L * 1)) (S i * (L * 1)) (data mask)) = L).
  { rewrite length_slice; [lia|]. rewrite Hwf, Hs. cbn [numel fold_right]. nia. }
  apply (nth_ext _ _ false false).
  - rewrite Hlen, length_app, !repeat_length. lia.
  - intros j Hj. rewrite Hlen in Hj.
    rewrite nth_slice by lia. rewrite nth_prefix_mask, <- Hcell by exact Hj.
    unfold tget. rewrite Hs. cbn [ravel numel fold_right]. f_equal. lia.
Qed.

(** What a successful [patchify_and_embed] went through. *)
Lemma patchify_and_embed_inv {A F E : Type} (zero : A) (zero_e : E)
    (self self' : Lumina A F E) (dev : device) (x : images A)
    (cap_feats t : tensor A) (cap_mask : tensor bool)
    (full : tensor A) (mask : tensor bool) (sizes : list (nat * nat))
    (caps : list nat) (fc : tensor E) :
  patchify_and_embed zero zero_e self dev x cap_feats cap_mask t
  = (self', Some (full, mask, sizes, caps, fc)) ->
  exists imgs ln cf pe,
    samples x = Some imgs
    /\ pack_lengths (patch_size self) (patch_size self) imgs cap_mask = Some ln
    /\ pack_full zero (dim self) ln cf pe = Some (mask, full)
    /\ sizes = img_sizes ln
    /\ caps = l_effective_cap_len ln
    /\ self' = with_rope self
                 (fst (RopeEmbedder.call zero_e (rope_embedder self) dev
                         match pack_position_ids (patch_size self) (patch_size self) ln with
                         | Some pos => pos
                         | None => zeros 0 []
                         end)).
Proof.
  intros H. unfold patchify_and_embed in H.
  destruct (samples x) as [imgs|] eqn:Hx; [|discriminate].
  destruct (pack_lengths _ _ imgs cap_mask) as [ln|] eqn:Hln; [|discriminate].
  destruct (pack_position_ids _ _ ln) as [pos|] eqn:Hpos; [|discriminate].
  cbn beta iota in H.
  destruct (RopeEmbedder.call _ _ _ _) as [rope lk] eqn:Hcall.
  injection H as <- H. inv_some H. injection H as <- <- <- <- <-.
  exists imgs, ln. do 2 eexists.
  split; [reflexivity|]. split; [exact Hln|]. split; [eassumption|].
  split; [reflexivity|]. split; [reflexivity|].
  rewrite Hpos, Hcall. reflexivity.
Qed.

(** C4.  In the mask returned by [patchify_and_embed], row [i] consists of
    [effective_caption_len[i] + effective_image_len[i]] entries [True]
    followed by [False] up to the packed length, so it has exactly that
    many [True] entries, contiguous from index 0.  In the scenario (patch
    size 2, one image of shape [4, 4, 4], caption mask
    [True, True, False, False]) the packed length is 6 and the mask is
    [True] at positions 0..5. *)
Theorem mask_true_prefix :
  (forall (A F E : Type) (zero : A) (zero_e : E) (self self' : Lumina A F E)
          (dev : device) (x : images A) (cap_feats t : tensor A)
          (cap_mask : tensor bool) (full : tensor A) (mask : tensor bool)
          (sizes : list (nat * nat)) (caps : list nat) (fc : tensor E),
      patchify_and_embed zero zero_e self dev x cap_feats cap_mask t
      = (self', Some (full, mask, sizes, caps, fc)) ->
      exists imgs L,
        samples x = Some imgs
        /\ shape mask = [length imgs; L]
        /\ forall i img, nth_error imgs i = Some img ->
           exists cap_len H W C r Bm Lc row,
             shape img = C :: H :: W :: r
             /\ shape cap_mask = [Bm; Lc]
             /\ cap_len = count_true (slice (i * Lc) ((i + 1) * Lc) (data cap_mask))
             /\ nth_error caps i = Some cap_len
             /\ nth_error sizes i = Some (H, W)
             /\ select i mask = Some row
             /\ cap_len + H / patch_size self * (W / patch_size self) <= L
             /\ data row
                = repeat true (cap_len + H / patch_size self * (W / patch_size self))
                  ++ repeat false
                       (L - (cap_len + H / patch_size self * (W / patch_size self)))
             /\ count_true (data row)
                = cap_len + H / patch_size self * (W / patch_size self))
  /\ (patchify_and_embed 0%Z (0, 0, 0) scenario_lumina cpu
        (ImgList [scenario_image]) scenario_cap_feats scenario_cap_mask scenario_t
      = (scenario_lumina,
         Some (scenario_full, mk [1; 6] [true; true; true; true; true; true],
               [(4, 4)], [2], scenario_freqs))
      /\ shape scenario_full = [1; 6; 16]).
Proof.
  split; [|split; vm_compute; reflexivity].
  intros A F E zero zero_e self self' dev x cap_feats t cap_mask full mask
         sizes caps fc H.
  destruct (patchify_and_embed_inv _ _ _ _ _ _ _ _ _ _ _ _ _ _ H)
    as (imgs & ln & cf & pe & Hx & Hln & Hfull & -> & -> & _).
  destruct (pack_lengths_spec _ imgs cap_mask ln Hln)
    as (Hp & Hb & Hsum & Hlsz & Hlimg & Himg & Hshape & Hmax).
  destruct (pack_full_inv A zero (dim self) ln cf pe mask full Hmax Hfull)
    as (Hsh & Hwf & Hk & Hcell).
  cbn [fst] in *. rewrite Hb in *.
  exists imgs, (max_seq_len ln). split; [exact Hx|]. split; [exact Hsh|].
  intros i img Hi.
  assert (Hlt : i < length imgs) by (apply nth_error_Some; congruence).
  destruct (Hshape i img Hi) as (H0 & W0 & C & r & Hs & Hsz).
  destruct (nth_error (l_effective_cap_len ln) i) as [cap_len|] eqn:Hcap.
  2:{ apply nth_error_None in Hcap. lia. }
  destruct (sum_dim1_nth _ _ _ _ Hsum Hcap) as (Bm & Lc & Hms & _ & Hcount).
  pose proof (Himg _ _ _ Hsz) as Hlen.
  pose proof (Hmax _ _ _ Hcap Hlen) as Hfit.
  destruct (mask_row mask (length imgs) (max_seq_len ln) i
              (cap_len + H0 / patch_size self * (W0 / patch_size self))
              Hsh Hwf Hlt Hfit) as (row & Hrow & Hdata).
  { intros j Hj. rewrite Hcell by assumption.
    replace (i <? length imgs) with true by (symmetry; now apply Nat.ltb_lt).
    unfold mask_cell. now rewrite Hcap, Hlen. }
  exists cap_len, H0, W0, C, r, Bm, Lc, row.
  split; [exact Hs|]. split; [exact Hms|]. split; [exact Hcount|].
  split; [reflexivity|]. split; [exact Hsz|]. split; [exact Hrow|].
  split; [exact Hfit|]. split; [exact Hdata|].
  rewrite Hdata. apply count_prefix_mask.
Qed.

(** The hypothesis of [mask_true_prefix] at the scenario. *)
Lemma mask_true_prefix_witness :
  exists imgs L,
    samples (ImgList [scenario_image]) = Some imgs
    /\ shape (mk [1; 6] [true; true; true; true; true; true]) = [length imgs; L]
    /\ forall i img, nth_error imgs i = Some img ->
       exists cap_len H W C r Bm Lc row,
         shape img = C :: H :: W :: r
         /\ shape scenario_cap_mask = [Bm; Lc]
         /\ cap_len = count_true (slice (i * Lc) ((i + 1) * Lc) (data scenario_cap_mask))
         /\ nth_error [2] i = Some cap_len
         /\ nth_error [(4, 4)] i = Some (H, W)
         /\ select i (mk [1; 6] [true; true; true; true; true; true]) = Some row
         /\ cap_len + H / 2 * (W / 2) <= L
         /\ data row
            = repeat true (cap_len + H / 2 * (W / 2))
              ++ repeat false (L - (cap_len + H / 2 * (W / 2)))
         /\ count_true (data row) = cap_len + H / 2 * (W / 2).
Proof.
  apply (proj1 mask_true_prefix Z unit (nat * nat * nat)%type 0%Z (0, 0, 0)
           scenario_lumina scenario_lumina cpu (ImgList [scenario_image])
           scenario_cap_feats scenario_t scenario_cap_mask scenario_full
           (mk [1; 6] [true; true; true; true; true; true]) [(4, 4)] [2]
           scenario_freqs).
  vm_compute. reflexivity.
Defined.

(** ** List or tensor *)

Lemma mapM_Forall {X Y} (f : X -> option Y) (P : Y -> Prop) (l : list X)
    (l' : list Y) :
  mapM f l = Some l' ->
  (forall x y, In x l -> f x = Some y -> P y) ->
  Forall P l'.
Proof.
  revert l'. induction l as [|a l IH]; intros l' H HP; cbn [mapM] in H.
  - injection H as <-. constructor.
  - inv_some H. injection H as <-. constructor.
    + apply (HP a); [now left | assumption].
    + apply IH; [reflexivity|]. intros x0 y0 Hin. apply HP. now right.
Qed.

Lemma samples_tensor_same_sizes {A} (t : tensor A) (imgs : list (tensor A)) :
  samples (ImgTensor t) = Some imgs -> same_sizes imgs = true.
Proof.
  cbn [samples]. intros H. inv_some H.
  destruct (shape t) as [|n0 sh'] eqn:Hs; [discriminate|].
  assert (Hall : Forall (fun s => shape s = sh') imgs).
  { apply (mapM_Forall _ _ _ _ H). intros i y _ Hy.
    unfold select in Hy. rewrite Hs in Hy.
    destruct (i <? n0); [|discriminate]. now injection Hy as <-. }
  destruct imgs as [|img0 rest]; [reflexivity|].
  inversion Hall as [|? ? H0 Hrest]; subst. cbn [same_sizes].
  apply forallb_forall. intros img Hin.
  rewrite Forall_forall in Hrest. rewrite (Hrest img Hin), !Nat.eqb_refl.
  reflexivity.
Qed.

(** C6, as the code has it.  A forward call returns one stacked tensor
    exactly when the images came in as one batched tensor, and a list of
    per-sample tensors exactly when they came in as a list; the mode is
    read off the type of the input and handed to [unpatchify].  Hence a
    batch with differing sizes always comes back as a list. *)
Theorem forward_output_mode {A F E : Type} (zero : A) (zero_e : E)
    (self self' : Lumina A F E) (dev : device) (x out : images A)
    (t cap_feats : tensor A) (cap_mask : tensor bool) :
  forward zero zero_e self dev x t cap_feats cap_mask = (self', Some out) ->
  is_tensor out = is_tensor x
  /\ forall imgs, samples x = Some imgs ->
       same_sizes imgs = false -> is_tensor out = false.
Proof.
  intros H.
  assert (Hmode : is_tensor out = is_tensor x).
  { unfold forward in H. cbv zeta in H.
    destruct (patchify_and_embed _ _ _ _ _ _ _ _) as [s r].
    injection H as _ H. inv_some H.
    unfold unpatchify in H. inv_some H; injection H as <-; reflexivity. }
  split; [exact Hmode|].
  intros imgs Hx Hhet. rewrite Hmode.
  destruct x as [l|tx]; [reflexivity|].
  rewrite (samples_tensor_same_sizes tx imgs Hx) in Hhet. discriminate.
Qed.

(** The hypothesis of [forward_output_mode] at the scenario. *)
Lemma forward_output_mode_witness :
  is_tensor (ImgList [scenario_image]) = is_tensor (ImgList [scenario_image])
  /\ forall imgs, samples (ImgList [scenario_image]) = Some imgs ->
       same_sizes imgs = false -> is_tensor (ImgList [scenario_image]) = false.
Proof.
  apply (forward_output_mode 0%Z (0, 0, 0) scenario_lumina scenario_lumina cpu
           (ImgList [scenario_image]) (ImgList [scenario_image])
           scenario_t scenario_cap_feats scenario_cap_mask).
  vm_compute. reflexivity.
Defined.

(** A batched tensor goes in, a batched tensor comes out. *)
Example forward_tensor_in_tensor_out :
  snd (forward 0%Z (0, 0, 0) scenario_lumina cpu (ImgTensor (iota [2; 4; 4; 4]))
         mixed_t mixed_cap_feats mixed_cap_mask)
  = Some (ImgTensor (iota [2; 4; 4; 4])).
Proof. vm_compute. reflexivity. Qed.

(** C6 as stated fails: two images of one size, passed as a list, come back
    as a list, not as a stacked tensor. *)
Lemma forward_output_mode_counterexample :
  same_sizes [scenario_image; scenario_image] = true
  /\ snd (forward 0%Z (0, 0, 0) scenario_lumina cpu
            (ImgList [scenario_image; scenario_image])
            mixed_t mixed_cap_feats mixed_cap_mask)
     = Some (ImgList [scenario_image; scenario_image]).
Proof. split; vm_compute; reflexivity. Qed.

(** ** The rotary tables over the life of a model *)

Section RopeLife.

Variable F : Type.
Variable E : Type.
Variable zero_e : E.
Variable cis : F -> nat -> nat -> nat -> E.

Lemma init_tables theta dims lens :
  RopeEmbedder.tables (RopeEmbedder.init F E zero_e cis theta dims lens)
  = RopeEmbedder.precompute_freqs_cis F E zero_e cis dims lens theta.
Proof.
  unfold RopeEmbedder.tables, RopeEmbedder.init. cbn [RopeEmbedder.freqs_cis].
  rewrite map_map. cbn [snd]. apply map_id.
Qed.

Lemma call_tables (self : RopeEmbedder.t F E) dev ids :
  RopeEmbedder.tables (fst (RopeEmbedder.call zero_e self dev ids))
  = RopeEmbedder.tables self.
Proof.
  unfold RopeEmbedder.tables, RopeEmbedder.call.
  cbn [fst RopeEmbedder.freqs_cis]. rewrite map_map.
  apply map_ext. now intros [d tb].
Qed.

(** The instruction at line 486 does rebind the attribute: after a call on
    another device every table is held there. *)
Lemma call_devices (self : RopeEmbedder.t F E) dev ids :
  map fst (RopeEmbedder.freqs_cis (fst (RopeEmbedder.call zero_e self dev ids)))
  = map (fun _ => dev) (RopeEmbedder.freqs_cis self).
Proof.
  unfold RopeEmbedder.call. cbn [fst RopeEmbedder.freqs_cis]. rewrite map_map.
  apply map_ext. now intros [d tb].
Qed.

Variable A : Type.
Variable zero : A.

Lemma patchify_and_embed_tables (self : Lumina A F E) dev x cf cm t :
  RopeEmbedder.tables
    (rope_embedder (fst (patchify_and_embed zero zero_e self dev x cf cm t)))
  = RopeEmbedder.tables (rope_embedder self).
Proof.
  unfold patchify_and_embed.
  destruct (samples x) as [imgs|]; [|reflexivity].
  destruct (pack_lengths _ _ imgs cm) as [ln|]; [|reflexivity].
  destruct (pack_position_ids _ _ ln) as [pos|]; [|reflexivity].
  cbn beta iota.
  pose proof (call_tables (rope_embedder self) dev pos) as Hc.
  destruct (RopeEmbedder.call _ _ _ _) as [rope lk]. exact Hc.
Qed.

Lemma patchify_and_embed_config (self : Lumina A F E) dev x cf cm t :
  let self' := fst (patchify_and_embed zero zero_e self dev x cf cm t) in
  in_channels self' = in_channels self
  /\ out_channels self' = out_channels self
  /\ patch_size self' = patch_size self.
Proof.
  unfold patchify_and_embed.
  destruct (samples x) as [imgs|]; [|now cbn].
  destruct (pack_lengths _ _ imgs cm) as [ln|]; [|now cbn].
  destruct (pack_position_ids _ _ ln) as [pos|]; [|now cbn].
  cbn beta iota. destruct (RopeEmbedder.call _ _ _ _) as [rope lk]. now cbn.
Qed.

Lemma forward_fst (self : Lumina A F E) dev x t cf cm :
  fst (forward zero zero_e self dev x t cf cm)
  = fst (patchify_and_embed zero zero_e self dev x
           (cap_embedder (nn self) cf) cm (t_embedder (nn self) t)).
Proof.
  unfold forward. cbv zeta.
  now destruct (patchify_and_embed _ _ _ _ _ _ _ _).
Qed.

Lemma run_forwards_tables (self : Lumina A F E) calls :
  RopeEmbedder.tables (rope_embedder (run_forwards zero zero_e self calls))
  = RopeEmbedder.tables (rope_embedder self).
Proof.
  revert self. induction calls as [|c calls IH]; intros self; [reflexivity|].
  unfold run_forwards in *. cbn [fold_left]. rewrite IH.
  unfold forward_call. rewrite forward_fst. apply patchify_and_embed_tables.
Qed.

Lemma run_forwards_config (self : Lumina A F E) calls :
  in_channels (run_forwards zero zero_e self calls) = in_channels self
  /\ out_channels (run_forwards zero zero_e self calls) = out_channels self
  /\ patch_size (run_forwards zero zero_e self calls) = patch_size self.
Proof.
  revert self. induction calls as [|c calls IH]; intros self; [now cbn|].
  unfold run_forwards in *. cbn [fold_left].
  destruct (IH (fst (forward_call zero zero_e self c))) as (H1 & H2 & H3).
  rewrite H1, H2, H3. unfold forward_call. rewrite forward_fst.
  apply patchify_and_embed_config.
Qed.

End RopeLife.

(** C8.  The rotary tables are computed by [precompute_freqs_cis] when the
    model is built, and whatever forward calls follow, the tables the
    embedder holds, which the next call reads, have the entries computed
    then.  (Line 486 rebinds the attribute to the tables moved to the
    device of the position ids; it never writes an entry.) *)
Theorem rope_tables_constant {A F E : Type} (zero : A) (zero_e : E)
    (cis : F -> nat -> nat -> nat -> E) (theta : F) (nn : modules A E)
    (patch_size in_channels dim n_heads : nat) (axes_dims axes_lens : list nat)
    (self : Lumina A F E) :
  Lumina_init zero_e cis theta nn patch_size in_channels dim n_heads
              axes_dims axes_lens = Some self ->
  forall calls : list (call_args A),
    RopeEmbedder.tables (rope_embedder (run_forwards zero zero_e self calls))
    = RopeEmbedder.precompute_freqs_cis F E zero_e cis axes_dims axes_lens theta.
Proof.
  intros Hinit calls. rewrite run_forwards_tables.
  unfold Lumina_init in Hinit. inv_some Hinit. injection Hinit as <-.
  cbn [rope_embedder]. apply init_tables.
Qed.

(** The hypothesis of [rope_tables_constant] at the scenario, through two
    forward calls on different devices. *)
Lemma rope_tables_constant_witness :
  RopeEmbedder.tables
    (rope_embedder
       (run_forwards 0%Z (0, 0, 0) scenario_lumina
          [ {| call_device := cuda 0; call_x := ImgList [scenario_image];
               call_t := scenario_t; call_cap_feats := scenario_cap_feats;
               call_cap_mask := scenario_cap_mask |};
            {| call_device := cpu; call_x := ImgList [scenario_image];
               call_t := scenario_t; call_cap_feats := scenario_cap_feats;
               call_cap_mask := scenario_cap_mask |} ]))
  = RopeEmbedder.precompute_freqs_cis unit (nat * nat * nat) (0, 0, 0) tag_cis
      [4; 6; 6] [3; 2; 2] tt.
Proof.
  apply (rope_tables_constant 0%Z (0, 0, 0) tag_cis tt id_modules 2 4 16 1
           [4; 6; 6] [3; 2; 2] scenario_lumina).
  reflexivity.
Defined.

(** ** The tables themselves

    The entries are complex64 numbers obtained through floating-point
    powers, products, cosines and sines; what can be said here is where
    each one sits. *)
Lemma precompute_freqs_cis_table {F E : Type} (zero_e : E)
    (cis : F -> nat -> nat -> nat -> E) (theta : F)
    (dims lens : list nat) (i d e : nat) :
  nth_error dims i = Some d -> nth_error lens i = Some e ->
  exists tb,
    nth_error (RopeEmbedder.precompute_freqs_cis F E zero_e cis dims lens theta) i
    = Some tb
    /\ shape tb = [e; (d + 1) / 2]
    /\ (d mod 2 = 0 -> shape tb = [e; d / 2])
    /\ forall p k, p < e -> k < (d + 1) / 2 ->
         tget zero_e tb [p; k] = cis theta d p k.
Proof.
  intros Hd He. unfold RopeEmbedder.precompute_freqs_cis.
  rewrite nth_error_map, (nth_error_combine dims lens i d e Hd He).
  cbn [option_map]. eexists. split; [reflexivity|].
  split; [reflexivity|]. split.
  - intros Hev. cbn [shape tabulate]. do 2 f_equal.
    pose proof (Nat.div_mod_eq d 2) as Hdm. rewrite Hev in Hdm.
    rewrite Hdm at 1. rewrite Nat.add_0_r.
    replace (2 * (d / 2) + 1) with (1 + d / 2 * 2) by lia.
    rewrite Nat.div_add by lia. reflexivity.
  - intros p k Hp Hk. now rewrite tget_tabulate by bounds.
Qed.

(** ** Output channels *)

Lemma unpatchify_image_shape {A} (zero : A) pH pW oc (xi im : tensor A) H W b :
  unpatchify_image zero pH pW oc xi H W b = Some im ->
  shape im = [oc; H / pH * (pH * 1); W / pW * (pW * 1)].
Proof.
  unfold unpatchify_image, floordiv, view. intros Hu. inv_some Hu.
  injection Hu as <-.
  repeat match goal with
         | H : (if ?c then _ else _) = Some _ |- _ =>
             destruct c; [|discriminate H]
         | H : (if ?c then _ else _) = Some _ |- _ =>
             destruct c; [discriminate H|]
         | H : Some _ = Some _ |- _ => injection H as <-
         end.
  erewrite flatten_1_2; [reflexivity|].
  erewrite flatten_3_4; reflexivity.
Qed.

(** C10.  A model built by [Lumina.__init__] has [out_channels] equal to
    the [in_channels] it was given, forward calls leave both untouched, and
    every image [unpatchify] returns has [in_channels] as its first
    dimension (its second when the images come back stacked), whatever the
    other parameters are. *)
Theorem out_channels_is_in_channels {A F E : Type} (zero : A) (zero_e : E)
    (cis : F -> nat -> nat -> nat -> E) (theta : F) (nn : modules A E)
    (patch_size in_ch dim n_heads : nat) (axes_dims axes_lens : list nat)
    (self : Lumina A F E) :
  Lumina_init zero_e cis theta nn patch_size in_ch dim n_heads
              axes_dims axes_lens = Some self ->
  in_channels self = in_ch
  /\ out_channels self = in_channels self
  /\ forall (calls : list (call_args A)) (x : tensor A)
            (img_size : list (nat * nat)) (cap_size : list nat)
            (return_tensor : bool) (out : images A),
       let self' := run_forwards zero zero_e self calls in
       out_channels self' = in_channels self'
       /\ (unpatchify zero self' x img_size cap_size return_tensor = Some out ->
           match out with
           | ImgList imgs =>
               Forall (fun im => hd_error (shape im) = Some in_ch
                                 /\ length (shape im) = 3) imgs
           | ImgTensor s =>
               nth_error (shape s) 1 = Some in_ch /\ length (shape s) = 4
           end).
Proof.
  intros Hinit. unfold Lumina_init in Hinit. inv_some Hinit.
  injection Hinit as <-.
  split; [reflexivity|]. split; [reflexivity|].
  intros calls x img_size cap_size return_tensor out self'.
  destruct (run_forwards_config F E zero_e A zero
              {| in_channels := in_ch; out_channels := in_ch;
                 patch_size := patch_size; nn := nn;
                 axes_dims := axes_dims; axes_lens := axes_lens;
                 rope_embedder :=
                   RopeEmbedder.init F E zero_e cis theta axes_dims axes_lens;
                 dim := dim; n_heads := n_heads |} calls) as (Hi & Ho & Hps).
  fold self' in Hi, Ho, Hps. cbn [in_channels out_channels] in Hi, Ho.
  clearbody self'. split; [congruence|].
  intros Hu. unfold unpatchify in Hu. rewrite Ho in Hu. inv_some Hu.
  - match goal with Hm : mapM _ _ = Some ?l, Hst : stack ?l = Some ?s |- _ =>
      injection Hu as <-;
      assert (Hsh : Forall (fun im => exists Hh Ww, shape im = [in_ch; Hh; Ww]) l)
    end.
    { eapply mapM_Forall; [eassumption|]. intros i y _ Hy. cbn beta in Hy. inv_some Hy.
      apply unpatchify_image_shape in Hy. eauto. }
    unfold stack in *.
    match goal with Hst : match ?l with [] => _ | _ :: _ => _ end = Some _ |- _ =>
      destruct l as [|t0 ts]; [discriminate|];
      destruct (forallb _ _); [|discriminate]; injection Hst as <- end.
    inversion Hsh as [|? ? (Hh & Ww & H0) _]; subst. cbn [shape]. rewrite H0.
    split; reflexivity.
  - injection Hu as <-.
    eapply mapM_Forall; [eassumption|]. intros i y _ Hy. cbn beta in Hy. inv_some Hy.
    apply unpatchify_image_shape in Hy. rewrite Hy. split; reflexivity.
Qed.

(** The hypothesis of [out_channels_is_in_channels] at the scenario. *)
Lemma out_channels_is_in_channels_witness :
  in_channels scenario_lumina = 4
  /\ out_channels scenario_lumina = in_channels scenario_lumina
  /\ forall (calls : list (call_args Z)) (x : tensor Z)
            (img_size : list (nat * nat)) (cap_size : list nat)
            (return_tensor : bool) (out : images Z),
       let self' := run_forwards 0%Z (0, 0, 0) scenario_lumina calls in
       out_channels self' = in_channels self'
       /\ (unpatchify 0%Z self' x img_size cap_size return_tensor = Some out ->
           match out with
           | ImgList imgs =>
               Forall (fun im => hd_error (shape im) = Some 4
                                 /\ length (shape im) = 3) imgs
           | ImgTensor s =>
               nth_error (shape s) 1 = Some 4 /\ length (shape s) = 4
           end).
Proof.
  apply (out_channels_is_in_channels 0%Z (0, 0, 0) tag_cis tt id_modules
           2 4 16 1 [4; 6; 6] [3; 2; 2] scenario_lumina).
  reflexivity.
Defined.

(** ** Grouped-query attention *)


Section RepeatKV.

Variable A : Type.
Variable zero : A.

Lemma repeat_kv_shape n B T KV D (x : tensor A) :
  shape x = [B; T; KV; D] -> 1 <= n ->
  shape (JointAttention.repeat_kv zero n x) = [B; T; KV * n; D].
Proof.
  intros Hs Hn. unfold JointAttention.repeat_kv.
  destruct (Nat.leb_spec 1 n); [|lia].
  erewrite flatten_2_3.
  2:{ unfold repeat_t, unsqueeze. rewrite Hs. reflexivity. }
  f_equal; [lia|]. f_equal; [lia|]. f_equal; [lia|]. f_equal. lia.
Qed.

Lemma repeat_kv_get n B T KV D (x : tensor A) b s h d :
  shape x = [B; T; KV; D] -> 1 <= n ->
  b < B -> s < T -> h < KV * n -> d < D ->
  tget zero (JointAttention.repeat_kv zero n x) [b; s; h; d]
  = tget zero x [b; s; h / n; d].
Proof.
  intros Hs Hn Hb Hs' Hh Hd.
  unfold tget at 1. rewrite (repeat_kv_shape n B T KV D x Hs Hn).
  unfold JointAttention.repeat_kv. destruct (Nat.leb_spec 1 n); [|lia].
  rewrite flatten_data.
  assert (Hg : h / n < KV) by (apply Nat.Div0.div_lt_upper_bound; lia).
  assert (Hr : h mod n < n) by (apply Nat.mod_upper_bound; lia).
  pose proof (Nat.div_mod_eq h n) as Hhe.
  transitivity
    (tget zero (repeat_t zero [1; 1; 1; n; 1] (unsqueeze 3 x))
          [b; s; h / n; h mod n; d]).
  - unfold tget. f_equal.
    unfold repeat_t, unsqueeze. rewrite Hs.
    cbn [shape tabulate firstn skipn app combine map ravel numel fold_right].
    rewrite Hhe at 1. ring.
  - unfold repeat_t, unsqueeze. rewrite Hs.
    cbn [shape data firstn skipn app combine map].
    rewrite tget_tabulate by bounds.
    unfold tget, bindex.
    cbn [shape data combine map ravel numel fold_right].
    rewrite Hs. cbn [ravel numel fold_right].
    rewrite Nat.mod_1_r, !Nat.mod_small by assumption. f_equal. ring.
Qed.

End RepeatKV.

Lemma view_shape {A} sh (t v : tensor A) : view sh t = Some v -> shape v = sh.
Proof. unfold view. destruct (_ =? _); [|discriminate]. now intros [= <-]. Qed.

Lemma same_shape_true {A} sh (t : tensor A) : same_shape sh t = true -> shape t = sh.
Proof. unfold same_shape. now destruct (list_eq_dec _ _ _). Qed.

Section AttendShape.

Variable A : Type.
Variable E : Type.
Variable zero : A.
Variable linear_qkv : tensor A -> tensor A.
Variable rms_norm : tensor A -> tensor A.
Variable apply_rotary_emb : tensor A -> tensor E -> tensor A.
Variable sdpa_values :
  tensor A -> tensor A -> tensor A -> tensor bool -> nat -> list A.



End AttendShape.


(** In the attention of the scenario the kernel returns [100 * k + v] for
    every key and value entry it is given: each of the two key/value heads
    of a token reaches it four times. *)
Example gqa_attend_runs :
  gqa_attend (iota [1; 2; 8]) (mk [1; 2] [true; true])
  = Some (mk [1; 2; 8]
             [911; 911; 911; 911; 1012; 1012; 1012; 1012;
              2123; 2123; 2123; 2123; 2224; 2224; 2224; 2224]%Z).
Proof. vm_compute. reflexivity. Qed.


(** * Further properties of the code *)

(** ** Feed-forward width *)



(** ** Unpatchify *)

Lemma permute_40213 {A} (zero : A) (C Ht p Wt q : nat) (d : list A)
    hi wi ph pw c :
  hi < Ht -> wi < Wt -> ph < p -> pw < q -> c < C ->
  tget zero (permute zero [4; 0; 2; 1; 3] (mk [Ht; Wt; p; q; C] d))
       [c; hi; ph; wi; pw]
  = tget zero (mk [Ht; Wt; p; q; C] d) [hi; wi; ph; pw; c].
Proof.
  intros. unfold permute. cbn [shape pick map nth].
  rewrite tget_tabulate by bounds. reflexivity.
Qed.

Lemma rows_inside {A} (t : tensor A) T D a b :
  shape t = [T; D] -> wf t -> a <= b -> b <= T ->
  rows a b t = mk [b - a; D] (slice (a * D) (b * D) (data t)).
Proof.
  intros Hs Hw Hab Hb. unfold rows, clamp. rewrite Hs.
  rewrite !Nat.min_l by lia. cbn [numel fold_right].
  now rewrite !Nat.mul_1_r.
Qed.

Lemma pixel_cell y p Ht :
  p <> 0 -> y < Ht * p ->
  y / p < Ht /\ y mod p < p /\ y = y / p * p + y mod p.
Proof.
  intros Hp Hy. repeat split.
  - apply Nat.Div0.div_lt_upper_bound. lia.
  - now apply Nat.mod_upper_bound.
  - pose proof (Nat.div_mod_eq y p). lia.
Qed.

(** X2.  [unpatchify] reads sample tokens [begin, begin + H/p * W/p) and
    puts value [(ph * p + pw) * C + c] of token [begin + row * W/p + col]
    at channel [c], pixel [(row * p + ph, col * p + pw)].  Stated for one
    sample whose token matrix has [p * p * C] columns and enough rows. *)
Theorem unpatchify_image_layout {A : Type} (zero : A)
    (p C H W begin T : nat) (xi : tensor A) :
  shape xi = [T; p * p * C] -> wf xi -> p <> 0 ->
  begin + H / p * (W / p) <= T ->
  exists im,
    unpatchify_image zero p p C xi H W begin = Some im
    /\ shape im = [C; H / p * p; W / p * p]
    /\ forall c y x, c < C -> y < H / p * p -> x < W / p * p ->
         tget zero im [c; y; x]
         = tget zero xi [begin + y / p * (W / p) + x / p;
                         (y mod p * p + x mod p) * C + c].
Proof.
  intros Hs Hwf Hp Hfit. unfold unpatchify_image.
  rewrite !floordiv_pos by exact Hp.
  generalize dependent (W / p). generalize dependent (H / p). intros Ht Wt Hfit.
  rewrite (rows_inside xi T (p * p * C) begin (begin + Ht * Wt) Hs Hwf)
    by lia.
  set (d := slice (begin * (p * p * C)) ((begin + Ht * Wt) * (p * p * C)) (data xi)).
  assert (Hd : length d = numel [Ht; Wt; p; p; C]).
  { unfold d. rewrite length_slice.
    - cbn [numel fold_right]. rewrite <- Nat.mul_sub_distr_r.
      replace (begin + Ht * Wt - begin) with (Ht * Wt) by lia. ring.
    - rewrite Hwf, Hs. cbn [numel fold_right]. rewrite Nat.mul_1_r.
      apply Nat.mul_le_mono_r. exact Hfit. }
  unfold view. cbn [data]. rewrite Hd, Nat.eqb_refl.
  eexists. split; [reflexivity|]. split.
  { erewrite flatten_1_2; [|erewrite flatten_3_4; reflexivity].
    now rewrite !Nat.mul_1_r. }
  intros c y x Hc Hy Hx.
  destruct (pixel_cell y p Ht Hp Hy) as (Hyq & Hyr & Hye).
  destruct (pixel_cell x p Wt Hp Hx) as (Hxq & Hxr & Hxe).
  transitivity
    (tget zero (permute zero [4; 0; 2; 1; 3] (mk [Ht; Wt; p; p; C] d))
          [c; y / p; y mod p; x / p; x mod p]).
  - unfold tget.
    erewrite flatten_1_2; [|erewrite flatten_3_4; reflexivity].
    rewrite !flatten_data, permute_shape.
    cbn [shape pick map nth ravel numel fold_right]. f_equal.
    rewrite Hye at 1. rewrite Hxe at 1. ring.
  - rewrite permute_40213 by assumption.
    unfold tget. rewrite Hs. cbn [shape data ravel numel fold_right].
    assert (Hr : ravel [Ht; Wt; p; p; C] [y / p; x / p; y mod p; x mod p; c]
                 < numel [Ht; Wt; p; p; C]) by (apply ravel_bound; bounds).
    rewrite <- Hd in Hr. unfold d in Hr. rewrite length_slice in Hr.
    2:{ rewrite Hwf, Hs. cbn [numel fold_right]. rewrite Nat.mul_1_r.
        apply Nat.mul_le_mono_r. exact Hfit. }
    cbn [ravel numel fold_right] in Hr.
    unfold d. rewrite nth_slice by exact Hr.
    f_equal. ring.
Qed.

(** The hypotheses of [unpatchify_image_layout] at six tokens of sixteen
    values, the image starting at token 2. *)
Lemma unpatchify_image_layout_witness :
  exists im,
    unpatchify_image 0%Z 2 2 4 (iota [6; 16]) 4 4 2 = Some im
    /\ shape im = [4; 4 / 2 * 2; 4 / 2 * 2]
    /\ forall c y x, c < 4 -> y < 4 / 2 * 2 -> x < 4 / 2 * 2 ->
         tget 0%Z im [c; y; x]
         = tget 0%Z (iota [6; 16])
             [2 + y / 2 * (4 / 2) + x / 2; (y mod 2 * 2 + x mod 2) * 4 + c].
Proof.
  apply (unpatchify_image_layout 0%Z 2 4 4 4 2 6 (iota [6; 16]));
    [reflexivity | reflexivity | lia | cbn; lia].
Defined.

Lemma mapM_seq {Y} (f : nat -> option Y) n (l : list Y) :
  mapM f (seq 0 n) = Some l ->
  length l = n
  /\ forall i, i < n -> exists y, f i = Some y /\ nth_error l i = Some y.
Proof.
  intros H. split.
  - rewrite (mapM_length _ _ _ H). apply length_seq.
  - intros i Hi.
    apply (mapM_nth f (seq 0 n) l i i H).
    rewrite nth_error_seq. destruct (Nat.ltb_spec i n); [reflexivity | lia].
Qed.

(** What a successful run of the loop of [unpatchify] went through. *)
Lemma unpatchify_loop {A F E} (zero : A) (self : Lumina A F E) (x : tensor A)
    (img_size : list (nat * nat)) (cap_size : list nat) n
    (imgs : list (tensor A)) :
  mapM (fun i =>
          let? (H, W) := nth_error img_size i in
          let? begin := nth_error cap_size i in
          let? xi := select i x in
          unpatchify_image zero (patch_size self) (patch_size self)
            (out_channels self) xi H W begin)
       (seq 0 n) = Some imgs ->
  length imgs = n
  /\ n <= length img_size
  /\ n <= length cap_size
  /\ (0 < n -> patch_size self <> 0)
  /\ forall i im H W,
       nth_error imgs i = Some im -> nth_error img_size i = Some (H, W) ->
       shape im = [out_channels self;
                   H / patch_size self * patch_size self;
                   W / patch_size self * patch_size self].
Proof.
  intros Hm. destruct (mapM_seq _ _ _ Hm) as (Hlen & Hall).
  assert (Hone : forall i, i < n ->
            exists im H W b,
              nth_error imgs i = Some im
              /\ nth_error img_size i = Some (H, W)
              /\ nth_error cap_size i = Some b
              /\ patch_size self <> 0
              /\ shape im = [out_channels self;
                             H / patch_size self * patch_size self;
                             W / patch_size self * patch_size self]).
  { intros i Hi. destruct (Hall i Hi) as (im & Hf & Hn).
    cbn beta in Hf. inv_some Hf.
    pose proof (unpatchify_image_shape _ _ _ _ _ _ _ _ _ Hf) as Hsh.
    rewrite !Nat.mul_1_r in Hsh.
    assert (Hp : patch_size self <> 0).
    { unfold unpatchify_image, floordiv in Hf.
      destruct (Nat.eqb_spec (patch_size self) 0); [discriminate | assumption]. }
    eauto 10. }
  split; [exact Hlen|].
  split; [|split; [|split]].
  - destruct n as [|n]; [lia|].
    destruct (Hone n) as (im & H & W & b & _ & Hs & _); [lia|].
    apply Nat.le_succ_l, nth_error_Some. congruence.
  - destruct n as [|n]; [lia|].
    destruct (Hone n) as (im & H & W & b & _ & _ & Hc & _); [lia|].
    apply Nat.le_succ_l, nth_error_Some. congruence.
  - intros Hn. destruct (Hone 0 Hn) as (im & H & W & b & _ & _ & _ & Hp & _).
    exact Hp.
  - intros i im H W Hi Hs.
    assert (Hlt : i < n).
    { rewrite <- Hlen. apply nth_error_Some. congruence. }
    destruct (Hone i Hlt) as (im' & H' & W' & b & Hi' & Hs' & _ & _ & Hsh).
    congruence.
Qed.

(** X3.  When [unpatchify] returns a list it holds one image per batch
    row; [img_size] and [cap_size] had an entry for every row, the patch
    size was not 0 (unless the batch was empty), and image [i] has shape
    [out_channels, (H // p) * p, (W // p) * p]: heights and widths that are
    not multiples of the patch size come back floored. *)
Theorem unpatchify_list_shapes {A F E : Type} (zero : A)
    (self : Lumina A F E) (x : tensor A) (img_size : list (nat * nat))
    (cap_size : list nat) (out : images A) :
  unpatchify zero self x img_size cap_size false = Some out ->
  exists n rest imgs,
    shape x = n :: rest
    /\ out = ImgList imgs
    /\ length imgs = n
    /\ n <= length img_size
    /\ n <= length cap_size
    /\ (0 < n -> patch_size self <> 0)
    /\ forall i im H W,
         nth_error imgs i = Some im -> nth_error img_size i = Some (H, W) ->
         shape im = [out_channels self;
                     H / patch_size self * patch_size self;
                     W / patch_size self * patch_size self].
Proof.
  intros Hu. unfold unpatchify in Hu.
  destruct (shape x) as [|n rest] eqn:Hs; [discriminate|].
  cbn [hd_error] in Hu. inv_some Hu. injection Hu as <-.
  match goal with Hm : mapM _ _ = Some ?l |- _ =>
    exists n, rest, l; split; [reflexivity|]; split; [reflexivity|];
    exact (unpatchify_loop zero self x img_size cap_size n l Hm)
  end.
Qed.

(** The hypothesis of [unpatchify_list_shapes] at a batch of one. *)
Lemma unpatchify_list_shapes_witness :
  exists n rest imgs,
    shape scenario_full = n :: rest
    /\ ImgList [scenario_image] = ImgList imgs
    /\ length imgs = n
    /\ n <= length [(4, 4)]
    /\ n <= length [2]
    /\ (0 < n -> patch_size scenario_lumina <> 0)
    /\ forall i im H W,
         nth_error imgs i = Some im -> nth_error [(4, 4)] i = Some (H, W) ->
         shape im = [out_channels scenario_lumina;
                     H / patch_size scenario_lumina * patch_size scenario_lumina;
                     W / patch_size scenario_lumina * patch_size scenario_lumina].
Proof.
  apply (unpatchify_list_shapes 0%Z scenario_lumina scenario_full
           [(4, 4)] [2] (ImgList [scenario_image])).
  vm_compute. reflexivity.
Defined.

Lemma stack_spec {A} (ts : list (tensor A)) (s : tensor A) :
  stack ts = Some s ->
  exists t0 rest,
    ts = t0 :: rest
    /\ shape s = length ts :: shape t0
    /\ data s = concat (map data ts)
    /\ Forall (fun t => shape t = shape t0) ts.
Proof.
  unfold stack. destruct ts as [|t0 rest]; [discriminate|].
  destruct (forallb _ _) eqn:Hall; [|discriminate]. intros [= <-].
  exists t0, rest. repeat split.
  apply Forall_forall. intros t Hin.
  rewrite forallb_forall in Hall. now apply same_shape_true, Hall.
Qed.

(** X4.  With [return_tensor] set, [unpatchify] returns a tensor only for a
    non-empty batch whose samples all have the same floored height and
    width; the result has shape [N, out_channels, H', W']. *)
Theorem unpatchify_stacked_shape {A F E : Type} (zero : A)
    (self : Lumina A F E) (x : tensor A) (img_size : list (nat * nat))
    (cap_size : list nat) (out : images A) :
  unpatchify zero self x img_size cap_size true = Some out ->
  exists n rest s H' W',
    shape x = n :: rest
    /\ out = ImgTensor s
    /\ 0 < n
    /\ shape s = [n; out_channels self; H'; W']
    /\ forall i H W,
         i < n -> nth_error img_size i = Some (H, W) ->
         H / patch_size self * patch_size self = H'
         /\ W / patch_size self * patch_size self = W'.
Proof.
  intros Hu. unfold unpatchify in Hu.
  destruct (shape x) as [|n rest] eqn:Hs; [discriminate|].
  cbn [hd_error] in Hu. inv_some Hu. injection Hu as <-.
  match goal with Hm : mapM _ _ = Some ?l, Hst : stack ?l = Some ?s |- _ =>
    destruct (unpatchify_loop zero self x img_size cap_size n l Hm)
      as (Hlen & Hsz & _ & _ & Hshape);
    destruct (stack_spec l s Hst) as (t0 & tl & -> & Hss & _ & Hall)
  end.
  cbn [length] in Hlen.
  destruct (nth_error img_size 0) as [[H0 W0]|] eqn:H0s.
  2:{ apply nth_error_None in H0s. lia. }
  pose proof (Hshape 0 t0 H0 W0 eq_refl H0s) as Ht0.
  exists n, rest. eexists.
  exists (H0 / patch_size self * patch_size self),
         (W0 / patch_size self * patch_size self).
  split; [reflexivity|]. split; [reflexivity|]. split; [lia|].
  split; [rewrite Hss, Ht0; cbn [length]; now rewrite Hlen|].
  intros i H W Hi Hsi.
  destruct (nth_error (t0 :: tl) i) as [im|] eqn:Him.
  2:{ apply nth_error_None in Him. cbn [length] in Him. lia. }
  pose proof (Hshape i im H W Him Hsi) as Him'.
  rewrite Forall_forall in Hall.
  rewrite (Hall im (nth_error_In _ _ Him)), Ht0 in Him'.
  now injection Him'.
Qed.

(** The hypothesis of [unpatchify_stacked_shape] at a batch of one. *)
Lemma unpatchify_stacked_shape_witness :
  exists n rest s H' W',
    shape scenario_full = n :: rest
    /\ ImgTensor (iota [1; 4; 4; 4]) = ImgTensor s
    /\ 0 < n
    /\ shape s = [n; out_channels scenario_lumina; H'; W']
    /\ forall i H W,
         i < n -> nth_error [(4, 4)] i = Some (H, W) ->
         H / patch_size scenario_lumina * patch_size scenario_lumina = H'
         /\ W / patch_size scenario_lumina * patch_size scenario_lumina = W'.
Proof.
  apply (unpatchify_stacked_shape 0%Z scenario_lumina scenario_full
           [(4, 4)] [2] (ImgTensor (iota [1; 4; 4; 4]))).
  vm_compute. reflexivity.
Defined.

(** ** Forward calls that stop early, and what a call leaves behind *)

Lemma forward_of_pack {A F E} (zero : A) (zero_e : E) (self : Lumina A F E)
    dev x t cf cm :
  (forall cf' t', patchify_and_embed zero zero_e self dev x cf' cm t' = (self, None)) ->
  forward zero zero_e self dev x t cf cm = (self, None).
Proof. intros H. unfold forward. cbv zeta. now rewrite H. Qed.

Lemma sum_dim1_length (m : tensor bool) (l : list nat) Bm L :
  shape m = [Bm; L] -> sum_dim1 m = Some l -> length l = Bm.
Proof.
  unfold sum_dim1. intros ->. intros [= <-].
  now rewrite length_map, length_seq.
Qed.

(** X5.  A forward call raises, and leaves the model as it was, when the
    batch is empty, when the patch size is 0, and when the caption mask is
    not two-dimensional: none of these gets as far as the rotary lookup. *)
Theorem forward_rejects_early {A F E : Type} (zero : A) (zero_e : E)
    (self : Lumina A F E) (dev : device) (x : images A)
    (t cap_feats : tensor A) (cap_mask : tensor bool) :
  samples x = Some [] \/ patch_size self = 0 \/ length (shape cap_mask) <> 2 ->
  forward zero zero_e self dev x t cap_feats cap_mask = (self, None).
Proof.
  intros Hcase. apply forward_of_pack. intros cf' t'.
  unfold patchify_and_embed.
  destruct (samples x) as [imgs|] eqn:Hx; [|reflexivity].
  destruct (pack_lengths _ _ imgs cap_mask) as [ln|] eqn:Hln; [|reflexivity].
  exfalso.
  destruct (pack_lengths_spec _ imgs cap_mask ln Hln) as (Hp & _ & Hsum & _).
  destruct Hcase as [He | [Hz | Hm]].
  - injection He as ->. discriminate Hln.
  - contradiction.
  - unfold sum_dim1 in Hsum.
    destruct (shape cap_mask) as [|? [|? [|? ?]]]; try discriminate.
    now apply Hm.
Qed.

(** The hypothesis of [forward_rejects_early] at an empty list. *)
Lemma forward_rejects_early_witness :
  forward 0%Z (0, 0, 0) scenario_lumina cpu (ImgList [])
    scenario_t scenario_cap_feats scenario_cap_mask
  = (scenario_lumina, None).
Proof.
  apply (forward_rejects_early 0%Z (0, 0, 0) scenario_lumina cpu (ImgList [])
           scenario_t scenario_cap_feats scenario_cap_mask).
  left. reflexivity.
Defined.

(** X6.  A caption mask with fewer rows than the batch has images makes the
    forward call raise (the position-id loop reads
    [l_effective_cap_len[i]] for every image), again before the rotary
    lookup. *)
Theorem forward_needs_mask_rows {A F E : Type} (zero : A) (zero_e : E)
    (self : Lumina A F E) (dev : device) (x : images A)
    (t cap_feats : tensor A) (cap_mask : tensor bool)
    (imgs : list (tensor A)) (Bm L : nat) :
  samples x = Some imgs ->
  shape cap_mask = [Bm; L] ->
  Bm < length imgs ->
  forward zero zero_e self dev x t cap_feats cap_mask = (self, None).
Proof.
  intros Hx Hm Hlt. apply forward_of_pack. intros cf' t'.
  unfold patchify_and_embed. rewrite Hx.
  destruct (pack_lengths _ _ imgs cap_mask) as [ln|] eqn:Hln; [|reflexivity].
  destruct (pack_position_ids _ _ ln) as [pos|] eqn:Hpos; [|reflexivity].
  exfalso.
  destruct (pack_lengths_spec _ imgs cap_mask ln Hln)
    as (Hp & Hb & Hsum & _ & _ & Himg & _ & Hmax).
  destruct (pack_position_ids_inv _ ln Hp Himg Hmax pos Hpos) as (_ & Hk & _).
  rewrite (sum_dim1_length _ _ _ _ Hm Hsum) in Hk. lia.
Qed.

(** The hypotheses of [forward_needs_mask_rows] at two images and a mask
    of one row. *)
Lemma forward_needs_mask_rows_witness :
  forward 0%Z (0, 0, 0) scenario_lumina cpu
    (ImgList [scenario_image; scenario_image])
    scenario_t scenario_cap_feats scenario_cap_mask
  = (scenario_lumina, None).
Proof.
  apply (forward_needs_mask_rows 0%Z (0, 0, 0) scenario_lumina cpu
           (ImgList [scenario_image; scenario_image])
           scenario_t scenario_cap_feats scenario_cap_mask
           [scenario_image; scenario_image] 1 4);
    [reflexivity | reflexivity | cbn; lia].
Defined.

Lemma patchify_and_embed_samples {A F E} (zero : A) (zero_e : E)
    (self : Lumina A F E) dev x x' cf cm t :
  samples x = samples x' ->
  patchify_and_embed zero zero_e self dev x cf cm t
  = patchify_and_embed zero zero_e self dev x' cf cm t.
Proof. intros H. unfold patchify_and_embed. now rewrite H. Qed.

(** X7.  A batched tensor is processed exactly as the list of its samples
    is; the only difference is that the images returned for the list are
    stacked at the end (and the call raises if they cannot be). *)
Theorem forward_tensor_as_list {A F E : Type} (zero : A) (zero_e : E)
    (self : Lumina A F E) (dev : device) (tx : tensor A)
    (imgs : list (tensor A)) (t cap_feats : tensor A) (cap_mask : tensor bool) :
  samples (ImgTensor tx) = Some imgs ->
  forward zero zero_e self dev (ImgTensor tx) t cap_feats cap_mask
  = let (self', r) :=
      forward zero zero_e self dev (ImgList imgs) t cap_feats cap_mask in
    (self',
     match r with
     | Some (ImgList out) => option_map ImgTensor (stack out)
     | _ => None
     end).
Proof.
  intros Hx. unfold forward. cbv zeta.
  rewrite (patchify_and_embed_samples zero zero_e self dev (ImgTensor tx)
             (ImgList imgs)) by exact Hx.
  destruct (patchify_and_embed _ _ _ _ _ _ _ _) as [s [[[[[px pm] ps] pc] pf]|]];
    [|reflexivity].
  cbn [is_tensor]. f_equal. unfold unpatchify.
  destruct (hd_error _); [|reflexivity].
  destruct (mapM _ _) as [out|]; [|reflexivity].
  now destruct (stack out).
Qed.

(** The hypothesis of [forward_tensor_as_list] at a batch of two. *)
Lemma forward_tensor_as_list_witness :
  forward 0%Z (0, 0, 0) scenario_lumina cpu (ImgTensor (iota [2; 4; 4; 4]))
    mixed_t mixed_cap_feats mixed_cap_mask
  = let (self', r) :=
      forward 0%Z (0, 0, 0) scenario_lumina cpu
        (ImgList [mk [4; 4; 4] (map Z.of_nat (seq 1 64));
                  mk [4; 4; 4] (map Z.of_nat (seq 65 64))])
        mixed_t mixed_cap_feats mixed_cap_mask in
    (self',
     match r with
     | Some (ImgList out) => option_map ImgTensor (stack out)
     | _ => None
     end).
Proof.
  apply (forward_tensor_as_list 0%Z (0, 0, 0) scenario_lumina cpu
           (iota [2; 4; 4; 4])
           [mk [4; 4; 4] (map Z.of_nat (seq 1 64));
            mk [4; 4; 4] (map Z.of_nat (seq 65 64))]
           mixed_t mixed_cap_feats mixed_cap_mask).
  vm_compute. reflexivity.
Defined.

(** X8.  The one thing a forward call changes in the model is where the
    rotary tables live: a call that returns leaves every table on the
    device of the images, with the entries it had, and everything else as
    it was; a call that raises leaves the model either untouched or in
    that same state. *)
Theorem forward_moves_tables {A F E : Type} (zero : A) (zero_e : E)
    (self self' : Lumina A F E) (dev : device) (x : images A)
    (t cap_feats : tensor A) (cap_mask : tensor bool)
    (r : option (images A)) :
  forward zero zero_e self dev x t cap_feats cap_mask = (self', r) ->
  let moved :=
    with_rope self
      {| RopeEmbedder.theta := RopeEmbedder.theta (rope_embedder self);
         RopeEmbedder.axes_dims := RopeEmbedder.axes_dims (rope_embedder self);
         RopeEmbedder.axes_lens := RopeEmbedder.axes_lens (rope_embedder self);
         RopeEmbedder.freqs_cis :=
           map (fun '(_, tb) => (dev, tb))
               (RopeEmbedder.freqs_cis (rope_embedder self)) |} in
  (self' = self \/ self' = moved) /\ (r <> None -> self' = moved).
Proof.
  intros H moved. unfold forward in H. cbv zeta in H.
  unfold patchify_and_embed in H.
  destruct (samples x) as [imgs|];
    [|injection H as <- <-; split; [now left | congruence]].
  destruct (pack_lengths _ _ imgs cap_mask) as [ln|];
    [|injection H as <- <-; split; [now left | congruence]].
  destruct (pack_position_ids _ _ ln) as [pos|];
    [|injection H as <- <-; split; [now left | congruence]].
  cbn beta iota in H. unfold RopeEmbedder.call in H.
  injection H as <- _. split; [now right | reflexivity].
Qed.

(** The hypothesis of [forward_moves_tables] at a call on another device. *)
Lemma forward_moves_tables_witness :
  let self' :=
    fst (forward 0%Z (0, 0, 0) scenario_lumina (cuda 0)
           (ImgList [scenario_image]) scenario_t scenario_cap_feats
           scenario_cap_mask) in
  let moved :=
    with_rope scenario_lumina
      {| RopeEmbedder.theta := RopeEmbedder.theta (rope_embedder scenario_lumina);
         RopeEmbedder.axes_dims :=
           RopeEmbedder.axes_dims (rope_embedder scenario_lumina);
         RopeEmbedder.axes_lens :=
           RopeEmbedder.axes_lens (rope_embedder scenario_lumina);
         RopeEmbedder.freqs_cis :=
           map (fun '(_, tb) => (cuda 0, tb))
               (RopeEmbedder.freqs_cis (rope_embedder scenario_lumina)) |} in
  (self' = scenario_lumina \/ self' = moved)
  /\ (Some (ImgList [scenario_image]) <> None -> self' = moved).
Proof.
  apply (forward_moves_tables 0%Z (0, 0, 0) scenario_lumina _ (cuda 0)
           (ImgList [scenario_image]) scenario_t scenario_cap_feats
           scenario_cap_mask (Some (ImgList [scenario_image]))).
  vm_compute. reflexivity.
Defined.

(** ** The rotary lookup *)

Lemma mapM_map {X Y} (f : X -> option Y) (g : X -> Y) (l : list X) :
  (forall x, In x l -> f x = Some (g x)) -> mapM f l = Some (map g l).
Proof.
  induction l as [|a l IH]; intros H; cbn [mapM map]; [reflexivity|].
  rewrite (H a) by now left. rewrite IH; [reflexivity|].
  intros x Hx. apply H. now right.
Qed.

Lemma forallb_seq_true (f : nat -> bool) n :
  (forall k, k < n -> f k = true) -> forallb f (seq 0 n) = true.
Proof.
  intros H. apply forallb_forall. intros k Hk. apply in_seq in Hk. apply H. lia.
Qed.

Section Lookup.

Variable F : Type.
Variable E : Type.
Variable zero_e : E.
Variable cis : F -> nat -> nat -> nat -> E.
Variable theta : F.
Variable dims lens : list nat.
Variable ids : tensor nat.
Variable B T K : nat.
Hypothesis Hids : shape ids = [B; T; K].
Hypothesis Hlens : length dims <= length lens.
Hypothesis HK : length dims <= K.

Let tables := RopeEmbedder.precompute_freqs_cis F E zero_e cis dims lens theta.
Let part := lookup_part zero_e tables dims ids B T.

Lemma nth_tables i d e :
  nth_error dims i = Some d -> nth_error lens i = Some e ->
  nth_error tables i
  = Some (tabulate [e; half_dim d]
            (fun idx => match idx with
                        | [p; k] => cis theta d p k
                        | _ => zero_e
                        end)).
Proof.
  intros Hd He. unfold tables, RopeEmbedder.precompute_freqs_cis.
  rewrite nth_error_map, (nth_error_combine dims lens i d e Hd He).
  reflexivity.
Qed.

Lemma axis_lookup i :
  i < length dims ->
  exists d e,
    nth_error dims i = Some d /\ nth_error lens i = Some e
    /\ nth_error tables i
       = Some (tabulate [e; half_dim d]
                 (fun idx => match idx with
                             | [p; k] => cis theta d p k
                             | _ => zero_e
                             end)).
Proof.
  intros Hi.
  destruct (nth_error dims i) as [d|] eqn:Hd.
  2:{ apply nth_error_None in Hd. lia. }
  destruct (nth_error lens i) as [e|] eqn:He.
  2:{ apply nth_error_None in He. lia. }
  exists d, e. split; [reflexivity|]. split; [reflexivity|].
  now apply nth_tables.
Qed.

Lemma gather_axis_in_range i :
  i < length dims ->
  (forall b s e, b < B -> s < T -> nth_error lens i = Some e ->
                 tget 0 ids [b; s; i] < e) ->
  RopeEmbedder.gather_axis zero_e (nth i tables (zeros zero_e [])) ids i
  = Some (part i).
Proof.
  intros Hi Hin. destruct (axis_lookup i Hi) as (d & e & Hd & He & Ht).
  rewrite (nth_error_nth _ _ _ Ht).
  unfold RopeEmbedder.gather_axis. rewrite Hids. cbn [shape tabulate].
  unfold clamp. rewrite !Nat.min_l by lia.
  replace (i + 1 - i) with 1 by lia.
  rewrite forallb_seq_true.
  - unfold part, lookup_part. rewrite (nth_error_nth _ _ _ Ht), (nth_error_nth _ _ _ Hd).
    reflexivity.
  - intros k Hk. destruct (1 * half_dim d =? 0); [lia|].
    pose proof (unravel_bounds [B; T] k) as Hb.
    cbn [numel fold_right] in Hb. rewrite Nat.mul_1_r in Hb.
    specialize (Hb Hk).
    remember (unravel [B; T] k) as bs eqn:Hbs. clear Hbs. inv_bounds.
    cbn [app]. apply Nat.ltb_lt. now apply Hin.
Qed.

Lemma gather_axis_out_of_range i b s d e :
  i < length dims -> b < B -> s < T ->
  nth_error dims i = Some d -> nth_error lens i = Some e ->
  0 < d -> e <= tget 0 ids [b; s; i] ->
  RopeEmbedder.gather_axis zero_e (nth i tables (zeros zero_e [])) ids i = None.
Proof.
  intros Hi Hb Hs Hd He Hpos Hout.
  rewrite (nth_error_nth _ _ _ (nth_tables i d e Hd He)).
  unfold RopeEmbedder.gather_axis. rewrite Hids. cbn [shape tabulate].
  unfold clamp. rewrite !Nat.min_l by lia.
  replace (i + 1 - i) with 1 by lia.
  assert (Hh : 1 * half_dim d <> 0).
  { unfold half_dim. rewrite Nat.mul_1_l.
    assert (1 <= (d + 1) / 2); [|lia].
    apply Nat.div_le_lower_bound; lia. }
  destruct (Nat.eqb_spec (1 * half_dim d) 0); [contradiction|].
  match goal with |- (if ?c then _ else _) = None =>
    destruct c eqn:Hall; [|reflexivity] end.
  exfalso. rewrite forallb_forall in Hall.
  specialize (Hall (ravel [B; T] [b; s])).
  rewrite unravel_ravel in Hall by bounds. cbn [app] in Hall.
  assert (Hin : In (ravel [B; T] [b; s]) (seq 0 (B * T))).
  { apply in_seq. pose proof (ravel_bound [B; T] [b; s]) as Hr.
    cbn [numel fold_right] in Hr. rewrite Nat.mul_1_r in Hr.
    split; [lia|]. apply Hr. bounds. }
  specialize (Hall Hin). apply Nat.ltb_lt in Hall. lia.
Qed.

End Lookup.

Lemma cat_get_offset {A} (zero : A) (parts : list (tensor A)) b s :
  forall i p k,
    nth_error parts i = Some p -> k < nth 2 (shape p) 0 ->
    cat_get zero parts b s
      (list_sum (map (fun q => nth 2 (shape q) 0) (firstn i parts)) + k)
    = tget zero p [b; s; k].
Proof.
  induction parts as [|q parts IH]; intros i p k Hn Hk.
  - destruct i; discriminate.
  - destruct i as [|i]; cbn [nth_error firstn map cat_get] in *.
    + injection Hn as ->. change (list_sum []) with 0. cbn [Nat.add].
      destruct (Nat.ltb_spec k (nth 2 (shape p) 0)); [reflexivity | lia].
    + change (list_sum (?a :: ?l)) with (a + list_sum l).
      destruct (Nat.ltb_spec
                  (nth 2 (shape q) 0
                   + list_sum (map (fun q0 => nth 2 (shape q0) 0) (firstn i parts)) + k)
                  (nth 2 (shape q) 0)); [lia|].
      rewrite <- (IH i p k Hn Hk). f_equal. lia.
Qed.

Lemma list_sum_firstn_le (l : list nat) i x :
  nth_error l i = Some x -> list_sum (firstn i l) + x <= list_sum l.
Proof.
  revert i.
  induction l as [|a l IH]; intros [|i] Hn; cbn [nth_error firstn] in *;
    try discriminate.
  - injection Hn as ->. change (list_sum []) with 0.
    change (list_sum (x :: l)) with (x + list_sum l). lia.
  - specialize (IH i Hn).
    change (list_sum (a :: firstn i l)) with (a + list_sum (firstn i l)).
    change (list_sum (a :: l)) with (a + list_sum l). lia.
Qed.

Lemma cat_last_parts {A} (zero : A) (parts : list (tensor A)) B T :
  parts <> [] ->
  (forall p, In p parts -> exists w, shape p = [B; T; w]) ->
  cat_last zero parts
  = Some (tabulate [B; T; list_sum (map (fun p => nth 2 (shape p) 0) parts)]
            (fun idx => match idx with
                        | [b; s; d] => cat_get zero parts b s d
                        | _ => zero
                        end)).
Proof.
  intros Hne Hall. unfold cat_last.
  destruct parts as [|p0 rest]; [contradiction|].
  destruct (Hall p0 (or_introl eq_refl)) as (w0 & Hs0). rewrite Hs0.
  replace (forallb _ (p0 :: rest)) with true; [reflexivity|].
  symmetry. apply forallb_forall. intros p Hp.
  destruct (Hall p Hp) as (w & ->). now rewrite !Nat.eqb_refl.
Qed.

Lemma map_nth_seq {X} (f : nat -> X) (l : list nat) :
  map (fun i => f (nth i l 0)) (seq 0 (length l)) = map f l.
Proof.
  apply (nth_ext _ _ (f (nth 0 l 0)) (f 0)).
  - now rewrite !length_map, length_seq.
  - intros k Hk. rewrite length_map, length_seq in Hk.
    rewrite (map_nth (fun i => f (nth i l 0)) (seq 0 (length l)) 0 k).
    rewrite seq_nth by exact Hk. cbn [Nat.add].
    now rewrite (map_nth f l 0 k).
Qed.

Section Call.

Variable F : Type.
Variable E : Type.
Variable zero_e : E.
Variable cis : F -> nat -> nat -> nat -> E.
Variable self : RopeEmbedder.t F E.
Variable dev : device.
Variable ids : tensor nat.
Variable B T K : nat.
Hypothesis Htab :
  RopeEmbedder.tables self
  = RopeEmbedder.precompute_freqs_cis F E zero_e cis
      (RopeEmbedder.axes_dims self) (RopeEmbedder.axes_lens self)
      (RopeEmbedder.theta self).
Hypothesis Hids : shape ids = [B; T; K].
Hypothesis Hlens :
  length (RopeEmbedder.axes_dims self) <= length (RopeEmbedder.axes_lens self).
Hypothesis HK : length (RopeEmbedder.axes_dims self) <= K.

Let dims := RopeEmbedder.axes_dims self.
Let lens := RopeEmbedder.axes_lens self.
Let tables := RopeEmbedder.tables self.
Let part := lookup_part zero_e tables dims ids B T.

Lemma moved_table i :
  i < length dims ->
  nth_error (map (fun '(_, tb) => (dev, tb)) (RopeEmbedder.freqs_cis self)) i
  = Some (dev, nth i tables (zeros zero_e [])).
Proof.
  intros Hi.
  assert (Hlen : length tables = length dims).
  { unfold tables. rewrite Htab. unfold RopeEmbedder.precompute_freqs_cis.
    rewrite length_map, length_combine. unfold dims. lia. }
  unfold tables, RopeEmbedder.tables in *. rewrite length_map in Hlen.
  rewrite nth_error_map.
  destruct (nth_error (RopeEmbedder.freqs_cis self) i) as [[d tb]|] eqn:Hn.
  - cbn [option_map]. do 2 f_equal.
    symmetry. apply nth_error_nth. rewrite nth_error_map, Hn. reflexivity.
  - apply nth_error_None in Hn. lia.
Qed.

(** In range, the call returns the concatenation of the gathered slices. *)
Lemma call_in_range :
  dims <> [] ->
  (forall b s i e, b < B -> s < T -> nth_error lens i = Some e ->
                   i < length dims -> tget 0 ids [b; s; i] < e) ->
  snd (RopeEmbedder.call zero_e self dev ids)
  = cat_last zero_e (map part (seq 0 (length dims))).
Proof.
  intros Hne Hin. unfold RopeEmbedder.call. cbn [snd]. fold dims.
  rewrite (mapM_map _ part); [reflexivity|].
  intros i Hi. apply in_seq in Hi. rewrite moved_table by lia.
  unfold part, tables. rewrite Htab.
  apply (gather_axis_in_range F E zero_e cis _ dims lens ids B T K Hids Hlens HK);
    [lia|].
  intros b s e Hb Hs He. apply (Hin b s i e); (assumption || lia).
Qed.

Lemma call_out_of_range b s i d e :
  b < B -> s < T ->
  nth_error dims i = Some d -> nth_error lens i = Some e ->
  0 < d -> e <= tget 0 ids [b; s; i] ->
  snd (RopeEmbedder.call zero_e self dev ids) = None.
Proof.
  intros Hb Hs Hd He Hpos Hout. unfold RopeEmbedder.call. cbn [snd]. fold dims.
  assert (Hi : i < length dims) by (apply nth_error_Some; congruence).
  rewrite (mapM_none _ _ i); [reflexivity | apply in_seq; lia |].
  rewrite moved_table by exact Hi. unfold tables. rewrite Htab.
  now apply (gather_axis_out_of_range F E zero_e cis _ dims lens ids B T K
               Hids Hlens HK i b s d e).
Qed.

Lemma parts_shape p :
  In p (map part (seq 0 (length dims))) -> exists w, shape p = [B; T; w].
Proof.
  intros Hp. apply in_map_iff in Hp as (i & <- & _). eexists. reflexivity.
Qed.

Lemma parts_width :
  map (fun p => nth 2 (shape p) 0) (map part (seq 0 (length dims)))
  = map half_dim dims.
Proof.
  rewrite map_map. cbn [part lookup_part shape tabulate nth].
  rewrite <- (map_nth_seq half_dim dims).
  apply map_ext. intros i. apply Nat.mul_1_l.
Qed.

End Call.

(** X9.  For position ids that stay inside the tables, the rotary lookup
    returns a tensor with [sum(ceil(d / 2))] columns per token, in which
    the block of axis [i] starts after the blocks of the axes before it
    and holds, for token [(b, s)], row [ids[b, s, i]] of the table of
    axis [i]. *)
Theorem rope_lookup_entries {F E : Type} (zero_e : E)
    (cis : F -> nat -> nat -> nat -> E) (self : RopeEmbedder.t F E)
    (dev : device) (ids : tensor nat) (B T K : nat) :
  RopeEmbedder.tables self
  = RopeEmbedder.precompute_freqs_cis F E zero_e cis
      (RopeEmbedder.axes_dims self) (RopeEmbedder.axes_lens self)
      (RopeEmbedder.theta self) ->
  shape ids = [B; T; K] ->
  length (RopeEmbedder.axes_dims self) <= length (RopeEmbedder.axes_lens self) ->
  length (RopeEmbedder.axes_dims self) <= K ->
  RopeEmbedder.axes_dims self <> [] ->
  (forall b s i e, b < B -> s < T ->
     nth_error (RopeEmbedder.axes_lens self) i = Some e ->
     i < length (RopeEmbedder.axes_dims self) ->
     tget 0 ids [b; s; i] < e) ->
  exists r,
    snd (RopeEmbedder.call zero_e self dev ids) = Some r
    /\ shape r = [B; T; list_sum (map half_dim (RopeEmbedder.axes_dims self))]
    /\ forall b s i d k,
         b < B -> s < T ->
         nth_error (RopeEmbedder.axes_dims self) i = Some d -> k < half_dim d ->
         tget zero_e r
           [b; s;
            list_sum (map half_dim (firstn i (RopeEmbedder.axes_dims self))) + k]
         = cis (RopeEmbedder.theta self) d (tget 0 ids [b; s; i]) k.
Proof.
  intros Htab Hids Hlens HK Hne Hin.
  set (dims := RopeEmbedder.axes_dims self) in *.
  set (lens := RopeEmbedder.axes_lens self) in *.
  set (parts := map (lookup_part zero_e (RopeEmbedder.tables self) dims ids B T)
                    (seq 0 (length dims))).
  rewrite (call_in_range F E zero_e cis self dev ids B T K Htab Hids Hlens HK Hne Hin).
  fold dims. fold parts.
  assert (Hpne : parts <> []).
  { unfold parts. destruct dims; [contradiction | discriminate]. }
  rewrite (cat_last_parts zero_e parts B T Hpne
             (parts_shape F E zero_e self ids B T)).
  pose proof (parts_width F E zero_e self ids B T) as Hw. fold dims parts in Hw.
  eexists. split; [reflexivity|]. split; [cbn [shape tabulate]; now rewrite Hw|].
  intros b s i d k Hb Hs Hd Hk.
  assert (Hi : i < length dims) by (apply nth_error_Some; congruence).
  assert (Hoff : list_sum (map half_dim (firstn i dims))
                 = list_sum (map (fun p => nth 2 (shape p) 0) (firstn i parts))).
  { rewrite <- !firstn_map. now rewrite Hw. }
  assert (Hpi : nth_error parts i
                = Some (lookup_part zero_e (RopeEmbedder.tables self) dims ids B T i)).
  { unfold parts. now apply nth_error_map_seq. }
  assert (Hwi : nth 2 (shape (lookup_part zero_e (RopeEmbedder.tables self)
                                dims ids B T i)) 0 = half_dim d).
  { cbn [lookup_part shape tabulate nth].
    rewrite (nth_error_nth _ _ _ Hd). apply Nat.mul_1_l. }
  rewrite tget_tabulate.
  2:{ repeat (constructor; try assumption). rewrite Hw.
      pose proof (list_sum_firstn_le (map half_dim dims) i (half_dim d)) as Hle.
      rewrite nth_error_map, Hd in Hle. specialize (Hle eq_refl).
      rewrite firstn_map in Hle. lia. }
  rewrite Hoff, (cat_get_offset zero_e parts b s i _ k Hpi) by (now rewrite Hwi).
  unfold lookup_part.
  rewrite tget_tabulate
    by (repeat (constructor; try assumption);
        rewrite (nth_error_nth _ _ _ Hd), Nat.mul_1_l; exact Hk).
  destruct (nth_error lens i) as [e|] eqn:He.
  2:{ apply nth_error_None in He. lia. }
  rewrite Htab. fold dims lens.
  rewrite (nth_error_nth _ _ _
             (nth_tables F E zero_e cis _ dims lens i d e Hd He)).
  rewrite tget_tabulate; [reflexivity|].
  repeat (constructor; try assumption). now apply (Hin b s i e).
Qed.

(** The hypotheses of [rope_lookup_entries] at the embedder and the
    position ids of the scenario. *)
Lemma rope_lookup_entries_witness :
  exists r,
    snd (RopeEmbedder.call (0, 0, 0) (rope_embedder scenario_lumina) cpu
           scenario_position_ids) = Some r
    /\ shape r = [1; 6; list_sum (map half_dim [4; 6; 6])]
    /\ forall b s i d k,
         b < 1 -> s < 6 ->
         nth_error [4; 6; 6] i = Some d -> k < half_dim d ->
         tget (0, 0, 0) r [b; s; list_sum (map half_dim (firstn i [4; 6; 6])) + k]
         = tag_cis tt d (tget 0 scenario_position_ids [b; s; i]) k.
Proof.
  apply (rope_lookup_entries (0, 0, 0) tag_cis (rope_embedder scenario_lumina)
           cpu scenario_position_ids 1 6 3);
    [reflexivity | reflexivity | cbn; lia | cbn; lia | discriminate |].
  intros b s i e Hb Hs He Hi. cbn in Hi.
  assert (b = 0) by lia. subst b.
  destruct i as [|[|[|i]]]; [| | |lia];
    cbn in He; injection He as <-;
    do 6 (destruct s as [|s]; [vm_compute; lia|]); lia.
Defined.

(** ** Position ids against the table lengths *)

Lemma position_id_cell_bound p ln i j cap H W L0 L1 L2 :
  nth_error (l_effective_cap_len ln) i = Some cap ->
  nth_error (img_sizes ln) i = Some (H, W) ->
  cap < L0 -> H / p <= L1 -> W / p <= L2 -> 0 < L1 -> 0 < L2 ->
  position_id_cell p ln i j 0 < L0
  /\ position_id_cell p ln i j 1 < L1
  /\ position_id_cell p ln i j 2 < L2.
Proof.
  intros Hc Hs H0 H1 H2 P1 P2. unfold position_id_cell. rewrite Hc, Hs.
  destruct (Nat.ltb_spec j cap); cbn [Nat.eqb]; [lia|].
  destruct (Nat.ltb_spec j (cap + H / p * (W / p))) as [Hj|Hj]; [|lia].
  assert (Hw : W / p <> 0) by nia.
  split; [lia|]. split.
  - assert ((j - cap) / (W / p) < H / p); [|lia].
    apply Nat.Div0.div_lt_upper_bound. nia.
  - pose proof (Nat.mod_upper_bound (j - cap) (W / p) Hw). lia.
Qed.

Lemma position_id_cell_image p ln i cap H W :
  nth_error (l_effective_cap_len ln) i = Some cap ->
  nth_error (img_sizes ln) i = Some (H, W) ->
  0 < H / p * (W / p) ->
  position_id_cell p ln i cap 0 = cap.
Proof.
  intros Hc Hs Hpos. unfold position_id_cell. rewrite Hc, Hs.
  rewrite Nat.ltb_irrefl.
  destruct (Nat.ltb_spec cap (cap + H / p * (W / p))); [reflexivity | lia].
Qed.

(** X10.  The caption axis of the rotary tables bounds the caption length:
    a sample whose image has at least one token and whose effective caption
    length is not below [axes_lens[0]] makes the forward call raise, since
    its image tokens carry the caption length as their first position id
    and the lookup reads that row of the first table. *)
Theorem forward_caption_limit {A F E : Type} (zero : A) (zero_e : E)
    (cis : F -> nat -> nat -> nat -> E) (self : Lumina A F E) (dev : device)
    (x : images A) (t cap_feats : tensor A) (cap_mask : tensor bool)
    (imgs : list (tensor A)) (i : nat) (img : tensor A) (C H W : nat)
    (r : list nat) (caps : list nat) (cap d0 L0 : nat) :
  RopeEmbedder.tables (rope_embedder self)
  = RopeEmbedder.precompute_freqs_cis F E zero_e cis
      (RopeEmbedder.axes_dims (rope_embedder self))
      (RopeEmbedder.axes_lens (rope_embedder self))
      (RopeEmbedder.theta (rope_embedder self)) ->
  length (RopeEmbedder.axes_dims (rope_embedder self))
  <= length (RopeEmbedder.axes_lens (rope_embedder self)) ->
  length (RopeEmbedder.axes_dims (rope_embedder self)) <= 3 ->
  nth_error (RopeEmbedder.axes_dims (rope_embedder self)) 0 = Some d0 ->
  0 < d0 ->
  nth_error (RopeEmbedder.axes_lens (rope_embedder self)) 0 = Some L0 ->
  samples x = Some imgs ->
  nth_error imgs i = Some img ->
  shape img = C :: H :: W :: r ->
  0 < H / patch_size self * (W / patch_size self) ->
  sum_dim1 cap_mask = Some caps ->
  nth_error caps i = Some cap ->
  L0 <= cap ->
  snd (forward zero zero_e self dev x t cap_feats cap_mask) = None.
Proof.
  intros Htab Hlens HK Hd0 Hpos0 HL0 Hx Hi Hs Himgpos Hsum Hcap Hle.
  assert (Hp : forall cf t',
            snd (patchify_and_embed zero zero_e self dev x cf cap_mask t') = None).
  { intros cf t'. unfold patchify_and_embed. rewrite Hx.
    destruct (pack_lengths _ _ imgs cap_mask) as [ln|] eqn:Hln; [|reflexivity].
    destruct (pack_position_ids _ _ ln) as [pos|] eqn:Hpos; [|reflexivity].
    cbn beta iota.
    destruct (pack_lengths_spec _ imgs cap_mask ln Hln)
      as (Hp & Hb & Hsum' & _ & _ & Himg & Hshape & Hmax).
    destruct (pack_position_ids_inv _ ln Hp Himg Hmax pos Hpos)
      as (Hsh & _ & Hcell).
    rewrite Hsum in Hsum'. injection Hsum' as ->.
    destruct (Hshape i img Hi) as (H' & W' & C' & r' & Hs' & Hsz).
    rewrite Hs in Hs'. injection Hs' as <- <- <- <-.
    pose proof (Hmax _ _ _ Hcap (Himg _ _ _ Hsz)) as Hfit.
    assert (Hlt : i < bsz ln).
    { rewrite Hb. apply nth_error_Some. congruence. }
    assert (Hid : tget 0 pos [i; cap; 0] = cap).
    { rewrite Hcell by lia.
      replace (i <? bsz ln) with true by (symmetry; now apply Nat.ltb_lt).
      now apply (position_id_cell_image _ ln i cap H W). }
    pose proof (call_out_of_range F E zero_e cis (rope_embedder self) dev pos
                  (bsz ln) (max_seq_len ln) 3 Htab Hsh Hlens HK
                  i cap 0 d0 L0) as Hnone.
    rewrite Hid in Hnone.
    specialize (Hnone Hlt ltac:(lia) Hd0 HL0 Hpos0 Hle).
    destruct (RopeEmbedder.call _ _ _ _) as [rope lk].
    cbn [snd] in *. now rewrite Hnone. }
  unfold forward. cbv zeta.
  specialize (Hp (cap_embedder (nn self) cap_feats) (t_embedder (nn self) t)).
  destruct (patchify_and_embed _ _ _ _ _ _ _ _) as [self' res].
  cbn [snd] in *. now rewrite Hp.
Qed.

(** X11.  Conversely the lookup inside [patchify_and_embed] returns when
    every effective caption length is below [axes_lens[0]] and no image
    has more than [axes_lens[1]] rows or [axes_lens[2]] columns of patches
    (both lengths at least 1); its result has one row per token of the
    packed sequence. *)
Theorem pack_lookup_in_range {A F E : Type} (zero_e : E)
    (cis : F -> nat -> nat -> nat -> E) (rope : RopeEmbedder.t F E)
    (dev : device) (p : nat) (imgs : list (tensor A)) (cap_mask : tensor bool)
    (ln : lengths) (pos : tensor nat) (d0 d1 d2 L0 L1 L2 : nat) :
  RopeEmbedder.tables rope
  = RopeEmbedder.precompute_freqs_cis F E zero_e cis
      (RopeEmbedder.axes_dims rope) (RopeEmbedder.axes_lens rope)
      (RopeEmbedder.theta rope) ->
  RopeEmbedder.axes_dims rope = [d0; d1; d2] ->
  RopeEmbedder.axes_lens rope = [L0; L1; L2] ->
  pack_lengths p p imgs cap_mask = Some ln ->
  pack_position_ids p p ln = Some pos ->
  0 < L1 -> 0 < L2 ->
  (forall i cap H W,
     nth_error (l_effective_cap_len ln) i = Some cap ->
     nth_error (img_sizes ln) i = Some (H, W) ->
     cap < L0 /\ H / p <= L1 /\ W / p <= L2) ->
  exists fc,
    snd (RopeEmbedder.call zero_e rope dev pos) = Some fc
    /\ shape fc = [length imgs; max_seq_len ln;
                   half_dim d0 + half_dim d1 + half_dim d2].
Proof.
  intros Htab Hdims Hlens Hln Hpos P1 P2 Hbound.
  destruct (pack_lengths_spec _ imgs cap_mask ln Hln)
    as (Hp & Hb & _ & Hlsz & _ & Himg & _ & Hmax).
  destruct (pack_position_ids_inv _ ln Hp Himg Hmax pos Hpos)
    as (Hsh & Hk & Hcell).
  assert (Hin : forall b s i e, b < bsz ln -> s < max_seq_len ln ->
            nth_error (RopeEmbedder.axes_lens rope) i = Some e ->
            i < length (RopeEmbedder.axes_dims rope) ->
            tget 0 pos [b; s; i] < e).
  { intros b s i e Hb' Hs' He Hi. rewrite Hdims in Hi. cbn [length] in Hi.
    rewrite Hcell by lia.
    replace (b <? bsz ln) with true by (symmetry; now apply Nat.ltb_lt).
    destruct (nth_error (l_effective_cap_len ln) b) as [cap|] eqn:Hc.
    2:{ apply nth_error_None in Hc. lia. }
    destruct (nth_error (img_sizes ln) b) as [[H W]|] eqn:Hs.
    2:{ apply nth_error_None in Hs. lia. }
    destruct (Hbound b cap H W Hc Hs) as (B0 & B1 & B2).
    destruct (position_id_cell_bound p ln b s cap H W L0 L1 L2
                Hc Hs B0 B1 B2 P1 P2) as (C0 & C1 & C2).
    rewrite Hlens in He.
    destruct i as [|[|[|i]]]; [| | |lia]; cbn [nth_error] in He;
      injection He as <-; assumption. }
  assert (Hl : length (RopeEmbedder.axes_dims rope)
               <= length (RopeEmbedder.axes_lens rope))
    by (rewrite Hdims, Hlens; cbn; lia).
  assert (HK : length (RopeEmbedder.axes_dims rope) <= 3)
    by (rewrite Hdims; cbn; lia).
  assert (Hne : RopeEmbedder.axes_dims rope <> []) by (rewrite Hdims; discriminate).
  rewrite (call_in_range F E zero_e cis rope dev pos (bsz ln) (max_seq_len ln) 3
             Htab Hsh Hl HK Hne Hin).
  rewrite (cat_last_parts zero_e _ (bsz ln) (max_seq_len ln)).
  - eexists. split; [reflexivity|]. cbn [shape tabulate].
    rewrite (parts_width F E zero_e rope pos (bsz ln) (max_seq_len ln)).
    rewrite Hdims, Hb. cbn [map list_sum fold_right]. do 3 f_equal. lia.
  - rewrite Hdims. discriminate.
  - apply parts_shape.
Qed.

(** The hypotheses of [forward_caption_limit] at a caption of three tokens
    and a caption axis of three rows. *)
Lemma forward_caption_limit_witness :
  snd (forward 0%Z (0, 0, 0) scenario_lumina cpu (ImgList [scenario_image])
         scenario_t scenario_cap_feats long_cap_mask) = None.
Proof.
  apply (forward_caption_limit 0%Z (0, 0, 0) tag_cis scenario_lumina cpu
           (ImgList [scenario_image]) scenario_t scenario_cap_feats
           long_cap_mask [scenario_image] 0 scenario_image 4 4 4 [] [3] 3 4 3);
    try reflexivity; cbn; lia.
Defined.

(** The hypotheses of [pack_lookup_in_range] at the scenario. *)
Lemma pack_lookup_in_range_witness :
  exists fc,
    snd (RopeEmbedder.call (0, 0, 0) (rope_embedder scenario_lumina) cpu
           scenario_position_ids) = Some fc
    /\ shape fc = [length [scenario_image]; max_seq_len scenario_lengths;
                   half_dim 4 + half_dim 6 + half_dim 6].
Proof.
  apply (pack_lookup_in_range (0, 0, 0) tag_cis (rope_embedder scenario_lumina)
           cpu 2 [scenario_image] scenario_cap_mask scenario_lengths
           scenario_position_ids 4 6 6 3 2 2);
    try reflexivity; try lia.
  intros i cap H W Hc Hs.
  destruct i as [|i]; [|destruct i; discriminate].
  injection Hc as <-. injection Hs as <- <-. cbn. lia.
Defined.

(** ** The padded buffers *)

Lemma pack_lengths_img_bound {A} (pH pW : nat) (imgs : list (tensor A))
    (cap_mask : tensor bool) (ln : lengths) i g :
  pack_lengths pH pW imgs cap_mask = Some ln ->
  nth_error (l_effective_img_len ln) i = Some g ->
  g <= max_img_len ln.
Proof.
  intros H Hg. unfold pack_lengths in H. inv_some H. injection H as <-.
  cbn [l_effective_img_len max_img_len] in *.
  match goal with
  | E : max_list _ = Some ?m |- _ <= ?m => apply (max_list_ge _ _ g E)
  end.
  now apply (nth_error_In _ i).
Qed.

(** The shape of the tokens of one image. *)
Lemma patchify_image_shape {A} (zero : A) (p : nat) (img toks : tensor A) :
  patchify_image zero p p img = Some toks ->
  exists C H W,
    shape img = [C; H; W] /\ p <> 0
    /\ shape toks = [H / p * (W / p); p * p * C].
Proof.
  unfold patchify_image.
  destruct (shape img) as [|C [|H [|W [|? ?]]]] eqn:Hs; try discriminate.
  intros Hp. inv_some Hp. injection Hp as <-.
  assert (Hp0 : p <> 0).
  { unfold floordiv in *. destruct (Nat.eqb_spec p 0); [discriminate|assumption]. }
  rewrite !floordiv_pos in * by exact Hp0.
  repeat match goal with E : Some _ = Some _ |- _ => injection E as <- end.
  exists C, H, W. split; [reflexivity|]. split; [exact Hp0|].
  match goal with E : view _ _ = Some ?v |- _ =>
    apply view_shape in E; rename E into Hv end.
  erewrite flatten_0_1;
    [|erewrite flatten_2_end; [reflexivity|];
      rewrite permute_shape, Hv; reflexivity].
  now rewrite !Nat.mul_1_r, !Nat.mul_assoc.
Qed.

Lemma pack_images_inv {A} (zero : A) (pH pW : nat) (ln : lengths)
    (imgs : list (tensor A)) (embed : tensor A) (msk : tensor bool) :
  (forall i g, nth_error (l_effective_img_len ln) i = Some g ->
               g <= max_img_len ln) ->
  pack_images zero pH pW ln imgs = Some (embed, msk) ->
  exists flat_x x0 d,
    mapM (patchify_image zero pH pW) imgs = Some flat_x
    /\ hd_error flat_x = Some x0
    /\ hd_error (rev (shape x0)) = Some d
    /\ images_inv zero ln flat_x d (bsz ln) (embed, msk).
Proof.
  intros Hfit H. unfold pack_images in H.
  destruct (mapM _ imgs) as [flat_x|] eqn:Hflat; [|discriminate].
  destruct (hd_error flat_x) as [x0|] eqn:Hx0; [|discriminate].
  destruct (hd_error (rev (shape x0))) as [d|] eqn:Hd; [|discriminate].
  exists flat_x, x0, d.
  split; [reflexivity|]. split; [exact Hx0|]. split; [exact Hd|].
  refine (for_range_seq _ (images_inv zero ln flat_x d) (bsz ln) 0 _
            (embed, msk) _ _ H).
  - split; [reflexivity|]. split; [reflexivity|]. split.
    + intros i j c _ _ _. cbn [fst Nat.ltb Nat.leb]. apply tget_zeros.
    + intros i j _ _. cbn [snd Nat.ltb Nat.leb]. apply tget_zeros.
  - intros k [e m] [e' m'] _ (Hse & Hsm & He & Hm) Hb. cbn [fst snd] in *.
    inv_some Hb. injection Hb as <- <-.
    match goal with
    | Hg : nth_error (l_effective_img_len ln) k = Some ?g,
      Hx : nth_error flat_x k = Some ?xi,
      H1 : setitem zero e k 0 ?g None ?xi = Some _,
      H2 : setitem false m k 0 ?g None (scalar true) = Some _ |- _ =>
        pose proof (Hfit _ _ Hg) as Hle;
        destruct (setitem_rows _ _ _ _ _ _ _ _ _ [d] Hse H1) as (Hs1 & _ & Hv1);
        destruct (setitem_rows _ _ _ _ _ _ _ _ _ [] Hsm H2) as (Hs2 & _ & Hv2);
        rename Hg into Hgk; rename Hx into Hxk
    end.
    unfold clamp in Hv1, Hv2. rewrite Nat.min_0_l, Nat.min_l in Hv1, Hv2 by lia.
    split; [exact Hs1|]. split; [exact Hs2|]. split.
    + intros i j c Hi Hj Hc. rewrite Hv1 by (assumption || bounds). rewrite He by assumption.
      cbn [Nat.leb andb]. rewrite Nat.sub_0_r, andb_true_r.
      destruct (Nat.eqb_spec i k) as [->|Hik].
      * replace (k <? S k) with true by (symmetry; apply Nat.ltb_lt; lia).
        rewrite Nat.ltb_irrefl. unfold image_cell. rewrite Hgk, Hxk.
        cbn [andb]. reflexivity.
      * cbn [andb].
        destruct (Nat.ltb_spec i k), (Nat.ltb_spec i (S k)); try reflexivity; lia.
    + intros i j Hi Hj. rewrite Hv2 by (assumption || bounds). rewrite Hm by assumption.
      cbn [Nat.leb andb]. rewrite Nat.sub_0_r, andb_true_r.
      destruct (Nat.eqb_spec i k) as [->|Hik].
      * replace (k <? S k) with true by (symmetry; apply Nat.ltb_lt; lia).
        rewrite Nat.ltb_irrefl. unfold image_mask_cell. rewrite Hgk.
        cbn [andb].
        destruct (j <? _); [apply (tget_scalar false true)|reflexivity].
      * cbn [andb].
        destruct (Nat.ltb_spec i k), (Nat.ltb_spec i (S k)); try reflexivity; lia.
Qed.

(** The padded token buffer of a batch whose images all have [C] channels,
    row by row. *)
Lemma pack_images_rows {A : Type} (zero : A) (p C : nat)
    (imgs : list (tensor A)) (cap_mask : tensor bool) (ln : lengths)
    (embed : tensor A) (msk : tensor bool) :
  pack_lengths p p imgs cap_mask = Some ln ->
  (forall img, In img imgs -> hd_error (shape img) = Some C) ->
  pack_images zero p p ln imgs = Some (embed, msk) ->
  shape embed = [length imgs; max_img_len ln; p * p * C]
  /\ shape msk = [length imgs; max_img_len ln]
  /\ forall i img, nth_error imgs i = Some img ->
       exists toks H W,
         shape img = [C; H; W]
         /\ patchify_image zero p p img = Some toks
         /\ H / p * (W / p) <= max_img_len ln
         /\ forall j, j < max_img_len ln ->
              tget false msk [i; j] = (j <? H / p * (W / p))
              /\ forall c, c < p * p * C ->
                   tget zero embed [i; j; c]
                   = if j <? H / p * (W / p)
                     then tget zero toks [j; c] else zero.
Proof.
  intros Hln HC Hpack.
  destruct (pack_lengths_spec p imgs cap_mask ln Hln)
    as (Hp & Hb & _ & _ & _ & Himg & Hshape & _).
  destruct (pack_images_inv zero p p ln imgs embed msk
              (fun i g => pack_lengths_img_bound p p imgs cap_mask ln i g Hln)
              Hpack)
    as (flat_x & x0 & d & Hflat & Hx0 & Hd & Hse & Hsm & He & Hm).
  cbn [fst snd] in *.
  assert (Htok : forall i img, nth_error imgs i = Some img ->
            exists toks H W,
              shape img = [C; H; W]
              /\ patchify_image zero p p img = Some toks
              /\ nth_error flat_x i = Some toks
              /\ shape toks = [H / p * (W / p); p * p * C]
              /\ nth_error (l_effective_img_len ln) i = Some (H / p * (W / p))).
  { intros i img Hn.
    destruct (mapM_nth _ _ _ _ _ Hflat Hn) as (toks & Hpt & Hnt).
    destruct (patchify_image_shape _ _ _ _ Hpt) as (C' & H & W & Hs & _ & Hst).
    pose proof (HC img (nth_error_In _ _ Hn)) as HC'. rewrite Hs in HC'.
    injection HC' as ->.
    destruct (Hshape i img Hn) as (H' & W' & r0 & r & Hs' & Hsz).
    rewrite Hs in Hs'. injection Hs' as _ <- <- _.
    exists toks, H, W. repeat split; try assumption. now apply Himg. }
  assert (Hdim : d = p * p * C).
  { destruct flat_x as [|x0' fx]; [discriminate|]. injection Hx0 as ->.
    destruct imgs as [|img0 imgs']; [discriminate|].
    destruct (Htok 0 img0 eq_refl) as (toks & H & W & _ & _ & Hn & Hst & _).
    injection Hn as <-. rewrite Hst in Hd. now injection Hd as <-. }
  subst d. rewrite Hb in *.
  split; [exact Hse|]. split; [exact Hsm|].
  intros i img Hn.
  destruct (Htok i img Hn) as (toks & H & W & Hs & Hpt & Hnt & Hst & Hg).
  assert (Hi : i < length imgs) by (apply nth_error_Some; congruence).
  exists toks, H, W. split; [exact Hs|]. split; [exact Hpt|].
  split; [exact (pack_lengths_img_bound p p imgs cap_mask ln i _ Hln Hg)|].
  intros j Hj. split.
  - rewrite Hm by assumption. unfold image_mask_cell. rewrite Hg.
    now destruct (Nat.ltb_spec i (length imgs)); [|lia].
  - intros c Hc. rewrite He by assumption. unfold image_cell.
    rewrite Hg, Hnt, Hst.
    destruct (Nat.ltb_spec i (length imgs)); [|lia].
    destruct (Nat.ltb_spec j (H / p * (W / p))); [|reflexivity].
    unfold bindex. cbn [combine map]. now rewrite !Nat.mod_small by assumption.
Qed.

(** Rows [a:b] of sample [i] of a three-dimensional tensor, cell by cell. *)
Lemma select_shape3 {A} (t ti : tensor A) B T D i :
  shape t = [B; T; D] -> select i t = Some ti ->
  i < B /\ ti = mk [T; D] (slice (i * (T * D)) (S i * (T * D)) (data t)).
Proof.
  intros Hs H. unfold select in H. rewrite Hs in H.
  destruct (Nat.ltb_spec i B); [|discriminate]. injection H as <-.
  cbn [numel fold_right]. now rewrite !Nat.mul_1_r.
Qed.

Lemma rows_shape2 {A} (ti : tensor A) T D a b :
  shape ti = [T; D] -> a <= b -> b <= T -> shape (rows a b ti) = [b - a; D].
Proof.
  intros Hs Hab Hb. unfold rows, clamp. rewrite Hs. cbn [shape].
  now rewrite !Nat.min_l by lia.
Qed.

Lemma cell_offset j k n D : j < n -> k < D -> j * D + k < n * D.
Proof. intros Hj Hk. nia. Qed.

Lemma tget_rows_select {A} (zero : A) (t ti : tensor A) B T D i a b j k :
  shape t = [B; T; D] -> select i t = Some ti ->
  a <= b -> b <= T -> j < b - a -> k < D ->
  tget zero (rows a b ti) [j; k] = tget zero t [i; a + j; k].
Proof.
  intros Hs Hsel Hab Hb Hj Hk.
  destruct (select_shape3 _ _ _ _ _ _ Hs Hsel) as (Hi & ->).
  unfold rows, clamp, tget. cbn [shape data]. rewrite Hs.
  rewrite !Nat.min_l by lia.
  cbn [ravel numel fold_right]. rewrite !Nat.mul_1_r, !Nat.add_0_r.
  pose proof (cell_offset j k (b - a) D Hj Hk) as H1.
  pose proof (cell_offset (a + j) k T D ltac:(lia) Hk) as H2.
  rewrite nth_slice by nia.
  rewrite nth_slice by nia.
  f_equal. nia.
Qed.

Lemma count_true_le (l : list bool) : count_true l <= length l.
Proof. apply filter_length_le. Qed.

Lemma slice_length_le {X} (a b : nat) (l : list X) : length (slice a b l) <= b - a.
Proof. unfold slice. rewrite length_firstn. lia. Qed.

Lemma pack_full_cells {A} (zero : A) (dim_ : nat) (ln : lengths)
    (cap_feats padded_img_embed : tensor A) (mask : tensor bool)
    (full : tensor A) :
  (forall i c g,
     nth_error (l_effective_cap_len ln) i = Some c ->
     nth_error (l_effective_img_len ln) i = Some g ->
     c + g <= max_seq_len ln) ->
  pack_full zero dim_ ln cap_feats padded_img_embed = Some (mask, full) ->
  full_inv zero dim_ ln cap_feats padded_img_embed (bsz ln) (mask, full)
  /\ wf full
  /\ (forall i, i < bsz ln ->
        nth_error (l_effective_cap_len ln) i <> None
        /\ select i cap_feats <> None /\ select i padded_img_embed <> None).
Proof.
  intros Hmax H. unfold pack_full in H.
  refine (for_range_seq _
            (fun k st =>
               full_inv zero dim_ ln cap_feats padded_img_embed k st
               /\ wf (snd st)
               /\ forall i, i < k ->
                    nth_error (l_effective_cap_len ln) i <> None
                    /\ select i cap_feats <> None
                    /\ select i padded_img_embed <> None)
            (bsz ln) 0 _ (mask, full) _ _ H).
  - split; [|split; [apply zeros_wf | intros i Hi; lia]]. split; [reflexivity|].
    intros i j c _ _ _. cbn [snd Nat.ltb Nat.leb]. apply tget_zeros.
  - intros k [m f] [m' f'] _ ((Hsf & Hf) & _ & Hsel) Hb. cbn [fst snd] in *.
    inv_some Hb. injection Hb as <- <-.
    match goal with
    | Hc : nth_error (l_effective_cap_len ln) k = Some ?c,
      Hg : nth_error (l_effective_img_len ln) k = Some ?g,
      Hci : select k cap_feats = Some ?ci,
      Hpi : select k padded_img_embed = Some ?pi,
      H1 : setitem zero f k 0 ?c None _ = Some ?f1,
      H2 : setitem zero ?f1 k ?c _ None _ = Some _ |- _ =>
        pose proof (Hmax _ _ _ Hc Hg) as Hfit;
        destruct (setitem_rows _ _ _ _ _ _ _ _ _ [dim_] Hsf H1) as (Hs1 & _ & Hv1);
        destruct (setitem_rows _ _ _ _ _ _ _ _ _ [dim_] Hs1 H2) as (Hs2 & _ & Hv2);
        pose proof (setitem_wf _ _ _ _ _ _ _ _ H2) as Hwf2;
        rename Hc into Hck; rename Hg into Hgk;
        rename Hci into Hcik; rename Hpi into Hpik
    end.
    unfold clamp in Hv1, Hv2.
    rewrite ?Nat.min_0_l, ?Nat.min_l in Hv1, Hv2 by lia.
    split.
    + split; [exact Hs2|].
      intros i j c Hi Hj Hc. cbn [snd].
      rewrite Hv2 by (assumption || bounds).
      rewrite Hv1 by (assumption || bounds). rewrite Hf by assumption.
      cbn [Nat.leb]. rewrite Nat.sub_0_r, andb_true_r.
      destruct (Nat.eqb_spec i k) as [->|Hik].
      * replace (k <? S k) with true by (symmetry; apply Nat.ltb_lt; lia).
        rewrite Nat.ltb_irrefl. unfold full_cell.
        rewrite Hck, Hgk, Hcik, Hpik. cbn [andb].
        match goal with
        | |- context [?x <=? j] =>
            destruct (Nat.leb_spec x j), (Nat.ltb_spec j x); try lia
        end; cbn [andb]; reflexivity.
      * cbn [andb].
        destruct (Nat.ltb_spec i k), (Nat.ltb_spec i (S k)); try reflexivity; lia.
    + split; [exact Hwf2|].
      intros i Hi. destruct (Nat.eq_dec i k) as [->|Hik].
      * rewrite Hck, Hcik, Hpik. repeat split; discriminate.
      * apply Hsel. lia.
Qed.

Lemma tget_rows_bindex {A} (zero : A) (t ti : tensor A) B T D i n j k :
  shape t = [B; T; D] -> select i t = Some ti ->
  n <= T -> j < n -> k < D ->
  tget zero (rows 0 n ti) (bindex [j; k] (shape (rows 0 n ti)))
  = tget zero t [i; j; k].
Proof.
  intros Hs Hsel Hn Hj Hk.
  assert (Hti : shape ti = [T; D]).
  { destruct (select_shape3 _ _ _ _ _ _ Hs Hsel) as (_ & ->). reflexivity. }
  rewrite (rows_shape2 ti T D 0 n Hti) by lia.
  unfold bindex. cbn [combine map]. rewrite !Nat.mod_small by lia.
  now rewrite (tget_rows_select zero t ti B T D i 0 n j k) by (assumption || lia).
Qed.

(** The joint sequence, row by row. *)
Lemma pack_full_rows {A : Type} (zero : A) (p dim_ B Bc L : nat)
    (imgs : list (tensor A)) (cap_mask : tensor bool) (ln : lengths)
    (cap_feats padded_img_embed : tensor A) (mask : tensor bool)
    (full : tensor A) :
  pack_lengths p p imgs cap_mask = Some ln ->
  shape cap_mask = [B; L] ->
  shape cap_feats = [Bc; L; dim_] ->
  shape padded_img_embed = [length imgs; max_img_len ln; dim_] ->
  pack_full zero dim_ ln cap_feats padded_img_embed = Some (mask, full) ->
  shape full = [length imgs; max_seq_len ln; dim_]
  /\ length imgs <= Bc
  /\ forall i c g,
       nth_error (l_effective_cap_len ln) i = Some c ->
       nth_error (l_effective_img_len ln) i = Some g ->
       c <= L /\ c + g <= max_seq_len ln
       /\ forall j k, j < max_seq_len ln -> k < dim_ ->
            tget zero full [i; j; k]
            = if j <? c then tget zero cap_feats [i; j; k]
              else if j <? c + g
                   then tget zero padded_img_embed [i; j - c; k]
                   else zero.
Proof.
  intros Hln Hcm Hcf Hpe Hpack.
  destruct (pack_lengths_spec p imgs cap_mask ln Hln)
    as (Hp & Hb & Hsum & _ & Hlimg & _ & _ & Hmax).
  destruct (pack_full_cells zero dim_ ln cap_feats padded_img_embed mask full
              Hmax Hpack) as ((Hsf & Hcell) & Hwf & Hsel).
  cbn [snd] in *. rewrite Hb in *.
  split; [exact Hsf|]. split.
  - destruct imgs as [|img0 imgs']; [cbn; lia|].
    destruct (Hsel (length imgs')) as (_ & Hc & _); [cbn; lia|].
    destruct (select (length imgs') cap_feats) as [ci|] eqn:Hci; [|congruence].
    destruct (select_shape3 _ _ _ _ _ _ Hcf Hci) as (Hlt & _). cbn [length]. lia.
  - intros i c g Hc Hg.
    assert (Hi : i < length imgs).
    { rewrite <- Hlimg. apply nth_error_Some. congruence. }
    assert (HcL : c <= L).
    { destruct (sum_dim1_nth _ _ _ _ Hsum Hc) as (B' & L' & Hs' & _ & ->).
      rewrite Hcm in Hs'. injection Hs' as <- <-.
      etransitivity; [apply count_true_le|].
      etransitivity; [apply slice_length_le|]. lia. }
    pose proof (pack_lengths_img_bound p p imgs cap_mask ln i g Hln Hg) as HgL.
    split; [exact HcL|]. split; [exact (Hmax i c g Hc Hg)|].
    intros j k Hj Hk. rewrite Hcell by assumption.
    destruct (Nat.ltb_spec i (length imgs)); [|lia].
    destruct (Hsel i Hi) as (_ & Hc' & Hp').
    destruct (select i cap_feats) as [ci|] eqn:Hci; [|congruence].
    destruct (select i padded_img_embed) as [pi|] eqn:Hpi; [|congruence].
    unfold full_cell. rewrite Hc, Hg, Hci, Hpi.
    destruct (Nat.ltb_spec j c).
    + exact (tget_rows_bindex zero cap_feats ci Bc L dim_ i c j k
               Hcf Hci HcL ltac:(assumption) Hk).
    + destruct (Nat.ltb_spec j (c + g)); [|reflexivity].
      exact (tget_rows_bindex zero padded_img_embed pi _ _ dim_ i g (j - c) k
               Hpe Hpi HgL ltac:(lia) Hk).
Qed.

(** ** Packing and unpacking a batch *)

Lemma mapM_seq_from {Y} (f : nat -> option Y) (l : list Y) :
  forall k,
    (forall i y, nth_error l i = Some y -> f (k + i) = Some y) ->
    mapM f (seq k (length l)) = Some l.
Proof.
  induction l as [|a l IH]; intros k H; cbn [length seq mapM]; [reflexivity|].
  pose proof (H 0 a eq_refl) as H0. rewrite Nat.add_0_r in H0. rewrite H0.
  rewrite (IH (S k)); [reflexivity|].
  intros i y Hi. rewrite Nat.add_succ_l, <- Nat.add_succ_r. now apply H.
Qed.

Lemma unpatchify_image_rows {A} (zero : A) pH pW oc (xi xj : tensor A) H W b b' :
  (forall h w, floordiv H pH = Some h -> floordiv W pW = Some w ->
               rows b (b + h * w) xi = rows b' (b' + h * w) xj) ->
  unpatchify_image zero pH pW oc xi H W b
  = unpatchify_image zero pH pW oc xj H W b'.
Proof.
  intros Hr. unfold unpatchify_image.
  destruct (floordiv H pH) as [h|]; [|reflexivity].
  destruct (floordiv W pW) as [w|]; [|reflexivity].
  now rewrite (Hr h w eq_refl eq_refl).
Qed.

Lemma nth_tget2 {A} (zero : A) (t : tensor A) n D x :
  shape t = [n; D] -> D <> 0 ->
  nth x (data t) zero = tget zero t [x / D; x mod D].
Proof.
  intros Hs HD. unfold tget. rewrite Hs. cbn [ravel numel fold_right].
  f_equal. rewrite !Nat.mul_1_r, Nat.add_0_r.
  rewrite (Nat.div_mod_eq x D) at 1. lia.
Qed.

Lemma select_some3 {A} (t : tensor A) B T D i :
  shape t = [B; T; D] -> wf t -> i < B ->
  exists ti, select i t = Some ti /\ shape ti = [T; D] /\ wf ti.
Proof.
  intros Hs Hw Hi. unfold select. rewrite Hs.
  destruct (Nat.ltb_spec i B); [|lia].
  eexists. split; [reflexivity|]. split; [reflexivity|].
  unfold wf. cbn [shape data]. rewrite length_slice; [lia|].
  unfold wf in Hw. rewrite Hw, Hs.
  change (numel [B; T; D]) with (B * numel [T; D]). nia.
Qed.



(** ** The layout of the packed batch *)

(** X12.  When every image of the batch has [C] channels, the padded
    token buffer built by lines 697-715 has shape
    [[bsz, max_img_len, p * p * C]]; its row [i] holds the patch tokens of
    image [i], in order, and zeros after them, and row [i] of the mask is
    [True] on exactly those tokens. *)
Theorem pack_images_layout {A : Type} (zero : A) (p C : nat)
    (imgs : list (tensor A)) (cap_mask : tensor bool) (ln : lengths)
    (embed : tensor A) (msk : tensor bool) :
  pack_lengths p p imgs cap_mask = Some ln ->
  (forall img, In img imgs -> hd_error (shape img) = Some C) ->
  pack_images zero p p ln imgs = Some (embed, msk) ->
  shape embed = [length imgs; max_img_len ln; p * p * C]
  /\ shape msk = [length imgs; max_img_len ln]
  /\ forall i img, nth_error imgs i = Some img ->
       exists toks H W,
         shape img = [C; H; W]
         /\ patchify_image zero p p img = Some toks
         /\ H / p * (W / p) <= max_img_len ln
         /\ forall j, j < max_img_len ln ->
              tget false msk [i; j] = (j <? H / p * (W / p))
              /\ forall c, c < p * p * C ->
                   tget zero embed [i; j; c]
                   = if j <? H / p * (W / p)
                     then tget zero toks [j; c] else zero.
Proof. exact (pack_images_rows zero p C imgs cap_mask ln embed msk). Qed.

(** X13.  With a caption mask of shape [[B, L]], caption features of shape
    [[Bc, L, dim]] and padded image tokens of shape
    [[bsz, max_img_len, dim]], row [i] of the joint sequence built by lines
    728-740 is the first [cap_len] caption features of sample [i], then its
    first [img_len] image tokens, then zeros up to [max_seq_len]; the
    caption features had a row for every sample. *)
Theorem pack_full_layout {A : Type} (zero : A) (p dim_ B Bc L : nat)
    (imgs : list (tensor A)) (cap_mask : tensor bool) (ln : lengths)
    (cap_feats padded_img_embed : tensor A) (mask : tensor bool)
    (full : tensor A) :
  pack_lengths p p imgs cap_mask = Some ln ->
  shape cap_mask = [B; L] ->
  shape cap_feats = [Bc; L; dim_] ->
  shape padded_img_embed = [length imgs; max_img_len ln; dim_] ->
  pack_full zero dim_ ln cap_feats padded_img_embed = Some (mask, full) ->
  shape full = [length imgs; max_seq_len ln; dim_]
  /\ length imgs <= Bc
  /\ forall i c g,
       nth_error (l_effective_cap_len ln) i = Some c ->
       nth_error (l_effective_img_len ln) i = Some g ->
       c <= L /\ c + g <= max_seq_len ln
       /\ forall j k, j < max_seq_len ln -> k < dim_ ->
            tget zero full [i; j; k]
            = if j <? c then tget zero cap_feats [i; j; k]
              else if j <? c + g
                   then tget zero padded_img_embed [i; j - c; k]
                   else zero.
Proof.
  exact (pack_full_rows zero p dim_ B Bc L imgs cap_mask ln cap_feats
           padded_img_embed mask full).
Qed.

(** What [unpatchify] reads in a joint sequence built from the padded image
    tokens themselves. *)
Lemma pack_unpatchify_eq {A F E : Type} (zero : A)
    (self : Lumina A F E) (C B Bc L : nat) (imgs : list (tensor A))
    (cap_mask : tensor bool) (cap_feats : tensor A) (ln : lengths)
    (padded_img_embed : tensor A) (padded_img_mask mask : tensor bool)
    (full : tensor A) :
  pack_lengths (patch_size self) (patch_size self) imgs cap_mask = Some ln ->
  (forall img, In img imgs ->
     wf img /\ exists H W, shape img = [C; H; W]
                           /\ H mod patch_size self = 0
                           /\ W mod patch_size self = 0) ->
  out_channels self = C ->
  dim self = patch_size self * patch_size self * C ->
  shape cap_mask = [B; L] ->
  shape cap_feats = [Bc; L; dim self] ->
  pack_images zero (patch_size self) (patch_size self) ln imgs
  = Some (padded_img_embed, padded_img_mask) ->
  pack_full zero (dim self) ln cap_feats padded_img_embed = Some (mask, full) ->
  unpatchify zero self full (img_sizes ln) (l_effective_cap_len ln) false
  = Some (ImgList imgs).
Proof.
  set (p := patch_size self).
  intros Hln Himgs HoC Hdim Hcm Hcf Hpi Hpf.
  destruct (pack_lengths_spec p imgs cap_mask ln Hln)
    as (Hp & Hb & _ & _ & _ & Himg & Hshape & Hmax).
  assert (HC : forall img, In img imgs -> hd_error (shape img) = Some C).
  { intros img Hin. destruct (Himgs img Hin) as (_ & H & W & -> & _). reflexivity. }
  destruct (pack_images_rows zero p C imgs cap_mask ln _ _ Hln HC Hpi)
    as (Hse & _ & Hrows).
  rewrite Hdim in *. fold p in Hcf, Hpf.
  destruct (pack_full_rows zero p _ B Bc L imgs cap_mask ln cap_feats _ mask full
              Hln Hcm Hcf Hse Hpf) as (Hsf & _ & Hfull).
  destruct (pack_full_cells zero _ ln cap_feats _ mask full Hmax Hpf)
    as (_ & Hwf & Hsel).
  unfold unpatchify. rewrite Hsf. cbn [hd_error]. fold p.
  rewrite (mapM_seq_from _ imgs 0); [reflexivity|].
  intros i img Hn. cbn [Nat.add].
  assert (Hi : i < length imgs) by (apply nth_error_Some; congruence).
  destruct (Himgs img (nth_error_In _ _ Hn)) as (Hwi & H & W & Hs & HH & HW).
  destruct (Hshape i img Hn) as (H' & W' & r0 & r & Hs' & Hsz).
  rewrite Hs in Hs'. injection Hs' as _ <- <- _.
  pose proof (Himg i H W Hsz) as Hg.
  destruct (Hrows i img Hn) as (toks & H' & W' & Hs' & Hpt & HgL & Hcells).
  rewrite Hs in Hs'. injection Hs' as <- <-.
  rewrite (patchify_image_eq A zero p C H W img Hs Hwi Hp HH HW) in Hpt.
  injection Hpt as <-.
  set (g := H / p * (W / p)) in *.
  set (toks := mk [g; p * p * C] _) in *.
  destruct (nth_error (l_effective_cap_len ln) i) as [c|] eqn:Hc.
  2:{ rewrite Hb in Hsel. destruct (Hsel i Hi) as (Hne & _). congruence. }
  destruct (Hfull i c g Hc Hg) as (_ & Hfit & Hfc).
  destruct (select_some3 full _ _ _ i Hsf Hwf Hi) as (xi & Hxi & Hsxi & Hwxi).
  rewrite Hsz, Hxi. cbn beta iota. rewrite HoC.
  rewrite <- (unpatchify_image_patchify A zero p C H W img Hs Hwi Hp HH HW).
  fold g. fold toks.
  apply unpatchify_image_rows. intros h w.
  rewrite !floordiv_pos by exact Hp. intros [= <-] [= <-]. fold g.
  cbn [Nat.add].
  assert (Hwt : wf toks).
  { change (length (data (permute zero [1; 3; 2; 4; 0]
                              (mk [C; H / p; p; W / p; p] (data img))))
            = numel [g; p * p * C]).
    rewrite permute_length.
    cbn [shape pick map nth numel fold_right]. unfold g. ring. }
  change (rows c (c + g) xi = rows 0 g toks).
  rewrite (rows_all A toks g [p * p * C] eq_refl Hwt).
  apply tensor_eq.
  - rewrite (rows_shape2 xi _ _ c (c + g) Hsxi) by lia.
    unfold toks. cbn [shape]. f_equal. lia.
  - rewrite (rows_inside xi _ _ c (c + g) Hsxi Hwxi) by lia.
    cbn [data].
    assert (Hlen : length (slice (c * (p * p * C)) ((c + g) * (p * p * C)) (data xi))
                   = g * (p * p * C)).
    { rewrite length_slice; [lia|].
      unfold wf in Hwxi. rewrite Hwxi, Hsxi. cbn [numel fold_right].
      rewrite Nat.mul_1_r. apply Nat.mul_le_mono_r. exact Hfit. }
    apply (nth_ext _ _ zero zero).
    + rewrite Hlen. unfold wf in Hwt. rewrite Hwt. unfold toks.
      cbn [shape numel fold_right]. lia.
    + intros x Hx. rewrite Hlen in Hx.
      assert (HD : p * p * C <> 0) by (intros HD; rewrite HD in Hx; lia).
      assert (Hj : x / (p * p * C) < g).
      { apply Nat.Div0.div_lt_upper_bound. lia. }
      assert (Hk : x mod (p * p * C) < p * p * C) by (now apply Nat.mod_upper_bound).
      rewrite (nth_tget2 zero toks g (p * p * C) x eq_refl HD).
      destruct (Hcells (x / (p * p * C)) ltac:(lia)) as (_ & Hcell).
      specialize (Hcell _ Hk).
      destruct (Nat.ltb_spec (x / (p * p * C)) g); [|lia].
      rewrite <- Hcell.
      specialize (Hfc (c + x / (p * p * C)) (x mod (p * p * C)) ltac:(lia) Hk).
      destruct (Nat.ltb_spec (c + x / (p * p * C)) c); [lia|].
      destruct (Nat.ltb_spec (c + x / (p * p * C)) (c + g)); [|lia].
      replace (c + x / (p * p * C) - c) with (x / (p * p * C)) in Hfc by lia.
      rewrite <- Hfc.
      rewrite <- (tget_rows_select zero full xi _ _ _ i c (c + g)
                    (x / (p * p * C)) (x mod (p * p * C))
                    Hsf Hxi ltac:(lia) Hfit ltac:(lia) Hk).
      rewrite (rows_inside xi _ _ c (c + g) Hsxi Hwxi) by lia.
      match goal with
      | |- _ = tget zero ?t _ =>
          exact (nth_tget2 zero t (c + g - c) (p * p * C) x eq_refl HD)
      end.
Qed.

(** The hypotheses of [pack_images_layout] at the batch of two images. *)
Lemma pack_images_layout_witness :
  shape (fst pair_padded) = [length pair_images; max_img_len pair_lengths; 2 * 2 * 4]
  /\ shape (snd pair_padded) = [length pair_images; max_img_len pair_lengths]
  /\ forall i img, nth_error pair_images i = Some img ->
       exists toks H W,
         shape img = [4; H; W]
         /\ patchify_image 0%Z 2 2 img = Some toks
         /\ H / 2 * (W / 2) <= max_img_len pair_lengths
         /\ forall j, j < max_img_len pair_lengths ->
              tget false (snd pair_padded) [i; j] = (j <? H / 2 * (W / 2))
              /\ forall c, c < 2 * 2 * 4 ->
                   tget 0%Z (fst pair_padded) [i; j; c]
                   = if j <? H / 2 * (W / 2)
                     then tget 0%Z toks [j; c] else 0%Z.
Proof.
  apply (pack_images_layout 0%Z 2 4 pair_images mixed_cap_mask pair_lengths
           (fst pair_padded) (snd pair_padded)).
  - reflexivity.
  - intros img [<-|[<-|[]]]; reflexivity.
  - reflexivity.
Defined.

(** The hypotheses of [pack_full_layout] at the batch of two images. *)
Lemma pack_full_layout_witness :
  shape (snd pair_full) = [length pair_images; max_seq_len pair_lengths; 16]
  /\ length pair_images <= 2
  /\ forall i c g,
       nth_error (l_effective_cap_len pair_lengths) i = Some c ->
       nth_error (l_effective_img_len pair_lengths) i = Some g ->
       c <= 4 /\ c + g <= max_seq_len pair_lengths
       /\ forall j k, j < max_seq_len pair_lengths -> k < 16 ->
            tget 0%Z (snd pair_full) [i; j; k]
            = if j <? c then tget 0%Z mixed_cap_feats [i; j; k]
              else if j <? c + g
                   then tget 0%Z (fst pair_padded) [i; j - c; k]
                   else 0%Z.
Proof.
  apply (pack_full_layout 0%Z 2 16 2 2 4 pair_images mixed_cap_mask pair_lengths
           mixed_cap_feats (fst pair_padded) (fst pair_full) (snd pair_full));
    reflexivity.
Defined.


(** ** Packing a well-formed batch succeeds *)

Lemma mapM_some {X Y} (f : X -> option Y) (l : list X) :
  (forall x, In x l -> exists y, f x = Some y) ->
  exists l', mapM f l = Some l'.
Proof.
  induction l as [|a l IH]; intros H; cbn [mapM]; [now exists []|].
  destruct (H a (or_introl eq_refl)) as (y & ->).
  destruct IH as (l' & ->); [intros x Hx; apply H; now right|].
  now exists (y :: l').
Qed.

Lemma setitem_rows_some {A} (zero : A) (t v : tensor A) (i a b B T : nat)
    (rest : list nat) :
  shape t = B :: T :: rest -> i < B ->
  broadcastable (shape v) ((clamp T b - clamp T a) :: rest) = true ->
  exists t', setitem zero t i a b None v = Some t'
             /\ shape t' = B :: T :: rest.
Proof.
  intros Hs Hi Hbr. unfold setitem. rewrite Hs, Hbr.
  destruct (Nat.ltb_spec i B); [|lia].
  cbn [andb]. eexists. split; reflexivity.
Qed.

Lemma broadcast_refl sh : broadcastable sh sh = true.
Proof.
  unfold broadcastable. rewrite Nat.eqb_refl. cbn [andb].
  induction sh as [|d sh IH]; [reflexivity|].
  cbn [combine forallb]. now rewrite Nat.eqb_refl, IH.
Qed.

Lemma broadcast_scalar n rest :
  rest = [] -> broadcastable [1] (n :: rest) = true.
Proof. intros ->. apply broadcast_one. Qed.

Lemma select_lt {A} (t : tensor A) B T D i :
  shape t = [B; T; D] -> i < B ->
  exists ti, select i t = Some ti /\ shape ti = [T; D].
Proof.
  intros Hs Hi. unfold select. rewrite Hs.
  destruct (Nat.ltb_spec i B); [|lia].
  eexists. split; reflexivity.
Qed.

Lemma pack_images_total {A} (zero : A) (p C : nat) (imgs : list (tensor A))
    (cap_mask : tensor bool) (ln : lengths) :
  pack_lengths p p imgs cap_mask = Some ln ->
  (forall img, In img imgs ->
     wf img /\ exists H W, shape img = [C; H; W]
                           /\ H mod p = 0 /\ W mod p = 0) ->
  exists pe pm, pack_images zero p p ln imgs = Some (pe, pm).
Proof.
  intros Hln Himgs.
  destruct (pack_lengths_spec p imgs cap_mask ln Hln)
    as (Hp & Hb & _ & _ & Hlimg & Himg & Hshape & _).
  unfold pack_images.
  destruct (mapM_some (patchify_image zero p p) imgs) as (flat_x & Hflat).
  { intros img Hin. destruct (Himgs img Hin) as (Hw & H & W & Hs & HH & HW).
    rewrite (patchify_image_eq A zero p C H W img Hs Hw Hp HH HW). eauto. }
  rewrite Hflat.
  assert (Htok : forall i img, nth_error imgs i = Some img ->
            exists toks g,
              nth_error flat_x i = Some toks
              /\ nth_error (l_effective_img_len ln) i = Some g
              /\ shape toks = [g; p * p * C]).
  { intros i img Hn.
    destruct (mapM_nth _ _ _ _ _ Hflat Hn) as (toks & Hpt & Hnt).
    destruct (Himgs img (nth_error_In _ _ Hn)) as (_ & H & W & Hs & _).
    destruct (patchify_image_shape _ _ _ _ Hpt) as (C' & H' & W' & Hs' & _ & Hst).
    rewrite Hs in Hs'. injection Hs' as <- <- <-.
    destruct (Hshape i img Hn) as (H' & W' & r0 & r & Hs' & Hsz).
    rewrite Hs in Hs'. injection Hs' as _ <- <- _.
    exists toks, (H / p * (W / p)). repeat split; try assumption. now apply Himg. }
  destruct imgs as [|img0 imgs']; [discriminate|].
  destruct (Htok 0 img0 eq_refl) as (x0 & g0 & Hx0 & _ & Hs0).
  destruct flat_x as [|x0' fx]; [discriminate|]. injection Hx0 as ->.
  cbn [hd_error]. rewrite Hs0. cbn [rev app hd_error].
  set (imgs := img0 :: imgs') in *. set (flat_x := x0 :: fx) in *.
  destruct (for_range_total
              (fun '(embed, msk) i =>
                 let? img_len := nth_error (l_effective_img_len ln) i in
                 let? xi := nth_error flat_x i in
                 let? embed' := setitem zero embed i 0 img_len None xi in
                 let? msk' := setitem false msk i 0 img_len None (scalar true) in
                 Some (embed', msk'))
              (fun _ (st : tensor A * tensor bool) =>
                 shape (fst st) = [bsz ln; max_img_len ln; p * p * C]
                 /\ shape (snd st) = [bsz ln; max_img_len ln])
              (bsz ln) 0
              (zeros zero [bsz ln; max_img_len ln; p * p * C],
               zeros false [bsz ln; max_img_len ln]))
    as ([pe pm] & Hrun & _).
  - split; reflexivity.
  - intros j [e m] Hj (Hse & Hsm). cbn [fst snd] in *.
    destruct (nth_error imgs j) as [img|] eqn:Hn.
    2:{ apply nth_error_None in Hn. lia. }
    destruct (Htok j img Hn) as (toks & g & Hnt & Hg & Hst).
    pose proof (pack_lengths_img_bound p p imgs cap_mask ln j g Hln Hg) as Hle.
    rewrite Hg, Hnt.
    destruct (setitem_rows_some zero e toks j 0 g _ _ _ Hse) as (e' & -> & Hse');
      [lia | |].
    { unfold clamp. rewrite Nat.min_0_l, Nat.min_l, Nat.sub_0_r, Hst by lia.
      apply broadcast_refl. }
    destruct (setitem_rows_some false m (scalar true) j 0 g _ _ _ Hsm)
      as (m' & -> & Hsm'); [lia | now apply broadcast_scalar |].
    eexists. split; [reflexivity|]. split; assumption.
  - exists pe, pm. exact Hrun.
Qed.

Lemma pack_full_total {A} (zero : A) (p dim_ B L : nat)
    (imgs : list (tensor A)) (cap_mask : tensor bool) (ln : lengths)
    (cap_feats padded_img_embed : tensor A) :
  pack_lengths p p imgs cap_mask = Some ln ->
  shape cap_mask = [B; L] -> length imgs <= B ->
  shape cap_feats = [B; L; dim_] ->
  shape padded_img_embed = [length imgs; max_img_len ln; dim_] ->
  exists mask full,
    pack_full zero dim_ ln cap_feats padded_img_embed = Some (mask, full).
Proof.
  intros Hln Hcm HB Hcf Hpe.
  destruct (pack_lengths_spec p imgs cap_mask ln Hln)
    as (Hp & Hb & Hsum & _ & Hlimg & _ & _ & Hmax).
  pose proof (sum_dim1_length _ _ _ _ Hcm Hsum) as Hlcap.
  unfold pack_full.
  destruct (for_range_total
              (fun '(mask, full) i =>
                 let? cap_len := nth_error (l_effective_cap_len ln) i in
                 let? img_len := nth_error (l_effective_img_len ln) i in
                 let? mask' := setitem false mask i 0 (cap_len + img_len) None
                                 (scalar true) in
                 let? ci := select i cap_feats in
                 let? full1 := setitem zero full i 0 cap_len None
                                 (rows 0 cap_len ci) in
                 let? pi := select i padded_img_embed in
                 let? full2 := setitem zero full1 i cap_len (cap_len + img_len)
                                 None (rows 0 img_len pi) in
                 Some (mask', full2))
              (fun _ (st : tensor bool * tensor A) =>
                 shape (fst st) = [bsz ln; max_seq_len ln]
                 /\ shape (snd st) = [bsz ln; max_seq_len ln; dim_])
              (bsz ln) 0
              (zeros false [bsz ln; max_seq_len ln],
               zeros zero [bsz ln; max_seq_len ln; dim_]))
    as ([mask full] & Hrun & _).
  - split; reflexivity.
  - intros j [m f] Hj (Hsm & Hsf). cbn [fst snd] in *.
    destruct (nth_error (l_effective_cap_len ln) j) as [c|] eqn:Hc.
    2:{ apply nth_error_None in Hc. lia. }
    destruct (nth_error (l_effective_img_len ln) j) as [g|] eqn:Hg.
    2:{ apply nth_error_None in Hg. lia. }
    pose proof (Hmax j c g Hc Hg) as Hfit.
    pose proof (pack_lengths_img_bound p p imgs cap_mask ln j g Hln Hg) as HgL.
    assert (HcL : c <= L).
    { destruct (sum_dim1_nth _ _ _ _ Hsum Hc) as (B' & L' & Hs' & _ & ->).
      rewrite Hcm in Hs'. injection Hs' as <- <-.
      etransitivity; [apply count_true_le|].
      etransitivity; [apply slice_length_le|]. lia. }
    destruct (setitem_rows_some false m (scalar true) j 0 (c + g) _ _ _ Hsm)
      as (m' & -> & Hsm'); [lia | now apply broadcast_scalar |].
    destruct (select_lt cap_feats _ _ _ j Hcf) as (ci & -> & Hsci); [lia|].
    destruct (setitem_rows_some zero f (rows 0 c ci) j 0 c _ _ _ Hsf)
      as (f1 & -> & Hsf1); [lia | |].
    { unfold clamp. rewrite Nat.min_0_l, Nat.min_l by lia.
      rewrite (rows_shape2 ci _ _ 0 c Hsci) by lia. apply broadcast_refl. }
    destruct (select_lt padded_img_embed _ _ _ j Hpe) as (pi & -> & Hspi); [lia|].
    destruct (setitem_rows_some zero f1 (rows 0 g pi) j c (c + g) _ _ _ Hsf1)
      as (f2 & -> & Hsf2); [lia | |].
    { unfold clamp. rewrite !Nat.min_l by lia.
      rewrite (rows_shape2 pi _ _ 0 g Hspi) by lia.
      replace (c + g - c) with (g - 0) by lia. apply broadcast_refl. }
    eexists. split; [reflexivity|]. split; assumption.
  - exists mask, full. exact Hrun.
Qed.

(** X14.  Packing a batch and unpacking it again gives the batch back.
    When every image is well formed, has [C] channels and a height and a
    width that are multiples of the patch size, the caption mask has a row
    for every image and the dimension of the model is [p * p * C], then
    lines 697-715 and 728-740 run without raising, and [unpatchify], reading
    the joint sequence built from the padded image tokens with the sizes
    and caption lengths the packer reports, returns the list of the
    original images. *)
Theorem pack_unpatchify_roundtrip {A F E : Type} (zero : A)
    (self : Lumina A F E) (C B L : nat) (imgs : list (tensor A))
    (cap_mask : tensor bool) (cap_feats : tensor A) (ln : lengths) :
  pack_lengths (patch_size self) (patch_size self) imgs cap_mask = Some ln ->
  (forall img, In img imgs ->
     wf img /\ exists H W, shape img = [C; H; W]
                           /\ H mod patch_size self = 0
                           /\ W mod patch_size self = 0) ->
  out_channels self = C ->
  dim self = patch_size self * patch_size self * C ->
  shape cap_mask = [B; L] -> length imgs <= B ->
  shape cap_feats = [B; L; dim self] ->
  exists padded_img_embed padded_img_mask mask full,
    pack_images zero (patch_size self) (patch_size self) ln imgs
    = Some (padded_img_embed, padded_img_mask)
    /\ pack_full zero (dim self) ln cap_feats padded_img_embed
       = Some (mask, full)
    /\ unpatchify zero self full (img_sizes ln) (l_effective_cap_len ln) false
       = Some (ImgList imgs).
Proof.
  intros Hln Himgs HoC Hdim Hcm HB Hcf.
  destruct (pack_images_total zero _ C imgs cap_mask ln Hln Himgs)
    as (pe & pm & Hpi).
  assert (HC : forall img, In img imgs -> hd_error (shape img) = Some C).
  { intros img Hin. destruct (Himgs img Hin) as (_ & H & W & -> & _). reflexivity. }
  destruct (pack_images_rows zero _ C imgs cap_mask ln _ _ Hln HC Hpi)
    as (Hse & _ & _).
  rewrite <- Hdim in Hse.
  destruct (pack_full_total zero _ (dim self) B L imgs cap_mask ln cap_feats pe
              Hln Hcm HB Hcf Hse) as (mask & full & Hpf).
  exists pe, pm, mask, full. split; [exact Hpi|]. split; [exact Hpf|].
  exact (pack_unpatchify_eq zero self C B B L imgs cap_mask cap_feats ln
           pe pm mask full Hln Himgs HoC Hdim Hcm Hcf Hpi Hpf).
Qed.

(** X15.  The two padding loops do not raise on a well-formed batch: the
    image loop of lines 697-715 returns when every image is well formed,
    has [C] channels and sizes that are multiples of the patch size, and
    the loop of lines 728-740 returns for any embedded tokens of shape
    [[bsz, max_img_len, dim]] when the caption mask [[B, L]] has a row for
    every image and the caption features have shape [[B, L, dim]]. *)
Theorem packing_succeeds {A : Type} (zero : A) (p C dim_ B L : nat)
    (imgs : list (tensor A)) (cap_mask : tensor bool) (ln : lengths)
    (cap_feats : tensor A) :
  pack_lengths p p imgs cap_mask = Some ln ->
  (forall img, In img imgs ->
     wf img /\ exists H W, shape img = [C; H; W]
                           /\ H mod p = 0 /\ W mod p = 0) ->
  shape cap_mask = [B; L] -> length imgs <= B ->
  shape cap_feats = [B; L; dim_] ->
  (exists padded_img_embed padded_img_mask,
     pack_images zero p p ln imgs = Some (padded_img_embed, padded_img_mask))
  /\ forall embedded,
       shape embedded = [length imgs; max_img_len ln; dim_] ->
       exists mask full,
         pack_full zero dim_ ln cap_feats embedded = Some (mask, full).
Proof.
  intros Hln Himgs Hcm HB Hcf. split.
  - exact (pack_images_total zero p C imgs cap_mask ln Hln Himgs).
  - intros embedded Hse.
    exact (pack_full_total zero p dim_ B L imgs cap_mask ln cap_feats embedded
             Hln Hcm HB Hcf Hse).
Qed.

(** The hypotheses of [pack_unpatchify_roundtrip] at the batch of two
    images. *)
Lemma pack_unpatchify_roundtrip_witness :
  exists padded_img_embed padded_img_mask mask full,
    pack_images 0%Z 2 2 pair_lengths pair_images
    = Some (padded_img_embed, padded_img_mask)
    /\ pack_full 0%Z 16 pair_lengths mixed_cap_feats padded_img_embed
       = Some (mask, full)
    /\ unpatchify 0%Z scenario_lumina full (img_sizes pair_lengths)
         (l_effective_cap_len pair_lengths) false
       = Some (ImgList pair_images).
Proof.
  apply (pack_unpatchify_roundtrip 0%Z scenario_lumina 4 2 4 pair_images
           mixed_cap_mask mixed_cap_feats pair_lengths);
    try reflexivity.
  intros img [<-|[<-|[]]]; (split; [reflexivity|]).
  - exists 4, 4. repeat split.
  - exists 2, 2. repeat split.
Defined.

(** The hypotheses of [packing_succeeds] at the batch of two images. *)
Lemma packing_succeeds_witness :
  (exists padded_img_embed padded_img_mask,
     pack_images 0%Z 2 2 pair_lengths pair_images
     = Some (padded_img_embed, padded_img_mask))
  /\ forall embedded,
       shape embedded = [length pair_images; max_img_len pair_lengths; 16] ->
       exists mask full,
         pack_full 0%Z 16 pair_lengths mixed_cap_feats embedded
         = Some (mask, full).
Proof.
  apply (packing_succeeds 0%Z 2 4 16 2 4 pair_images mixed_cap_mask
           pair_lengths mixed_cap_feats);
    try reflexivity.
  intros img [<-|[<-|[]]]; (split; [reflexivity|]).
  - exists 4, 4. repeat split.
  - exists 2, 2. repeat split.
Defined.



(** ** Attention without grouped keys *)

Lemma repeat_kv_one {A} (zero : A) (x : tensor A) B T KV D :
  shape x = [B; T; KV; D] -> wf x -> JointAttention.repeat_kv zero 1 x = x.
Proof.
  intros Hs Hw.
  pose proof (repeat_kv_shape A zero 1 B T KV D x Hs (le_n 1)) as Hsh.
  rewrite Nat.mul_1_r in Hsh.
  apply tensor_eq; [congruence|].
  assert (Hlen : length (data (JointAttention.repeat_kv zero 1 x))
                 = numel [B; T; KV; D]).
  { unfold JointAttention.repeat_kv. cbn [Nat.leb]. rewrite flatten_data.
    unfold repeat_t. etransitivity; [apply tabulate_wf|].
    unfold unsqueeze. rewrite Hs.
    cbn [shape tabulate firstn skipn app combine map numel fold_right]. ring. }
  apply (nth_ext _ _ zero zero).
  { rewrite Hlen. unfold wf in Hw. now rewrite Hw, Hs. }
  intros k Hk. rewrite Hlen in Hk.
  pose proof (unravel_bounds [B; T; KV; D] k Hk) as Hbd.
  pose proof (ravel_unravel [B; T; KV; D] k Hk) as Hrk.
  destruct (unravel [B; T; KV; D] k) as [|b [|s [|h [|d [|? ?]]]]];
    inv_bounds.
  transitivity (tget zero (JointAttention.repeat_kv zero 1 x) [b; s; h; d]).
  { unfold tget. now rewrite Hsh. }
  rewrite (repeat_kv_get A zero 1 B T KV D x b s h d Hs) by lia.
  rewrite Nat.div_1_r. unfold tget. now rewrite Hs.
Qed.

(** X16.  An attention built without [n_kv_heads] has as many key/value
    heads as query heads: the repetition count of line 226 is 1, and the
    repetition of lines 227-229 returns well-formed keys and values
    unchanged. *)
Theorem kv_heads_default {A : Type} (zero : A) (dim n_heads : nat)
    (qk_norm : bool) (self : JointAttention.t) :
  JointAttention.init dim n_heads None qk_norm = Some self ->
  n_heads <> 0
  /\ JointAttention.n_local_kv_heads self = n_heads
  /\ floordiv (JointAttention.n_local_heads self)
              (JointAttention.n_local_kv_heads self) = Some 1
  /\ JointAttention.n_rep self = 1
  /\ forall (x : tensor A) (B T D : nat),
       shape x = [B; T; JointAttention.n_local_kv_heads self; D] -> wf x ->
       JointAttention.repeat_kv zero (JointAttention.n_rep self) x = x.
Proof.
  intros Hinit. unfold JointAttention.init in Hinit. inv_some Hinit.
  injection Hinit as <-.
  cbn [JointAttention.n_local_kv_heads JointAttention.n_local_heads
       JointAttention.n_rep].
  unfold floordiv in *.
  destruct (Nat.eqb_spec n_heads 0) as [|Hn]; [discriminate|].
  repeat match goal with E : Some _ = Some _ |- _ => injection E as <- end.
  rewrite Nat.div_same by exact Hn.
  split; [exact Hn|]. split; [reflexivity|]. split; [reflexivity|].
  split; [reflexivity|].
  intros x B T D Hs Hw. exact (repeat_kv_one zero x B T n_heads D Hs Hw).
Qed.

(** The hypothesis of [kv_heads_default] at 8 heads of dimension 2. *)
Lemma kv_heads_default_witness :
  8 <> 0
  /\ JointAttention.n_local_kv_heads mha_attention = 8
  /\ floordiv (JointAttention.n_local_heads mha_attention)
              (JointAttention.n_local_kv_heads mha_attention) = Some 1
  /\ JointAttention.n_rep mha_attention = 1
  /\ forall (x : tensor Z) (B T D : nat),
       shape x = [B; T; JointAttention.n_local_kv_heads mha_attention; D] ->
       wf x ->
       JointAttention.repeat_kv 0%Z (JointAttention.n_rep mha_attention) x = x.
Proof.
  apply (kv_heads_default 0%Z 16 8 false mha_attention). reflexivity.
Defined.

(** X17.  An attention built with more heads than dimensions has
    [head_dim = 0]; its forward pass raises on every input, at the latest
    at the softmax scale [sqrt(1 / head_dim)] of line 224. *)
Theorem attention_needs_head_dim {A E : Type} (zero : A)
    (linear_qkv linear_out rms_norm : tensor A -> tensor A)
    (apply_rotary_emb : tensor A -> tensor E -> tensor A)
    (sdpa_values : tensor A -> tensor A -> tensor A -> tensor bool -> nat -> list A)
    (dim n_heads : nat) (n_kv_heads : option nat) (qk_norm : bool)
    (self : JointAttention.t) :
  JointAttention.init dim n_heads n_kv_heads qk_norm = Some self ->
  dim < n_heads ->
  JointAttention.head_dim self = 0
  /\ forall (x : tensor A) (x_mask : tensor bool) (freqs_cis : tensor E),
       JointAttention.forward A E zero linear_qkv linear_out rms_norm
         apply_rotary_emb sdpa_values self x x_mask freqs_cis = None.
Proof.
  intros Hinit Hlt. unfold JointAttention.init in Hinit. inv_some Hinit.
  injection Hinit as <-.
  assert (Hhd : n0 = 0).
  { unfold floordiv in *. destruct (n_heads =? 0); [discriminate|].
    match goal with E : Some (dim / n_heads) = Some _ |- _ =>
      injection E as <- end.
    now apply Nat.div_small. }
  subst n0. split; [reflexivity|].
  intros x x_mask freqs_cis.
  unfold JointAttention.forward, JointAttention.attend.
  cbn [JointAttention.head_dim JointAttention.n_local_heads
       JointAttention.n_local_kv_heads Nat.eqb].
  repeat match goal with
         | |- match match ?e with _ => _ end with _ => _ end = None =>
             destruct e; try reflexivity
         end.
Qed.

(** The hypotheses of [attention_needs_head_dim] at 8 heads and 4
    dimensions. *)
Lemma attention_needs_head_dim_witness :
  JointAttention.head_dim thin_attention = 0
  /\ forall (x : tensor Z) (x_mask : tensor bool) (freqs_cis : tensor unit),
       JointAttention.forward Z unit 0%Z gqa_linear_qkv gqa_rms_norm gqa_rms_norm
         gqa_rotary gqa_sdpa_values thin_attention x x_mask freqs_cis = None.
Proof.
  apply (attention_needs_head_dim 0%Z gqa_linear_qkv gqa_rms_norm gqa_rms_norm
           gqa_rotary gqa_sdpa_values 4 8 None false thin_attention);
    [reflexivity | lia].
Defined.

(** ** The width of the rotary tables *)

Lemma half_dim_double d : 2 * half_dim d = d + (if Nat.odd d then 1 else 0).
Proof.
  unfold half_dim.
  pose proof (Nat.div_mod_eq (d + 1) 2) as Hdm.
  pose proof (Nat.mod_upper_bound (d + 1) 2 ltac:(lia)) as Hlt.
  destruct (Nat.odd d) eqn:Ho.
  - apply Nat.odd_spec in Ho as (m & ->). lia.
  - assert (He : Nat.even d = true).
    { rewrite <- Nat.negb_odd, Ho. reflexivity. }
    apply Nat.even_spec in He as (m & ->). lia.
Qed.

Lemma half_dim_sum dims :
  2 * list_sum (map half_dim dims)
  = list_sum dims + length (filter Nat.odd dims).
Proof.
  induction dims as [|d dims IH]; [reflexivity|].
  cbn [map filter].
  change (list_sum (half_dim d :: map half_dim dims))
    with (half_dim d + list_sum (map half_dim dims)).
  change (list_sum (d :: dims)) with (d + list_sum dims).
  pose proof (half_dim_double d) as Hd.
  destruct (Nat.odd d); cbn [length]; lia.
Qed.

Lemma table_widths {F E : Type} (zero_e : E) (cis : F -> nat -> nat -> nat -> E)
    (theta : F) (dims lens : list nat) :
  length dims <= length lens ->
  map (fun tb => nth 1 (shape tb) 0)
      (RopeEmbedder.precompute_freqs_cis F E zero_e cis dims lens theta)
  = map half_dim dims.
Proof.
  unfold RopeEmbedder.precompute_freqs_cis. rewrite map_map.
  revert lens. induction dims as [|d dims IH]; intros [|e lens] Hl;
    cbn [length] in Hl; try reflexivity; [lia|].
  cbn [combine map]. f_equal. apply IH. lia.
Qed.

(** X18.  For a model that passed the assertion of line 603
    ([dim // n_heads == sum(axes_dims)]) and has a length for every axis,
    the widths of the rotary tables add up to half the head dimension, the
    width [apply_rotary_emb] pairs the head dimension into, exactly when
    every axis dimension is even. *)
Theorem rope_width_half_head_dim {A F E : Type} (zero_e : E)
    (cis : F -> nat -> nat -> nat -> E) (theta : F) (nn_ : modules A E)
    (patch_size_ in_channels_ dim_ n_heads_ : nat)
    (dims lens : list nat) (self : Lumina A F E) :
  Lumina_init zero_e cis theta nn_ patch_size_ in_channels_ dim_ n_heads_
    dims lens = Some self ->
  length dims <= length lens ->
  list_sum (map (fun tb => nth 1 (shape tb) 0)
                (RopeEmbedder.tables (rope_embedder self)))
  = dim_ / n_heads_ / 2
  <-> Forall (fun d => Nat.even d = true) dims.
Proof.
  intros Hinit Hl. unfold Lumina_init in Hinit. inv_some Hinit.
  injection Hinit as <-. cbn [rope_embedder].
  rewrite init_tables, (table_widths zero_e cis theta dims lens Hl).
  unfold floordiv in *. destruct (n_heads_ =? 0); [discriminate|].
  repeat match goal with E0 : Some _ = Some _ |- _ => injection E0 as <- end.
  match goal with E0 : (_ =? _) = true |- _ => apply Nat.eqb_eq in E0 as -> end.
  pose proof (half_dim_sum dims) as Hsum.
  pose proof (Nat.div_mod_eq (list_sum dims) 2) as Hdm.
  pose proof (Nat.mod_upper_bound (list_sum dims) 2 ltac:(lia)) as Hlt.
  split.
  - intros Heq.
    assert (Hnil : filter Nat.odd dims = []).
    { apply length_zero_iff_nil. lia. }
    apply Forall_forall. intros d Hd.
    destruct (Nat.odd d) eqn:Ho.
    + assert (Hin : In d (filter Nat.odd dims)) by (apply filter_In; auto).
      rewrite Hnil in Hin. destruct Hin.
    + rewrite <- Nat.negb_odd, Ho. reflexivity.
  - intros Hev.
    assert (Hnil : length (filter Nat.odd dims) = 0).
    { clear -Hev. induction Hev as [|d dims Hd _ IH]; [reflexivity|].
      cbn [filter]. rewrite <- Nat.negb_odd in Hd.
      destruct (Nat.odd d); [discriminate | exact IH]. }
    lia.
Qed.

(** The hypotheses of [rope_width_half_head_dim] at the scenario's model. *)
Lemma rope_width_half_head_dim_witness :
  list_sum (map (fun tb => nth 1 (shape tb) 0)
                (RopeEmbedder.tables (rope_embedder scenario_lumina)))
  = 16 / 1 / 2
  <-> Forall (fun d => Nat.even d = true) [4; 6; 6].
Proof.
  apply (rope_width_half_head_dim (0, 0, 0) tag_cis tt id_modules 2 4 16 1
           [4; 6; 6] [3; 2; 2] scenario_lumina); [reflexivity | cbn; lia].
Defined.



(** ** The caption and image slices of the rotary lookup *)

Lemma tget_rows_bindex_from {A} (zero : A) (t ti : tensor A) B T D i a b j k :
  shape t = [B; T; D] -> select i t = Some ti ->
  a <= b -> b <= T -> j < b - a -> k < D ->
  tget zero (rows a b ti) (bindex [j; k] (shape (rows a b ti)))
  = tget zero t [i; a + j; k].
Proof.
  intros Hs Hsel Hab Hb Hj Hk.
  assert (Hti : shape ti = [T; D]).
  { destruct (select_shape3 _ _ _ _ _ _ Hs Hsel) as (_ & ->). reflexivity. }
  rewrite (rows_shape2 ti T D a b Hti) by lia.
  unfold bindex. cbn [combine map]. rewrite !Nat.mod_small by lia.
  now rewrite (tget_rows_select zero t ti B T D i a b j k) by (assumption || lia).
Qed.

(** X19.  Lines 669-687 split the rotary lookup of shape
    [[bsz, max_seq_len, K]] in two: row [i] of the caption slice, as long
    as the caption features, holds the lookup rows of the first [cap_len]
    tokens of sample [i]; row [i] of the image slice, [max_img_len] long,
    holds the lookup rows of its [img_len] image tokens, which start at
    [cap_len]; both are zero after that. *)
Theorem pack_freqs_layout {A E : Type} (zero_e : E) (p B Bc L D K : nat)
    (imgs : list (tensor A)) (cap_mask : tensor bool) (ln : lengths)
    (cap_feats : tensor A) (freqs_cis cap_fc img_fc : tensor E) :
  pack_lengths p p imgs cap_mask = Some ln ->
  shape cap_mask = [B; L] ->
  shape cap_feats = [Bc; L; D] ->
  shape freqs_cis = [length imgs; max_seq_len ln; K] ->
  pack_freqs zero_e ln cap_feats freqs_cis = Some (cap_fc, img_fc) ->
  shape cap_fc = [length imgs; L; K]
  /\ shape img_fc = [length imgs; max_img_len ln; K]
  /\ forall i c g,
       nth_error (l_effective_cap_len ln) i = Some c ->
       nth_error (l_effective_img_len ln) i = Some g ->
       (forall j k, j < L -> k < K ->
          tget zero_e cap_fc [i; j; k]
          = if j <? c then tget zero_e freqs_cis [i; j; k] else zero_e)
       /\ (forall j k, j < max_img_len ln -> k < K ->
             tget zero_e img_fc [i; j; k]
             = if j <? g then tget zero_e freqs_cis [i; c + j; k] else zero_e).
Proof.
  intros Hln Hcm Hcf Hfc Hpack.
  destruct (pack_lengths_spec p imgs cap_mask ln Hln)
    as (Hp & Hb & Hsum & _ & Hlimg & _ & _ & Hmax).
  unfold pack_freqs in Hpack. rewrite Hfc, Hcf in Hpack.
  cbn [nth_error] in Hpack. rewrite <- Hb in *.
  assert (HcL : forall i c, nth_error (l_effective_cap_len ln) i = Some c -> c <= L).
  { intros i c Hc.
    destruct (sum_dim1_nth _ _ _ _ Hsum Hc) as (B' & L' & Hs' & _ & ->).
    rewrite Hcm in Hs'. injection Hs' as <- <-.
    etransitivity; [apply count_true_le|].
    etransitivity; [apply slice_length_le|]. lia. }
  set (Inv := fun n (st : tensor E * tensor E) =>
          shape (fst st) = [bsz ln; L; K]
          /\ shape (snd st) = [bsz ln; max_img_len ln; K]
          /\ (forall i j k, i < bsz ln -> j < L -> k < K ->
                tget zero_e (fst st) [i; j; k]
                = if i <? n
                  then match nth_error (l_effective_cap_len ln) i with
                       | Some c => if j <? c
                                   then tget zero_e freqs_cis [i; j; k]
                                   else zero_e
                       | None => zero_e
                       end
                  else zero_e)
          /\ (forall i j k, i < bsz ln -> j < max_img_len ln -> k < K ->
                tget zero_e (snd st) [i; j; k]
                = if i <? n
                  then match nth_error (l_effective_cap_len ln) i,
                             nth_error (l_effective_img_len ln) i with
                       | Some c, Some g =>
                           if j <? g
                           then tget zero_e freqs_cis [i; c + j; k]
                           else zero_e
                       | _, _ => zero_e
                       end
                  else zero_e)).
  assert (Hinv : Inv (bsz ln) (cap_fc, img_fc)); [|clear Hpack].
  { refine (for_range_seq _ Inv (bsz ln) 0 _ (cap_fc, img_fc) _ _ Hpack);
      unfold Inv; clear Inv.
    { repeat split; try reflexivity; intros; apply tget_zeros. }
    intros n [cf imf] [cf' imf'] _ (Hs1 & Hs2 & Hc1 & Hc2) Hbody.
    cbn [fst snd] in *.
    destruct (nth_error (l_effective_cap_len ln) n) as [c|] eqn:Hcn;
      [|discriminate].
    destruct (nth_error (l_effective_img_len ln) n) as [g|] eqn:Hgn;
      [|discriminate].
    destruct (select n freqs_cis) as [fi|] eqn:Hfin; [|discriminate].
    destruct (setitem zero_e cf n 0 c None (rows 0 c fi)) as [cf1|] eqn:H1;
      [|discriminate].
    destruct (setitem zero_e imf n 0 g None (rows c (c + g) fi)) as [imf1|] eqn:H2;
      [|discriminate].
    injection Hbody as <- <-.
    pose proof (Hmax _ _ _ Hcn Hgn) as Hfit.
    pose proof (HcL _ _ Hcn) as HcLn.
    pose proof (pack_lengths_img_bound p p imgs cap_mask ln n g Hln Hgn) as HgL.
    destruct (setitem_rows _ _ _ _ _ _ _ _ _ [K] Hs1 H1) as (Hs1' & _ & Hv1).
    destruct (setitem_rows _ _ _ _ _ _ _ _ _ [K] Hs2 H2) as (Hs2' & _ & Hv2).
    unfold clamp in Hv1, Hv2.
    rewrite ?Nat.min_0_l, ?Nat.min_l in Hv1, Hv2 by lia.
    split; [exact Hs1'|]. split; [exact Hs2'|]. split.
    + intros i j k Hi Hj Hk. rewrite Hv1 by (assumption || bounds).
      rewrite Hc1 by assumption.
      cbn [Nat.leb]. rewrite Nat.sub_0_r, andb_true_r.
      destruct (Nat.eqb_spec i n) as [->|Hin].
      * replace (n <? S n) with true by (symmetry; apply Nat.ltb_lt; lia).
        rewrite Nat.ltb_irrefl, Hcn. cbn [andb].
        destruct (Nat.ltb_spec j c); [|reflexivity].
        exact (tget_rows_bindex zero_e freqs_cis _ _ _ _ n c j k
                 Hfc Hfin ltac:(lia) ltac:(assumption) Hk).
      * cbn [andb].
        destruct (Nat.ltb_spec i n), (Nat.ltb_spec i (S n)); try reflexivity; lia.
    + intros i j k Hi Hj Hk. rewrite Hv2 by (assumption || bounds).
      rewrite Hc2 by assumption.
      cbn [Nat.leb]. rewrite Nat.sub_0_r, andb_true_r.
      destruct (Nat.eqb_spec i n) as [->|Hin].
      * replace (n <? S n) with true by (symmetry; apply Nat.ltb_lt; lia).
        rewrite Nat.ltb_irrefl, Hcn, Hgn. cbn [andb].
        destruct (Nat.ltb_spec j g); [|reflexivity].
        exact (tget_rows_bindex_from zero_e freqs_cis _ _ _ _ n c (c + g) j k
                 Hfc Hfin ltac:(lia) Hfit ltac:(lia) Hk).
      * cbn [andb].
        destruct (Nat.ltb_spec i n), (Nat.ltb_spec i (S n)); try reflexivity; lia.
  }
  destruct Hinv as (Hsc & Hsi & Hcc & Hci). cbn [fst snd] in *.
  split; [exact Hsc|]. split; [exact Hsi|].
  { 
    intros i c g Hc Hg.
    assert (Hi : i < bsz ln).
    { rewrite <- Hlimg. apply nth_error_Some. congruence. }
    split.
    + intros j k Hj Hk. rewrite Hcc by assumption. rewrite Hc.
      now destruct (Nat.ltb_spec i (bsz ln)); [|lia].
    + intros j k Hj Hk. rewrite Hci by assumption. rewrite Hc, Hg.
      now destruct (Nat.ltb_spec i (bsz ln)); [|lia]. }
Qed.

(** The hypotheses of [pack_freqs_layout] at the scenario. *)
Lemma pack_freqs_layout_witness :
  shape (fst scenario_split_freqs) = [length [scenario_image]; 4; 8]
  /\ shape (snd scenario_split_freqs)
     = [length [scenario_image]; max_img_len scenario_lengths; 8]
  /\ forall i c g,
       nth_error (l_effective_cap_len scenario_lengths) i = Some c ->
       nth_error (l_effective_img_len scenario_lengths) i = Some g ->
       (forall j k, j < 4 -> k < 8 ->
          tget (0, 0, 0) (fst scenario_split_freqs) [i; j; k]
          = if j <? c then tget (0, 0, 0) scenario_freqs [i; j; k]
            else (0, 0, 0))
       /\ (forall j k, j < max_img_len scenario_lengths -> k < 8 ->
             tget (0, 0, 0) (snd scenario_split_freqs) [i; j; k]
             = if j <? g then tget (0, 0, 0) scenario_freqs [i; c + j; k]
               else (0, 0, 0)).
Proof.
  apply (pack_freqs_layout (0, 0, 0) 2 1 1 4 16 8 [scenario_image]
           scenario_cap_mask scenario_lengths scenario_cap_feats
           scenario_freqs (fst scenario_split_freqs)
           (snd scenario_split_freqs)); reflexivity.
Defined.



(** ** Timestep embedding *)

Lemma tget_map_t {A B} (za : A) (zb : B) (f : A -> B) (t : tensor A) idx :
  wf t -> Forall2 lt idx (shape t) ->
  tget zb (map_t f t) idx = f (tget za t idx).
Proof.
  intros Hw Hidx. unfold tget, map_t. cbn [shape data].
  pose proof (ravel_bound _ _ Hidx) as Hlt. rewrite <- Hw in Hlt.
  rewrite (nth_indep _ zb (f za)) by (now rewrite length_map).
  apply map_nth.
Qed.

Lemma cat_cols_spec {A} (zero : A) (a b : tensor A) N wa wb :
  shape a = [N; wa] -> shape b = [N; wb] ->
  exists c, cat_cols zero a b = Some c
            /\ shape c = [N; wa + wb]
            /\ forall n k, n < N -> k < wa + wb ->
                 tget zero c [n; k]
                 = if k <? wa then tget zero a [n; k]
                   else tget zero b [n; k - wa].
Proof.
  intros Ha Hb. unfold cat_cols. rewrite Ha, Hb, Nat.eqb_refl.
  eexists. split; [reflexivity|]. split; [reflexivity|].
  intros n k Hn Hk. now rewrite tget_tabulate by bounds.
Qed.

(** X20.  On a one-dimensional [t], [timestep_embedding] raises exactly
    when [max_period] is 0.  Otherwise its result has one row per entry of
    [t] and [dim] columns, except for [dim = 1], where it has none: columns
    below [dim // 2] hold the cosines, the next [dim // 2] the sines of the
    same arguments, and for an odd [dim] other than 1 a last column of
    zeros follows. *)
Theorem timestep_embedding_layout {F : Type} (zero : F)
    (freq : nat -> nat -> nat -> F) (mul : F -> F -> F) (cos sin : F -> F)
    (t : list F) (dim_ max_period : nat) :
  exists e,
    TimestepEmbedding.timestep_embedding F zero freq mul cos sin t dim_ max_period
    = (if max_period =? 0 then None else Some e)
    /\ shape e = [length t; if dim_ =? 1 then 0 else dim_]
    /\ forall n, n < length t ->
         (forall k, k < dim_ / 2 ->
            tget zero e [n; k]
            = cos (mul (nth n t zero) (freq max_period (dim_ / 2) k))
            /\ tget zero e [n; dim_ / 2 + k]
               = sin (mul (nth n t zero) (freq max_period (dim_ / 2) k)))
         /\ (dim_ mod 2 = 1 -> dim_ <> 1 -> tget zero e [n; dim_ - 1] = zero).
Proof.
  unfold TimestepEmbedding.timestep_embedding. cbv zeta.
  set (half := dim_ / 2).
  set (freqs := mk [half] (map (freq max_period half) (seq 0 half))).
  set (args := tabulate [length t; half] _).
  assert (Hargs : forall n k, n < length t -> k < half ->
            tget zero args [n; k]
            = mul (nth n t zero) (freq max_period half k)).
  { intros n k Hn Hk. unfold args. rewrite tget_tabulate by bounds.
    f_equal. unfold freqs. rewrite tget_vec.
    rewrite (nth_indep _ zero (freq max_period half 0))
      by (now rewrite length_map, length_seq).
    rewrite map_nth, seq_nth by exact Hk. reflexivity. }
  assert (Hwf : wf args) by apply tabulate_wf.
  destruct (cat_cols_spec zero (map_t cos args) (map_t sin args)
              (length t) half half eq_refl eq_refl) as (emb & -> & Hse & Hemb).
  assert (Hcs : forall n k, n < length t -> k < half ->
            tget zero emb [n; k]
            = cos (mul (nth n t zero) (freq max_period half k))
            /\ tget zero emb [n; half + k]
               = sin (mul (nth n t zero) (freq max_period half k))).
  { intros n k Hn Hk. rewrite !Hemb by lia.
    destruct (Nat.ltb_spec k half); [|lia].
    destruct (Nat.ltb_spec (half + k) half); [lia|].
    replace (half + k - half) with k by lia.
    rewrite !(tget_map_t zero zero) by (assumption || (unfold args; bounds)).
    now rewrite Hargs. }
  pose proof (Nat.div_mod_eq dim_ 2) as Hdm. fold half in Hdm.
  pose proof (Nat.mod_upper_bound dim_ 2 ltac:(lia)) as Hlt.
  destruct (Nat.eqb_spec (dim_ mod 2) 0) as [Hev|Hodd]; cbn [negb].
  - exists emb. split; [now destruct (max_period =? 0)|]. split.
    + rewrite Hse. destruct (Nat.eqb_spec dim_ 1); [lia|]. f_equal. f_equal. lia.
    + intros n Hn. split; [intros k Hk; now apply Hcs | lia].
  - unfold first_cols. rewrite Hse. unfold zeros_like. cbn [shape tabulate].
    destruct (cat_cols_spec zero emb
                (zeros zero [length t; clamp (half + half) 1])
                (length t) (half + half) (clamp (half + half) 1) Hse eq_refl)
      as (e & -> & Hs & He).
    exists e. split; [now destruct (max_period =? 0)|]. unfold clamp in *. split.
    + rewrite Hs. destruct (Nat.eqb_spec dim_ 1) as [->|Hne].
      * reflexivity.
      * f_equal. f_equal. lia.
    + intros n Hn. split.
      * intros k Hk. rewrite !He by lia.
        destruct (Nat.ltb_spec k (half + half)); [|lia].
        destruct (Nat.ltb_spec (half + k) (half + half)); [|lia].
        now apply Hcs.
      * intros _ Hne. rewrite He by lia.
        destruct (Nat.ltb_spec (dim_ - 1) (half + half)); [lia|].
        apply tget_zeros.
Qed.


